(** * A tick-driven world simulation: sun, planet, clouds and rain

    Shallow embedding of [vectorMath.tsx], [geometry.tsx], [world.tsx] and
    [tickWorld.tsx], and of [util.tsx], which they import.

    Numbers.  A JavaScript [number] is modelled by a real number: the
    arithmetic below is the exact arithmetic that the floating-point code
    approximates.  The one place where the source leaves the finite numbers,
    a division by zero, is kept visible: [vectorMath.divide] returns [None]
    for a zero divisor (the source yields NaN or an infinity there).

    Objects.  Celestial objects are JavaScript objects that are shared by
    reference ([orbit.target], [Cloud.friends], the array [things]) and
    mutated in place.  They live in a store, [heap], addressed by [addr];
    every reference is an address. *)

From Stdlib Require Import Reals Lra Lia ZArith List String.
From stdpp Require Import base option list.
Import ListNotations.

Open Scope R_scope.

(** ** Numbers *)

Definition Rltb (x y : R) : bool := if Rlt_dec x y then true else false.
Definition Rgtb (x y : R) : bool := Rltb y x.

(** Truncation towards zero, and the JavaScript remainder [x % y], whose
    result takes the sign of the dividend [x]. *)
Definition Rtrunc (x : R) : Z :=
  if Rle_dec 0 x then Int_part x else (- Int_part (- x))%Z.

Definition Rrem (x y : R) : R := x - y * IZR (Rtrunc (x / y)).

Definition Vector2d : Type := R * R.

(** ** vectorMath.tsx *)

Module vectorMath.

Definition add (a b : Vector2d) : Vector2d := (a.1 + b.1, a.2 + b.2).

Definition rotate (v : Vector2d) (angle : R) : Vector2d :=
  let '(x, y) := v in
  (x * cos angle - y * sin angle, x * sin angle + y * cos angle).

Definition subtract (a b : Vector2d) : Vector2d := (a.1 - b.1, a.2 - b.2).

Definition magnitude (a : Vector2d) : R := sqrt (a.1 ^ 2 + a.2 ^ 2).

(** [None] stands for the non-finite pair that [x / 0] produces. *)
Definition divide (v : Vector2d) (b : R) : option Vector2d :=
  let '(x, y) := v in
  if Req_dec_T b 0 then None else Some (x / b, y / b).

Definition multiply (v : Vector2d) (b : R) : Vector2d :=
  let '(x, y) := v in (x * b, y * b).

Definition unitVector (a : Vector2d) : option Vector2d :=
  divide a (magnitude a).

Definition clipMagnitude (a : Vector2d) (maxMagnitude : R) : option Vector2d :=
  if Rgtb (magnitude a) maxMagnitude
  then (fun u => multiply u maxMagnitude) <$> unitVector a
  else Some a.

End vectorMath.

(** ** geometry.tsx *)

Definition EllipseShape : Type := R * R.

Module ellipseHelpers.
Definition calcRotationalPoint (s : EllipseShape) (t : R) : Vector2d :=
  let '(a, b) := s in (a * cos t, b * sin t).
End ellipseHelpers.

Module circleHelpers.
Definition calcRotationalPoint (radius t : R) : Vector2d :=
  (radius * cos t, radius * sin t).

Definition convertRotationalVelocityToEuclideanVelocity
    (radius rotation rotationalVelocity : R) : Vector2d :=
  vectorMath.subtract
    (calcRotationalPoint radius (rotation + rotationalVelocity))
    (calcRotationalPoint radius rotation).
End circleHelpers.

(** ** world.tsx *)

(** An object reference.  [heap] is the store of all celestial objects. *)
Abbreviation addr := nat.

Inductive Shape : Type :=
| Circle (radius : R)            (* [typeof shape === 'number'] *)
| Ellipse (axes : EllipseShape).

Record Orbit : Type := mkOrbit {
  orbit_rotation : R;
  orbit_rotationalVelocity : R;
  orbit_target : addr;
  orbit_shape : Shape
}.

Inductive CloudState : Type := raining | floating.

(** [CelestialObject], together with the fields that [Cloud] adds to it
    ([mass], [state], [friends]).  Sun and planet carry the three cloud
    fields too in this model; the code never reads them there.  [friends] is
    a JavaScript [Set]: insertion ordered, without duplicates. *)
Record CelestialObject : Type := mkCelestialObject {
  location : Vector2d;
  rotation : R;
  orbit : option Orbit;
  shape : Shape;
  rotationalVelocity : R;
  mass : R;
  state : CloudState;
  friends : list addr
}.

Record Rain : Type := mkRain {
  rain_location : Vector2d;
  rain_velocity : Vector2d
}.

Abbreviation heap := (list CelestialObject).

(** [plants] is left out: [createInitialWorldState] builds [plants: []] and
    nothing adds a plant, so the loop of [tickPlants] has no iteration. *)
Record WorldState : Type := mkWorldState {
  lastTick : Z;                  (* [Date.getTime()], milliseconds *)
  tick : Z;
  planet : addr;
  sun : addr;
  clouds : list addr;            (* [water.clouds] *)
  rain : list Rain;              (* [water.rain] *)
  ground : R;                    (* [water.ground] *)
  store : heap
}.

#[global] Instance CelestialObject_inhabited : Inhabited CelestialObject :=
  populate (mkCelestialObject (0, 0) 0 None (Circle 0) 0 0 floating []).

(** Field assignments. *)
Definition set_location (v : Vector2d) (o : CelestialObject) : CelestialObject :=
  mkCelestialObject v (rotation o) (orbit o) (shape o) (rotationalVelocity o)
    (mass o) (state o) (friends o).
Definition set_rotation (r : R) (o : CelestialObject) : CelestialObject :=
  mkCelestialObject (location o) r (orbit o) (shape o) (rotationalVelocity o)
    (mass o) (state o) (friends o).
Definition set_orbit (ob : Orbit) (o : CelestialObject) : CelestialObject :=
  mkCelestialObject (location o) (rotation o) (Some ob) (shape o)
    (rotationalVelocity o) (mass o) (state o) (friends o).
Definition set_mass (m : R) (o : CelestialObject) : CelestialObject :=
  mkCelestialObject (location o) (rotation o) (orbit o) (shape o)
    (rotationalVelocity o) m (state o) (friends o).
Definition set_state (s : CloudState) (o : CelestialObject) : CelestialObject :=
  mkCelestialObject (location o) (rotation o) (orbit o) (shape o)
    (rotationalVelocity o) (mass o) s (friends o).
Definition set_friends (fs : list addr) (o : CelestialObject) : CelestialObject :=
  mkCelestialObject (location o) (rotation o) (orbit o) (shape o)
    (rotationalVelocity o) (mass o) (state o) fs.

Definition set_orbit_rotation (r : R) (ob : Orbit) : Orbit :=
  mkOrbit r (orbit_rotationalVelocity ob) (orbit_target ob) (orbit_shape ob).
Definition set_orbit_rotationalVelocity (v : R) (ob : Orbit) : Orbit :=
  mkOrbit (orbit_rotation ob) v (orbit_target ob) (orbit_shape ob).

(** [Set.prototype.add]. *)
Definition Set_add (x : addr) (s : list addr) : list addr :=
  if decide (x ∈ s) then s else s ++ [x].

Definition set_store (h : heap) (w : WorldState) : WorldState :=
  mkWorldState (lastTick w) (tick w) (planet w) (sun w) (clouds w) (rain w)
    (ground w) h.
Definition set_clouds (cs : list addr) (w : WorldState) : WorldState :=
  mkWorldState (lastTick w) (tick w) (planet w) (sun w) cs (rain w)
    (ground w) (store w).
Definition set_rain (rs : list Rain) (w : WorldState) : WorldState :=
  mkWorldState (lastTick w) (tick w) (planet w) (sun w) (clouds w) rs
    (ground w) (store w).
Definition set_lastTick (t : Z) (w : WorldState) : WorldState :=
  mkWorldState t (tick w) (planet w) (sun w) (clouds w) (rain w)
    (ground w) (store w).

(** ** Effects: exceptions and [Math.random] *)

Inductive result (A : Type) : Type :=
| Ok (a : A)
| Throw (msg : string).
Arguments Ok {A} a.
Arguments Throw {A} msg.

Definition bind {A B} (m : result A) (k : A -> result B) : result B :=
  match m with
  | Ok a => k a
  | Throw msg => Throw msg
  end.

Notation "'let!' x ':=' m 'in' k" := (bind m (fun x => k))
  (at level 10, x name, m at level 100, k at level 200).

(** A [for ... of] loop whose body may throw. *)
Fixpoint forOf {S A} (body : S -> A -> result S) (s : S) (l : list A) : result S :=
  match l with
  | [] => Ok s
  | x :: l' => let! s' := body s x in forOf body s' l'
  end.

(** The stream of values that the successive calls of [Math.random()]
    return, and the number of calls made so far. *)
Record Rng : Type := mkRng {
  draws : nat -> R;
  cursor : nat
}.

Definition random (g : Rng) : R * Rng :=
  (draws g (cursor g), mkRng (draws g) (S (cursor g))).

(** ** tickWorld.tsx *)

Definition TypeError : string := "TypeError: cannot read properties of undefined".

(** [cloud.orbit], whose static type says it is present. *)
Definition cloudOrbit (h : heap) (cloud : addr) : result Orbit :=
  match orbit (h !!! cloud) with
  | Some ob => Ok ob
  | None => Throw TypeError
  end.

Definition createRandomCloud (h : heap) (planet : addr) (g : Rng)
    : result (CelestialObject * Rng) :=
  match shape (h !!! planet) with
  | Ellipse _ =>
      Throw "Clouds can only be created around circular CelestialObjects"
  | Circle planetShape =>
      let '(r1, g) := random g in
      let initialRotation := r1 * 2 * PI in
      let minimumCloudHeight := 1 in
      let '(r2, g) := random g in
      let orbitalRadius := planetShape * 2 + minimumCloudHeight + r2 * 1 in
      let direction :=
        if Rgtb (rotationalVelocity (h !!! planet)) 0 then 1 else -1 in
      let '(r3, g) := random g in
      let rotationalVelocityCoefficient := r3 * 700 + 800 in
      let '(r4, g) := random g in
      let '(r5, g) := random g in
      Ok ({| shape := Ellipse (0.6 + r4 * 0.2, 0.4 + r5 * 0.2);
             rotationalVelocity := 0;
             rotation := 0;
             location :=
               circleHelpers.calcRotationalPoint orbitalRadius initialRotation;
             orbit := Some
               {| orbit_target := planet;
                  orbit_rotationalVelocity :=
                    direction * (2 * PI) / rotationalVelocityCoefficient;
                  orbit_rotation := initialRotation;
                  orbit_shape := Circle orbitalRadius |};
             mass := 5;
             state := floating;
             friends := [] |}, g)
  end.

Definition addCloudJitter (cloud : CelestialObject) (g : Rng) : Vector2d * Rng :=
  let '(a, b) := location cloud in
  let '(r1, g) := random g in
  let '(r2, g) := random g in
  ((a + (r1 - 0.5) * 1.0, b + (r2 - 0.5) * 0.3), g).

Definition timePerMs : R := 1 / 10.
Definition gravity : R := 0.1.
Definition maxRainVelocity : R := 0.1.
Definition rainThreshold : R := 30.

(** *** Pass 1: kinematics *)

(** The conditional on [typeof rotationShape === 'number']. *)
Definition orbitPoint (rotationShape : Shape) (orbitalRotation : R) : Vector2d :=
  match rotationShape with
  | Circle radius => circleHelpers.calcRotationalPoint radius orbitalRotation
  | Ellipse axes => ellipseHelpers.calcRotationalPoint axes orbitalRotation
  end.

(** One iteration of the loop of [tickCelestialObjects].  The target is read
    from the store as it is at that moment, after the object's own rotations
    were written. *)
Definition tickCelestialObject (elapsedWorldTime : R) (h : heap) (celestial : addr)
    : heap :=
  let h1 :=
    alter (fun o => set_rotation
             (Rrem (rotation o + rotationalVelocity o * elapsedWorldTime) (PI * 2)) o)
          celestial h in
  match orbit (h1 !!! celestial) with
  | None => h1
  | Some ob =>
      let orbitalRotation :=
        Rrem (orbit_rotation ob + orbit_rotationalVelocity ob * elapsedWorldTime)
             (PI * 2) in
      let h2 :=
        alter (set_orbit (set_orbit_rotation orbitalRotation ob)) celestial h1 in
      let newLocationRelativeToTarget :=
        orbitPoint (orbit_shape ob) orbitalRotation in
      alter (set_location
               (vectorMath.add newLocationRelativeToTarget
                  (location (h2 !!! orbit_target ob))))
            celestial h2
  end.

Definition tickCelestialObjects (celestialObjects : list addr)
    (elapsedWorldTime : R) (h : heap) : heap :=
  fold_left (tickCelestialObject elapsedWorldTime) celestialObjects h.

(** *** Pass 3: rain *)

(** [distance > planet.shape]: a planet whose shape is a pair makes the
    comparison false (the pair converts to NaN). *)
Definition aboveGround (distance : R) (planetShape : Shape) : bool :=
  match planetShape with
  | Circle radius => Rgtb distance radius
  | Ellipse _ => false
  end.

(** One iteration of the loop of [tickRain]: the particle after the update,
    or [None] when it is not pushed to [rainToRetain].  A non-finite
    direction or velocity makes every later value NaN, [distance] included,
    so that [distance > planet.shape] is false. *)
Definition tickRainParticle (planet : CelestialObject) (elapsedWorldTime : R)
    (rain : Rain) : option Rain :=
  match vectorMath.unitVector
          (vectorMath.subtract (location planet) (rain_location rain)) with
  | None => None
  | Some centerOfEarthDirection =>
      let changeInVelocity :=
        vectorMath.multiply centerOfEarthDirection (gravity * elapsedWorldTime) in
      match vectorMath.clipMagnitude
              (vectorMath.add (rain_velocity rain) changeInVelocity)
              maxRainVelocity with
      | None => None
      | Some velocity =>
          let location' :=
            vectorMath.add (rain_location rain)
              (vectorMath.multiply velocity elapsedWorldTime) in
          let distance :=
            vectorMath.magnitude
              (vectorMath.subtract location' (location planet)) in
          if aboveGround distance (shape planet)
          then Some (mkRain location' velocity)
          else None
      end
  end.

Definition tickRain (w : WorldState) (elapsedWorldTime : R) : WorldState :=
  let rainToRetain :=
    omap (tickRainParticle (store w !!! planet w) elapsedWorldTime) (rain w) in
  set_rain rainToRetain w.

(** *** Pass 2: clouds *)

Definition cloudRangeCount : nat := 10.

(** The body of the [map] that builds [cloudRanges], at index [i]. *)
Definition cloudRange (i : nat) : Vector2d :=
  let rangeWidth := PI * 2 / INR cloudRangeCount in
  let begin_ := rangeWidth * INR i in
  let fuzzAmount := rangeWidth / 2 in
  let end_ := begin_ + rangeWidth in
  let fuzzyBegin :=
    if (i =? 0)%nat then PI * 2 - fuzzAmount else begin_ - fuzzAmount in
  let fuzzyEnd :=
    if (i =? cloudRangeCount - 1)%nat then fuzzAmount else end_ + fuzzAmount in
  (fuzzyBegin, fuzzyEnd).

Definition cloudRanges : list Vector2d := map cloudRange (seq 0 cloudRangeCount).

(** The condition under which [getCloudGroups] pushes a cloud to a group. *)
Definition inCloudRange (range : Vector2d) (orbitRotation : R) : bool :=
  let '(begin_, end_) := range in
  (Rltb end_ begin_ && (Rgtb orbitRotation begin_ || Rltb orbitRotation end_))
  || (Rgtb orbitRotation begin_ && Rltb orbitRotation end_).

Definition getCloudGroup (h : heap) (clouds : list addr) (range : Vector2d)
    : result (list addr) :=
  forOf (fun group cloud =>
           let! ob := cloudOrbit h cloud in
           Ok (if inCloudRange range (orbit_rotation ob)
               then group ++ [cloud] else group))
        [] clouds.

Definition getCloudGroups (h : heap) (clouds : list addr)
    : result (list (list addr)) :=
  forOf (fun cloudGroups range =>
           let! group := getCloudGroup h clouds range in
           Ok (cloudGroups ++ [group]))
        [] cloudRanges.

(** The body of the innermost loop of the clustering step.  As on line 345
    of the source, [otherCloudShape] is read from [cloud], not from
    [otherCloud]. *)
Definition clusterPair (cloud : addr) (h : heap) (otherCloud : addr) : result heap :=
  match shape (h !!! cloud) with
  | Circle _ => Throw "Cloud must have tuple."
  | Ellipse cloudShape =>
      match shape (h !!! cloud) with
      | Circle _ => Throw "Cloud must have tuple."
      | Ellipse otherCloudShape =>
          if decide (cloud = otherCloud) then Ok h
          else
            let distance :=
              vectorMath.magnitude
                (vectorMath.subtract (location (h !!! otherCloud))
                                     (location (h !!! cloud))) in
            if Rltb distance
                 (Rmin cloudShape.1 cloudShape.2
                  + Rmin otherCloudShape.1 otherCloudShape.2 / 4)
            then
              let! otherOrbit := cloudOrbit h otherCloud in
              let! cloudOrbit' := cloudOrbit h cloud in
              let h1 :=
                alter (set_orbit (set_orbit_rotationalVelocity
                                    (orbit_rotationalVelocity cloudOrbit')
                                    otherOrbit)) otherCloud h in
              let h2 :=
                alter (fun o => set_friends (Set_add cloud (friends o)) o)
                      otherCloud h1 in
              Ok (alter (fun o => set_friends (Set_add otherCloud (friends o)) o)
                        cloud h2)
            else Ok h
      end
  end.

Definition clusterGroup (h : heap) (cloudGroup : list addr) : result heap :=
  forOf (fun h cloud => forOf (clusterPair cloud) h cloudGroup) h cloudGroup.

Definition clusterClouds (h : heap) (cloudGroups : list (list addr)) : result heap :=
  forOf clusterGroup h cloudGroups.

(** [reduce((a, b) => a + b, 0)]. *)
Definition sum (l : list R) : R := fold_left Rplus l 0.

Definition collectiveMass (h : heap) (cloud : addr) : R :=
  mass (h !!! cloud)
  + sum (map (fun cloud =>
                mass (h !!! cloud)
                + sum (map (fun cloud => mass (h !!! cloud))
                           (friends (h !!! cloud))))
             (friends (h !!! cloud))).

(** The state of the second loop of [tickClouds]: the world, the local array
    [remainingClouds] and the random stream. *)
Record CloudLoop : Type := mkCloudLoop {
  loop_world : WorldState;
  remainingClouds : list addr;
  loop_rng : Rng
}.

(** Lines 381 to 386. *)
Definition markRaining (collectiveMass : R) (h : heap) (cloud : addr) : heap :=
  if Rgtb collectiveMass rainThreshold then
    fold_left (fun h otherCloud => alter (set_state raining) otherCloud h)
              (friends (h !!! cloud))
              (alter (set_state raining) cloud h)
  else h.

(** Lines 403 to 414, once the random draw is below [probability]. *)
Definition emitRain (cloud : addr) (cloudRadius : R) (ob : Orbit)
    (w : WorldState) (g : Rng) : WorldState * Rng :=
  let h := alter (fun o => set_mass (mass o - 0.1) o) cloud (store w) in
  let '(jittered, g) := addCloudJitter (h !!! cloud) g in
  (set_rain
     (rain w ++
        [mkRain jittered
           (circleHelpers.convertRotationalVelocityToEuclideanVelocity
              cloudRadius (orbit_rotation ob) (orbit_rotationalVelocity ob))])
     (set_store h w), g).

(** Lines 425 to 428.  After line 423, [worldState.water.clouds] is the
    array [remainingClouds] itself, so the [push] on line 427 appends to
    both. *)
Definition spawnCloud (clouds : list addr) (st : CloudLoop) : result CloudLoop :=
  let w := loop_world st in
  if (length clouds <? 20)%nat then
    let '(r, g) := random (loop_rng st) in
    if Rltb r 0.05 then
      let! created := createRandomCloud (store w) (planet w) g in
      let '(newCloud, g) := created in
      let remaining := remainingClouds st ++ [length (store w)] in
      Ok (mkCloudLoop (set_clouds remaining (set_store (store w ++ [newCloud]) w))
                      remaining g)
    else Ok (mkCloudLoop w (remainingClouds st) g)
  else Ok st.

(** Line 423, after [cloud] was pushed to [remainingClouds] or not. *)
Definition assignClouds (retain : bool) (cloud : addr) (w : WorldState)
    (remainingClouds : list addr) (g : Rng) : CloudLoop :=
  let remaining :=
    if retain then remainingClouds ++ [cloud] else remainingClouds in
  mkCloudLoop (set_clouds remaining w) remaining g.

(** Lines 369 to 423 of the body of the second loop of [tickClouds]. *)
Definition rainOrRetain (elapsedWorldTime : R) (st : CloudLoop) (cloud : addr)
    : result CloudLoop :=
  let w := loop_world st in
  let collectiveMass := collectiveMass (store w) cloud in
  let w := set_store (markRaining collectiveMass (store w) cloud) w in
  match state (store w !!! cloud) with
  | raining =>
      let rainProbabilityAdjustment :=
        Rmax (Rmin (0.01 * collectiveMass ^ 2) 1.0) 0.2 in
      let probability :=
        Rmin (0.1 * elapsedWorldTime * rainProbabilityAdjustment) 0.2 in
      let! ob := cloudOrbit (store w) cloud in
      match orbit_shape ob with
      | Ellipse _ => Throw "Non-circular cloud orbital radius"
      | Circle cloudRadius =>
          let '(r, g) := random (loop_rng st) in
          let '(w, g) :=
            if Rltb r probability then emitRain cloud cloudRadius ob w g
            else (w, g) in
          Ok (assignClouds (Rgtb (mass (store w !!! cloud)) 0) cloud w
                (remainingClouds st) g)
      end
  | floating =>
      Ok (assignClouds true cloud w (remainingClouds st) (loop_rng st))
  end.

(** The body of the second loop of [tickClouds] (lines 369 to 428);
    [clouds] is the array the loop iterates over. *)
Definition tickCloud (clouds : list addr) (elapsedWorldTime : R)
    (st : CloudLoop) (cloud : addr) : result CloudLoop :=
  let! st := rainOrRetain elapsedWorldTime st cloud in
  spawnCloud clouds st.

Definition tickClouds (clouds : list addr) (w : WorldState)
    (elapsedWorldTime : R) (g : Rng) : result (WorldState * Rng) :=
  let remainingClouds := [] in
  let! cloudGroups := getCloudGroups (store w) clouds in
  let! h := clusterClouds (store w) cloudGroups in
  let! st := forOf (tickCloud clouds elapsedWorldTime)
                   (mkCloudLoop (set_store h w) remainingClouds g) clouds in
  Ok (loop_world st, loop_rng st).

(** *** The entry point

    [now] is the value of [new Date().getTime()] at the call. *)
Definition things (w : WorldState) : list addr := sun w :: planet w :: clouds w.

Definition tickWorld (w : WorldState) (now : Z) (g : Rng)
    : result (WorldState * Rng) :=
  let lastTick := lastTick w in
  let w := set_lastTick now w in
  let elapsedWorldTime := IZR (now - lastTick) * timePerMs in
  let w := set_store (tickCelestialObjects (things w) elapsedWorldTime (store w)) w in
  let! ticked := tickClouds (clouds w) w elapsedWorldTime g in
  let '(w, g) := ticked in
  Ok (tickRain w elapsedWorldTime, g).

(** ** Auxiliary definitions for the statements *)

(** Successive ticks, at the given values of [new Date().getTime()]. *)
Fixpoint tickWorlds (w : WorldState) (nows : list Z) (g : Rng)
    : result (WorldState * Rng) :=
  match nows with
  | [] => Ok (w, g)
  | now :: nows' =>
      let! ticked := tickWorld w now g in
      tickWorlds (fst ticked) nows' (snd ticked)
  end.

(** What one iteration of [tickCelestialObjects] leaves in the processed
    object [o], read in the store [h] the iteration started from. *)
Definition tickedObject (dt : R) (h : heap) (o : CelestialObject) : CelestialObject :=
  let o1 := set_rotation (Rrem (rotation o + rotationalVelocity o * dt) (PI * 2)) o in
  match orbit o with
  | None => o1
  | Some ob =>
      let orbitalRotation :=
        Rrem (orbit_rotation ob + orbit_rotationalVelocity ob * dt) (PI * 2) in
      set_location
        (vectorMath.add (orbitPoint (orbit_shape ob) orbitalRotation)
           (location (h !!! orbit_target ob)))
        (set_orbit (set_orbit_rotation orbitalRotation ob) o1)
  end.

(** [a] has an orbit, and its target is [t]. *)
Definition orbitsAround (h : heap) (a t : addr) : Prop :=
  exists ob, orbit (h !!! a) = Some ob /\ orbit_target ob = t.

(** The location of [a] is the point of its orbit, at the orbit's current
    rotation, relative to the current location of the target [t]. *)
Definition anchored (h : heap) (a t : addr) : Prop :=
  exists ob,
    orbit (h !!! a) = Some ob /\ orbit_target ob = t
    /\ location (h !!! a)
       = vectorMath.add (orbitPoint (orbit_shape ob) (orbit_rotation ob))
                        (location (h !!! t)).

(** [a] comes before [b] in the order of processing [l]. *)
Definition processedBefore (l : list addr) (a b : addr) : Prop :=
  exists i j, l !! i = Some a /\ l !! j = Some b /\ (i < j)%nat.
(** *** World construction *)

Definition ticksInADay : R := 10000.
Definition ticksInAYear : R := 2000.
Definition sunOrbitEllipse : EllipseShape := (175, 200).

(** [Array.from(range(n)).map(() => createRandomCloud(planet))]. *)
Fixpoint createRandomClouds (n : nat) (h : heap) (planet : addr) (g : Rng)
    : result (list CelestialObject * Rng) :=
  match n with
  | O => Ok ([], g)
  | S n' =>
      let! created := createRandomCloud h planet g in
      let '(cloud, g) := created in
      let! rest := createRandomClouds n' h planet g in
      let '(clouds, g) := rest in
      Ok (cloud :: clouds, g)
  end.

(** The planet object of [createInitialWorldState]. *)
Definition initialPlanet : CelestialObject :=
  {| location := (0, 0);
     rotation := 0;
     shape := Circle 3;
     rotationalVelocity := (2 * PI) / ticksInADay;
     orbit := None;
     mass := 0; state := floating; friends := [] |}.

(** The sun object of [createInitialWorldState], orbiting [planet]. *)
Definition initialSun (planet : addr) : CelestialObject :=
  {| rotation := 0;
     location := ellipseHelpers.calcRotationalPoint sunOrbitEllipse 0;
     shape := Circle 20;
     rotationalVelocity := 0;
     orbit := Some {| orbit_rotation := 0;
                      orbit_rotationalVelocity := (2 * PI) / ticksInAYear;
                      orbit_target := planet;
                      orbit_shape := Ellipse sunOrbitEllipse |};
     mass := 0; state := floating; friends := [] |}.

(** The planet is allocated first, then the twenty clouds, then the sun. *)
Definition createInitialWorldState (now : Z) (g : Rng)
    : result (WorldState * Rng) :=
  let planet := 0%nat in
  let h := [initialPlanet] in
  let! created := createRandomClouds 20 h planet g in
  let '(cloudObjects, g) := created in
  Ok ({| lastTick := now;
         tick := 0;
         planet := planet;
         sun := S (length cloudObjects);
         clouds := seq 1 (length cloudObjects);
         rain := [];
         ground := 0;
         store := h ++ cloudObjects ++ [initialSun planet] |}, g).

(** *** Small worlds used as examples *)

(** A cloud as [createRandomCloud] builds it, for given values of its random
    parameters. *)
Definition cloudAt (planet : addr) (axes : EllipseShape) (orbitalRadius angle rv : R)
    (m : R) (s : CloudState) (fs : list addr) : CelestialObject :=
  {| shape := Ellipse axes;
     rotationalVelocity := 0;
     rotation := 0;
     location := circleHelpers.calcRotationalPoint orbitalRadius angle;
     orbit := Some {| orbit_target := planet;
                      orbit_rotationalVelocity := rv;
                      orbit_rotation := angle;
                      orbit_shape := Circle orbitalRadius |};
     mass := m; state := s; friends := fs |}.

(** Planet at address 0, sun at address 1, the clouds after them. *)
Definition worldOf (cloudObjects : list CelestialObject) (rains : list Rain)
    : WorldState :=
  {| lastTick := 0; tick := 0; planet := 0%nat; sun := 1%nat;
     clouds := seq 2 (length cloudObjects);
     rain := rains; ground := 0;
     store := initialPlanet :: initialSun 0 :: cloudObjects |}.

(** The random stream that always returns the same value. *)
Definition constantRng (r : R) : Rng := mkRng (fun _ => r) 0.

Definition oneCloudWorld : WorldState :=
  worldOf [cloudAt 0 (0.6, 0.4) 7 0 0 5 floating []] [].

(** A world without clouds whose planet spins clockwise. *)
Definition clockwiseWorld : WorldState :=
  {| lastTick := 0; tick := 0; planet := 0%nat; sun := 1%nat;
     clouds := []; rain := []; ground := 0;
     store := [ {| location := (0, 0);
                   rotation := 0;
                   shape := Circle 3;
                   rotationalVelocity := - ((2 * PI) / ticksInADay);
                   orbit := None;
                   mass := 0; state := floating; friends := [] |};
                initialSun 0 ] |}.

(** The clouds whose masses [collectiveMass] adds up, each as often as it is
    added: the cloud, then each friend followed by that friend's friends. *)
Definition contributions (h : heap) (cloud : addr) : list addr :=
  cloud :: flat_map (fun friend => friend :: friends (h !!! friend))
                    (friends (h !!! cloud)).

(** Two clouds that are friends of each other, and of nobody else. *)
Definition mutualFriends : WorldState :=
  worldOf [cloudAt 0 (0.6, 0.4) 7 0 0 5 floating [3%nat];
           cloudAt 0 (0.6, 0.4) 7 0 0 6 floating [2%nat]] [].


(** *** Relating the store before and after a pass *)

(** [h'] keeps every object of [h] at its address, changed at most as [rel]
    allows; [h'] may hold more objects than [h]. *)
Definition evolves (rel : CelestialObject -> CelestialObject -> Prop)
    (h h' : heap) : Prop :=
  (length h <= length h')%nat
  /\ forall a, (a < length h)%nat -> rel (h !!! a) (h' !!! a).

(** The part of an orbit that no pass changes but by the kinematics. *)
Definition orbitPath (o : CelestialObject) : option (R * addr * Shape) :=
  (fun ob => (orbit_rotation ob, orbit_target ob, orbit_shape ob)) <$> orbit o.

(** What the kinematics pass may change in an object: [location],
    [rotation] and [orbit.rotation]. *)
Definition moved (o o' : CelestialObject) : Prop :=
  shape o' = shape o /\ rotationalVelocity o' = rotationalVelocity o
  /\ mass o' = mass o /\ state o' = state o /\ friends o' = friends o
  /\ ((fun ob => (orbit_rotationalVelocity ob, orbit_target ob, orbit_shape ob))
        <$> orbit o')
     = ((fun ob => (orbit_rotationalVelocity ob, orbit_target ob, orbit_shape ob))
        <$> orbit o).

(** What the clustering step may change in an object: [friends] grows and
    [orbit.rotationalVelocity] is overwritten. *)
Definition clustered (o o' : CelestialObject) : Prop :=
  location o' = location o /\ rotation o' = rotation o
  /\ shape o' = shape o /\ rotationalVelocity o' = rotationalVelocity o
  /\ mass o' = mass o /\ state o' = state o
  /\ orbitPath o' = orbitPath o
  /\ friends o ⊆ friends o'.

(** What the second loop of [tickClouds] may change in an object: [mass]
    does not grow and [state] moves to [raining] only. *)
Definition rained (o o' : CelestialObject) : Prop :=
  location o' = location o /\ rotation o' = rotation o
  /\ shape o' = shape o /\ rotationalVelocity o' = rotationalVelocity o
  /\ orbit o' = orbit o /\ friends o' = friends o
  /\ mass o' <= mass o
  /\ (state o = raining -> state o' = raining).

(** *** The proximity test *)

Definition distance (h : heap) (cloud otherCloud : addr) : R :=
  vectorMath.magnitude
    (vectorMath.subtract (location (h !!! otherCloud)) (location (h !!! cloud))).

(** The test of line 356, as the code evaluates it for [cloud] and
    [otherCloud]: both minima are taken in the shape of [cloud]. *)
Definition near (h : heap) (cloud otherCloud : addr) : Prop :=
  exists axes,
    shape (h !!! cloud) = Ellipse axes
    /\ distance h cloud otherCloud
       < Rmin axes.1 axes.2 + Rmin axes.1 axes.2 / 4.

(** The test with the second minimum taken in the shape of [otherCloud]. *)
Definition nearOther (h : heap) (cloud otherCloud : addr) : Prop :=
  exists axes otherAxes,
    shape (h !!! cloud) = Ellipse axes
    /\ shape (h !!! otherCloud) = Ellipse otherAxes
    /\ distance h cloud otherCloud
       < Rmin axes.1 axes.2 + Rmin otherAxes.1 otherAxes.2 / 4.

(** Lines 360 to 362. *)
Definition befriend (cloud otherCloud : addr) (cloudOrbit' otherOrbit : Orbit)
    (h : heap) : heap :=
  alter (fun o => set_friends (Set_add otherCloud (friends o)) o) cloud
    (alter (fun o => set_friends (Set_add cloud (friends o)) o) otherCloud
       (alter (set_orbit (set_orbit_rotationalVelocity
                            (orbit_rotationalVelocity cloudOrbit') otherOrbit))
              otherCloud h)).

(** *** Worlds on which a tick cannot throw *)

(** A cloud as the type [Cloud] and the checks of [tickClouds] want it. *)
Definition cloudReady (h : heap) (cloud : addr) : Prop :=
  (cloud < length h)%nat
  /\ (exists axes, shape (h !!! cloud) = Ellipse axes)
  /\ (exists ob radius, orbit (h !!! cloud) = Some ob
                        /\ orbit_shape ob = Circle radius).

Definition wellFormed (w : WorldState) : Prop :=
  (planet w < length (store w))%nat
  /\ (exists radius, shape (store w !!! planet w) = Circle radius)
  /\ Forall (cloudReady (store w)) (clouds w).

(** Two clouds that [getCloudGroups] put into a common group. *)
Definition sharesGroup (cloudGroups : list (list addr)) (a b : addr) : Prop :=
  exists group, group ∈ cloudGroups /\ a ∈ group /\ b ∈ group.

(** What holds of the store throughout the clustering step that started from
    [h0], when only pairs related by [pairs] were compared: every friend is
    either an old one or a compared cloud that passed the proximity test. *)
Definition clusterInv (h0 : heap) (pairs : addr -> addr -> Prop) (h : heap) : Prop :=
  length h = length h0
  /\ (forall a, clustered (h0 !!! a) (h !!! a))
  /\ (forall a b, b ∈ friends (h !!! a) ->
        b ∈ friends (h0 !!! a)
        \/ (a <> b /\ pairs a b /\ (near h0 a b \/ near h0 b a))).

(** The group that [getCloudGroups] builds for one range. *)
Definition cloudGroup (h : heap) (clouds : list addr) (range : Vector2d)
    : list addr :=
  List.filter
    (fun cloud =>
       match orbit (h !!! cloud) with
       | Some ob => inCloudRange range (orbit_rotation ob)
       | None => false
       end)
    clouds.

(** What marking a cloud as raining may change in an object: [state], and
    only towards [raining]. *)
Definition wetted (o o' : CelestialObject) : Prop :=
  location o' = location o /\ rotation o' = rotation o
  /\ shape o' = shape o /\ rotationalVelocity o' = rotationalVelocity o
  /\ orbit o' = orbit o /\ friends o' = friends o
  /\ mass o' = mass o
  /\ (state o = raining -> state o' = raining).

(** The fields of the world that the cloud pass leaves alone. *)
Definition sameWorld (w w' : WorldState) : Prop :=
  planet w' = planet w /\ sun w' = sun w /\ lastTick w' = lastTick w
  /\ tick w' = tick w /\ ground w' = ground w.

(** A cloud as [createRandomCloud] returns it. *)
Definition freshCloud (o : CelestialObject) : Prop :=
  (exists axes, shape o = Ellipse axes)
  /\ (exists ob radius, orbit o = Some ob /\ orbit_shape ob = Circle radius)
  /\ state o = floating /\ mass o = 5 /\ friends o = [].

(** What holds throughout the second loop of [tickClouds] that started in
    the world [w0] with the random stream [g0]. *)
Definition loopInv (w0 : WorldState) (g0 : Rng) (st : CloudLoop) : Prop :=
  evolves rained (store w0) (store (loop_world st))
  /\ sameWorld w0 (loop_world st)
  /\ (exists emitted, rain (loop_world st) = rain w0 ++ emitted)
  /\ draws (loop_rng st) = draws g0
  /\ Forall (cloudReady (store (loop_world st))) (remainingClouds st)
  /\ (clouds (loop_world st) = remainingClouds st
      \/ clouds (loop_world st) = clouds w0).

(** What a whole tick may change in an object, as far as shape, friends,
    mass and state go. *)
Definition ticked (o o' : CelestialObject) : Prop :=
  shape o' = shape o /\ rotationalVelocity o' = rotationalVelocity o
  /\ friends o ⊆ friends o'
  /\ mass o' <= mass o
  /\ (state o = raining -> state o' = raining).

(** The elapsed world time of the tick at [now]. *)
Definition elapsedWorldTime (w : WorldState) (now : Z) : R :=
  IZR (now - lastTick w) * timePerMs.

(** Two clouds on opposite sides of the planet that are recorded as friends
    of each other. *)
Definition farFriends : WorldState :=
  worldOf [cloudAt 0 (0.6, 0.4) 7 0 0 5 floating [3%nat];
           cloudAt 0 (0.6, 0.4) 7 PI 0 5 floating [2%nat]] [].

(** The state in which the second loop of [tickClouds] starts during the
    tick at [now]: after the kinematics pass and the clustering step. *)
Definition cloudLoopStart (w : WorldState) (now : Z) (g : Rng) : result CloudLoop :=
  let h0 := tickCelestialObjects (things w) (elapsedWorldTime w now) (store w) in
  let! cloudGroups := getCloudGroups h0 (clouds w) in
  let! h1 := clusterClouds h0 cloudGroups in
  Ok (mkCloudLoop (set_store h1 (set_lastTick now w)) [] g).

(** A cloud of mass 31 and a lighter friend of it. *)
Definition heavyCloud : WorldState :=
  worldOf [cloudAt 0 (0.6, 0.4) 7 0 0 31 floating [3%nat];
           cloudAt 0 (0.6, 0.4) 7 PI 0 5 floating [2%nat]] [].

(** The location of [a] agrees with its orbit, if it has one. *)
Definition consistentAt (h : heap) (a : addr) : Prop :=
  match orbit (h !!! a) with
  | Some ob =>
      location (h !!! a)
      = vectorMath.add (orbitPoint (orbit_shape ob) (orbit_rotation ob))
                       (location (h !!! orbit_target ob))
  | None => True
  end.

(** One cloud and one rain particle above the surface. *)
Definition calmWorld : WorldState :=
  worldOf [cloudAt 0 (0.6, 0.4) 7 0 0 5 floating []] [mkRain (5, 0) (0, 0)].

(** Two clouds of different size, 0.67 apart on the same ray from the
    planet, with different orbital angular velocities. *)
Definition unequalClouds : WorldState :=
  worldOf [cloudAt 0 (0.6, 0.4) 7 0 0.004 5 floating [];
           cloudAt 0 (0.75, 0.55) 7.67 0 0.007 5 floating []] [].

(** A cloud as [createRandomCloud] places it around [planet]: on a circular
    orbit, at the point of the orbit's rotation. *)
Definition placedAround (planet : addr) (o : CelestialObject) : Prop :=
  freshCloud o
  /\ exists ob radius,
       orbit o = Some ob /\ orbit_target ob = planet
       /\ orbit_shape ob = Circle radius
       /\ location o
          = circleHelpers.calcRotationalPoint radius (orbit_rotation ob).

(** ** util.tsx *)

Module util.

(** The iterator that [range(start, stop)[Symbol.iterator]()] returns: the
    counter [i] and the bound [stop] of its closure.  The arguments are
    integers at every call of [range] in this program. *)
Record RangeIterator : Type := mkRangeIterator {
  range_i : Z;
  range_stop : Z
}.

(** [range(start, stop)[Symbol.iterator]()].  [stop = None] is the call with
    one argument, for which [stop] becomes [start] and [start] becomes 0. *)
Definition iterator (start : Z) (stop : option Z) : RangeIterator :=
  match stop with
  | None => mkRangeIterator (0 - 1) start
  | Some stop => mkRangeIterator (start - 1) stop
  end.

(** [next()]: the value, or [None] for [{done: true}], with the iterator
    after the call.  [!stop] holds of the number 0. *)
Definition next (it : RangeIterator) : result (option Z * RangeIterator) :=
  let i := (range_i it + 1)%Z in
  if (range_stop it =? 0)%Z then Throw "Impossible"
  else if (i <? range_stop it)%Z
       then Ok (Some i, mkRangeIterator i (range_stop it))
       else Ok (None, mkRangeIterator i (range_stop it)).

(** The loop of [Array.from]: [next()] is called until it reports [done].
    [fuel] bounds the number of calls; [range] passes a bound that the loop
    never reaches, so that the first case below plays no part. *)
Fixpoint drain (fuel : nat) (it : RangeIterator) : result (list Z) :=
  match fuel with
  | O => Throw "out of fuel"
  | S fuel =>
      let! step := next it in
      match step with
      | (Some value, it) => let! values := drain fuel it in Ok (value :: values)
      | (None, _) => Ok []
      end
  end.

(** [Array.from(range(start, stop))].  The iterator reports [done] after at
    most [stop - i] calls of [next()]. *)
Definition range (start : Z) (stop : option Z) : result (list Z) :=
  let it := iterator start stop in
  drain (S (Z.to_nat (range_stop it - range_i it))) it.

(** [Number.isInteger]. *)
Definition isInteger (x : R) : bool :=
  if Req_dec_T (IZR (Int_part x)) x then true else false.

(** The two divisions by 2 are exact: [i] is even in the first branch and
    odd in the second. *)
Definition doubleFactorial (i : R) : result Z :=
  if negb (isInteger i) then Throw "Non-integer passed to doubleFactorial"
  else
    let i := Int_part i in
    if (Z.rem i 2 =? 0)%Z then
      let! values := range (i / 2 + 1) None in
      Ok (fold_left (fun prev curr => prev * curr * 2)%Z values 1%Z)
    else
      let! values := range ((i + 1) / 2 + 1) None in
      Ok (fold_left (fun prev curr => prev * (curr * 2 - 1))%Z values 1%Z).

End util.

(** [ellipseHelpers.circumference] of geometry.tsx; the default value of
    [precision] is 1000. *)
Definition circumference (s : EllipseShape) (precision : Z) : result R :=
  let '(a, b) := s in
  let! values := util.range 1 (Some (precision + 1)%Z) in
  let thing := fold_left (fun prev curr => prev * (2 * curr - 1))%Z values 1%Z in
  Ok (PI * (a + b) * (1 + IZR thing)).

(** The product of the first [n] odd numbers, [(2 n - 1)!!]. *)
Fixpoint oddProduct (n : nat) : Z :=
  match n with
  | O => 1
  | S n' => (oddProduct n' * (2 * Z.of_nat n - 1))%Z
  end.

(** ** Plants (world.tsx, tickWorld.tsx)

    [WorldState.plants] is kept beside the record [WorldState]: the functions
    below take the world and the plants they work on.  A point of an extent
    is [None] when it is the non-finite pair that [vectorMath.unitVector]
    yields for the zero vector; every operation on it yields it again. *)

Definition Extent : Type := option Vector2d * option Vector2d.

(** [Array.prototype.map] on the two points of an extent. *)
Definition mapExtent (f : Vector2d -> option Vector2d) (extent : Extent) : Extent :=
  (extent.1 ≫= f, extent.2 ≫= f).

#[warnings="-register-all"] Inductive PlantPart : Type :=
  mkPlantPart (extent : Extent) (children : list PlantPart) (depth : R)
              (lastGrowths : list (Vector2d * Vector2d)).

Definition extent (part : PlantPart) : Extent :=
  let 'mkPlantPart extent _ _ _ := part in extent.
Definition children (part : PlantPart) : list PlantPart :=
  let 'mkPlantPart _ children _ _ := part in children.
Definition depth (part : PlantPart) : R :=
  let 'mkPlantPart _ _ depth _ := part in depth.
Definition lastGrowths (part : PlantPart) : list (Vector2d * Vector2d) :=
  let 'mkPlantPart _ _ _ lastGrowths := part in lastGrowths.

Record Plant : Type := mkPlant {
  plant_rotation : R;
  trunk : PlantPart
}.

(** [createPlant] leaves [lastGrowths] out of the object it builds. *)
Definition createPlant : Plant :=
  {| plant_rotation := PI / 4;
     trunk := mkPlantPart (Some (0, 1), Some (0, 2)) [] 0 [] |}.

Definition mapPlantCoordinateToGlobal (w : WorldState) (plant : Plant)
    (extent : Extent) : result Extent :=
  match shape (store w !!! planet w) with
  | Ellipse _ => Throw EmptyString
  | Circle planetShape =>
      let plantRootLocation :=
        circleHelpers.calcRotationalPoint planetShape
          (rotation (store w !!! planet w) + plant_rotation plant) in
      Ok (mapExtent (fun p => Some (vectorMath.add p plantRootLocation))
            (mapExtent
               (fun p => Some (vectorMath.rotate p
                   (rotation (store w !!! planet w) + plant_rotation plant
                    - PI / 2)))
               extent))
  end.

Definition mapGlobalCoordinateToPlant (w : WorldState) (plant : Plant)
    (extent : Extent) : result Extent :=
  match shape (store w !!! planet w) with
  | Ellipse _ => Throw EmptyString
  | Circle planetShape =>
      let plantRootLocation :=
        circleHelpers.calcRotationalPoint planetShape
          (rotation (store w !!! planet w) + plant_rotation plant) in
      Ok (mapExtent
            (fun p => Some (vectorMath.rotate p
                (- (rotation (store w !!! planet w) + plant_rotation plant)
                 + PI / 2)))
            (mapExtent (fun p => Some (vectorMath.subtract p plantRootLocation))
               extent))
  end.

Definition constraintRadian (radian : R) : R := Rrem radian (PI * 2).

(** The callback of the [map] in [tickPlant]: the point [p], moved towards
    the sun. *)
Definition grow (sun : CelestialObject) (elapsedWorldTime : R) (p : Vector2d)
    : option Vector2d :=
  (fun direction =>
     let growth := vectorMath.multiply direction (0.005 * elapsedWorldTime) in
     let grown := vectorMath.add p growth in
     grown)
  <$> vectorMath.unitVector (vectorMath.subtract (location sun) p).

(** [tickPlant] returns the part as the call leaves it.  [sun.orbit] is read
    as [cloud.orbit] is: it throws when the sun has no orbit. *)
Fixpoint tickPlant (w : WorldState) (plant : Plant) (plantPart : PlantPart)
    (elapsedWorldTime : R) {struct plantPart} : result PlantPart :=
  let! sunOrbit := cloudOrbit (store w) (sun w) in
  let rotationalDistance :=
    Rabs (constraintRadian (orbit_rotation sunOrbit)
          - constraintRadian (rotation (store w !!! planet w)
                              + plant_rotation plant)) in
  if Rgtb rotationalDistance (PI / 2) then Ok plantPart
  else
    match plantPart with
    | mkPlantPart extent children depth lastGrowths =>
        let! children :=
          (fix tickChildren (parts : list PlantPart) : result (list PlantPart) :=
             match parts with
             | [] => Ok []
             | childPart :: parts =>
                 let! childPart := tickPlant w plant childPart elapsedWorldTime in
                 let! parts := tickChildren parts in
                 Ok (childPart :: parts)
             end) children in
        let! global := mapPlantCoordinateToGlobal w plant extent in
        let! extent :=
          mapGlobalCoordinateToPlant w plant
            (mapExtent (grow (store w !!! sun w) elapsedWorldTime) global) in
        Ok (mkPlantPart extent children depth lastGrowths)
    end.

(** The loop of [tickPlants], over the plants given. *)
Fixpoint tickPlants (w : WorldState) (plants : list Plant) (elapsedWorldTime : R)
    : result (list Plant) :=
  match plants with
  | [] => Ok []
  | plant :: plants =>
      let! trunk := tickPlant w plant (trunk plant) elapsedWorldTime in
      let! plants := tickPlants w plants elapsedWorldTime in
      Ok (mkPlant (plant_rotation plant) trunk :: plants)
  end.

(** *** Auxiliary definitions for the statements about plants *)

(** The loop over [plantPart.children] in [tickPlant]. *)
Definition tickChildren (w : WorldState) (plant : Plant) (elapsedWorldTime : R)
    : list PlantPart -> result (list PlantPart) :=
  fix tickChildren (parts : list PlantPart) : result (list PlantPart) :=
    match parts with
    | [] => Ok []
    | childPart :: parts =>
        let! childPart := tickPlant w plant childPart elapsedWorldTime in
        let! parts := tickChildren parts in
        Ok (childPart :: parts)
    end.

(** The angle at which the plant stands on the planet. *)
Definition plantAngle (w : WorldState) (plant : Plant) : R :=
  rotation (store w !!! planet w) + plant_rotation plant.

(** [rotationalDistance] of [tickPlant], for the orbit of the sun. *)
Definition rotationalDistance (w : WorldState) (plant : Plant) (sunOrbit : Orbit)
    : R :=
  Rabs (constraintRadian (orbit_rotation sunOrbit)
        - constraintRadian (rotation (store w !!! planet w)
                            + plant_rotation plant)).

(** The part without its extents: what is left are the children, [depth]
    and [lastGrowths] of every node. *)
Fixpoint eraseExtents (part : PlantPart) : PlantPart :=
  let 'mkPlantPart _ children depth lastGrowths := part in
  mkPlantPart (None, None) (map eraseExtents children) depth lastGrowths.

(** The extents of all the nodes of a part. *)
Fixpoint extents (part : PlantPart) : list Extent :=
  let 'mkPlantPart extent children _ _ := part in
  extent :: flat_map extents children.

(** Both points of the extent are finite and, in global coordinates, away
    from the centre of the sun. *)
Definition awayFromSun (w : WorldState) (plant : Plant) (extent : Extent) : Prop :=
  exists g1 g2,
    mapPlantCoordinateToGlobal w plant extent = Ok (Some g1, Some g2)
    /\ g1 <> location (store w !!! sun w)
    /\ g2 <> location (store w !!! sun w).

(** *** Further example worlds *)

(** Two clouds less than a fifth of [PI] apart on their orbits. *)
Definition neighbourClouds : WorldState :=
  worldOf [cloudAt 0 (0.6, 0.4) 7 0.1 0.004 5 floating [];
           cloudAt 0 (0.6, 0.4) 7 0.5 0.004 5 floating []] [].

(** Two clouds on clockwise orbits, whose orbit rotations are negative. *)
Definition clockwiseClouds : WorldState :=
  worldOf [cloudAt 0 (0.6, 0.4) 7 (-1) (-0.004) 5 floating [];
           cloudAt 0 (0.6, 0.4) 7 (-4) (-0.004) 5 floating []] [].

(** *** Friendship as a relation *)

(** Friendship in the store is symmetric, relates no object to itself and
    refers to objects of the store only. *)
Definition friendly (h : heap) : Prop :=
  forall a b, b ∈ friends (h !!! a) ->
    a <> b /\ (b < length h)%nat /\ a ∈ friends (h !!! b).

(** [sum] of the masses of all the objects of the store. *)
Definition totalMass (h : heap) : R := sum (map mass h).

(** *** Clouds as [createRandomCloud] draws them *)

(** A cloud that [createRandomCloud] can return for the planet at address
    [planet], of radius [planetShape], in the store [h], when every random
    draw lies in the interval from 0 to 1 that [Math.random] promises. *)
Definition spawnedAround (h : heap) (planet : addr) (planetShape : R)
    (cloud : CelestialObject) : Prop :=
  exists ob orbitalRadius a b,
    orbit cloud = Some ob /\ orbit_target ob = planet
    /\ orbit_shape ob = Circle orbitalRadius
    /\ planetShape * 2 + 1 <= orbitalRadius < planetShape * 2 + 2
    /\ 0 <= orbit_rotation ob < PI * 2
    /\ location cloud
       = circleHelpers.calcRotationalPoint orbitalRadius (orbit_rotation ob)
    /\ 2 * PI / 1500 < Rabs (orbit_rotationalVelocity ob) <= 2 * PI / 800
    /\ (0 < orbit_rotationalVelocity ob <-> 0 < rotationalVelocity (h !!! planet))
    /\ shape cloud = Ellipse (a, b)
    /\ 0.6 <= a < 0.8 /\ 0.4 <= b < 0.6
    /\ mass cloud = 5 /\ state cloud = floating /\ friends cloud = []
    /\ rotation cloud = 0 /\ rotationalVelocity cloud = 0.


(** * Properties *)

(** ** Comparisons *)

Lemma Rltb_true x y : x < y -> Rltb x y = true.
Proof. intros H. unfold Rltb. destruct (Rlt_dec x y); [reflexivity | contradiction]. Qed.

Lemma Rltb_false x y : y <= x -> Rltb x y = false.
Proof. intros H. unfold Rltb. destruct (Rlt_dec x y); [lra | reflexivity]. Qed.

(** ** Vector algebra *)

Section VectorAlgebra.
Import vectorMath.

Lemma magnitude_nonneg (a : Vector2d) : 0 <= magnitude a.
Proof. apply sqrt_pos. Qed.

Lemma magnitude_zero_iff (a : Vector2d) : magnitude a = 0 <-> a = (0, 0).
Proof.
  destruct a as [x y]. unfold magnitude. cbn [fst snd]. split.
  - intros H. apply sqrt_eq_0 in H; [| nra].
    assert (x = 0) by nra. assert (y = 0) by nra. congruence.
  - intros [= -> ->]. replace (0 ^ 2 + 0 ^ 2) with 0 by ring. apply sqrt_0.
Qed.

Lemma magnitude_multiply (v : Vector2d) (b : R) :
  0 <= b -> magnitude (multiply v b) = magnitude v * b.
Proof.
  intros Hb. destruct v as [x y]. unfold magnitude, multiply. cbn [fst snd].
  replace ((x * b) ^ 2 + (y * b) ^ 2) with ((x ^ 2 + y ^ 2) * (b * b)) by ring.
  rewrite sqrt_mult_alt by nra. rewrite (sqrt_square b Hb). reflexivity.
Qed.

Lemma unitVector_Some (a : Vector2d) :
  magnitude a <> 0 ->
  unitVector a = Some (a.1 / magnitude a, a.2 / magnitude a).
Proof.
  intros H. unfold unitVector, divide. destruct a as [x y].
  destruct (Req_dec_T (magnitude (x, y)) 0); [contradiction | reflexivity].
Qed.

Lemma unitVector_None (a : Vector2d) : magnitude a = 0 -> unitVector a = None.
Proof.
  intros H. unfold unitVector, divide. destruct a as [x y].
  destruct (Req_dec_T (magnitude (x, y)) 0); [reflexivity | contradiction].
Qed.

Lemma magnitude_unitVector (a u : Vector2d) :
  unitVector a = Some u -> magnitude u = 1.
Proof.
  intros H. destruct (Req_dec_T (magnitude a) 0) as [E | E].
  - rewrite (unitVector_None a E) in H. discriminate.
  - rewrite (unitVector_Some a E) in H. injection H as <-.
    pose proof (magnitude_nonneg a) as Hn.
    assert (Hm : 0 < magnitude a) by lra.
    destruct a as [x y]. cbn [fst snd]. unfold magnitude at 1. cbn [fst snd].
    replace ((x / magnitude (x, y)) ^ 2 + (y / magnitude (x, y)) ^ 2)
      with ((x ^ 2 + y ^ 2) / (magnitude (x, y) * magnitude (x, y)))
      by (field; lra).
    unfold magnitude. cbn [fst snd]. rewrite sqrt_sqrt by nra.
    assert (Hp : x ^ 2 + y ^ 2 <> 0).
    { intros Hz. unfold magnitude in E. cbn [fst snd] in E. rewrite Hz in E.
      now rewrite sqrt_0 in E. }
    replace ((x ^ 2 + y ^ 2) / (x ^ 2 + y ^ 2)) with 1 by (field; exact Hp).
    apply sqrt_1.
Qed.

Lemma clipMagnitude_below (a : Vector2d) (m : R) :
  magnitude a <= m -> clipMagnitude a m = Some a.
Proof.
  intros H. unfold clipMagnitude, Rgtb. now rewrite Rltb_false.
Qed.

Lemma clipMagnitude_above (a : Vector2d) (m : R) :
  m < magnitude a ->
  clipMagnitude a m = (fun u => multiply u m) <$> unitVector a.
Proof.
  intros H. unfold clipMagnitude, Rgtb. now rewrite Rltb_true.
Qed.

End VectorAlgebra.

(** C8.  For a positive bound [m], [clipMagnitude v m] is a finite vector of
    magnitude at most [m]: it is [v] itself when [magnitude v <= m], and
    [unitVector v] scaled by [m] otherwise. *)
Theorem clipMagnitude_spec (v : Vector2d) (m : R) :
  0 < m ->
  exists w,
    vectorMath.clipMagnitude v m = Some w
    /\ vectorMath.magnitude w <= m
    /\ (vectorMath.magnitude v <= m -> w = v)
    /\ (m < vectorMath.magnitude v ->
        exists u, vectorMath.unitVector v = Some u
                  /\ w = vectorMath.multiply u m).
Proof.
  intros Hm.
  destruct (Rle_lt_dec (vectorMath.magnitude v) m) as [Hle | Hgt].
  - exists v. rewrite clipMagnitude_below by exact Hle.
    repeat split; [exact Hle | lra].
  - assert (Hne : vectorMath.magnitude v <> 0) by lra.
    rewrite clipMagnitude_above by exact Hgt.
    rewrite (unitVector_Some v Hne). cbn [fmap option_fmap option_map].
    eexists. split; [reflexivity |].
    pose proof (magnitude_unitVector v _ (unitVector_Some v Hne)) as Hu.
    repeat split.
    + rewrite magnitude_multiply by lra. rewrite Hu. lra.
    + lra.
    + intros _. eexists. split; reflexivity.
Qed.

(** The bound of C8 at [v = (3, 4)], [m = 1]. *)
Lemma clipMagnitude_spec_witness :
  0 < 1 /\
  exists w,
    vectorMath.clipMagnitude (3, 4) 1 = Some w
    /\ vectorMath.magnitude w <= 1
    /\ (vectorMath.magnitude (3, 4) <= 1 -> w = (3, 4))
    /\ (1 < vectorMath.magnitude (3, 4) ->
        exists u, vectorMath.unitVector (3, 4) = Some u
                  /\ w = vectorMath.multiply u 1).
Proof. split; [lra | apply (clipMagnitude_spec (3, 4) 1); lra]. Defined.

(** ** The remainder operator *)

Section Remainder.

Lemma Rtrunc_bounds_nonneg (q : R) :
  0 <= q -> IZR (Rtrunc q) <= q < IZR (Rtrunc q) + 1.
Proof.
  intros Hq. unfold Rtrunc. destruct (Rle_dec 0 q); [| lra].
  destruct (base_Int_part q). lra.
Qed.

Lemma Rtrunc_bounds_nonpos (q : R) :
  q <= 0 -> IZR (Rtrunc q) - 1 < q <= IZR (Rtrunc q).
Proof.
  intros Hq. unfold Rtrunc. destruct (Rle_dec 0 q) as [H0 | H0].
  - assert (q = 0) by lra. subst q.
    replace (Int_part 0) with 0%Z; [simpl; lra |].
    apply Int_part_spec. simpl. lra.
  - rewrite opp_IZR. destruct (base_Int_part (- q)). lra.
Qed.

Lemma Rrem_nonneg (x y : R) : 0 < y -> 0 <= x -> 0 <= Rrem x y < y.
Proof.
  intros Hy Hx. unfold Rrem.
  assert (Hq : 0 <= x / y) by (apply Rle_mult_inv_pos; lra).
  destruct (Rtrunc_bounds_nonneg _ Hq) as [H1 H2].
  assert (Hxy : x = y * (x / y)) by (field; lra).
  set (q := x / y) in *. set (k := IZR (Rtrunc q)) in *.
  split; nra.
Qed.

Lemma Rrem_nonpos (x y : R) : 0 < y -> x <= 0 -> - y < Rrem x y <= 0.
Proof.
  intros Hy Hx. unfold Rrem.
  assert (Hq : x / y <= 0).
  { unfold Rdiv. assert (0 < / y) by (apply Rinv_0_lt_compat; lra). nra. }
  destruct (Rtrunc_bounds_nonpos _ Hq) as [H1 H2].
  assert (Hxy : x = y * (x / y)) by (field; lra).
  set (q := x / y) in *. set (k := IZR (Rtrunc q)) in *.
  split; nra.
Qed.

(** A strictly negative dividend above [- y] is its own remainder. *)
Lemma Rrem_small_neg (x y : R) : 0 < y -> - y < x <= 0 -> Rrem x y = x.
Proof.
  intros Hy Hx. unfold Rrem.
  assert (Hq : - 1 < x / y <= 0).
  { assert (Hxy : x = y * (x / y)) by (field; lra).
    split; [| unfold Rdiv; assert (0 < / y) by (apply Rinv_0_lt_compat; lra); nra].
    destruct (Rlt_le_dec (-1) (x / y)); [assumption | nra]. }
  destruct (Rtrunc_bounds_nonpos (x / y)) as [H1 H2]; [lra |].
  assert (Hk : Rtrunc (x / y) = 0%Z).
  { assert (-1 < IZR (Rtrunc (x / y)) < 1) as [Ha Hb] by lra.
    apply lt_IZR in Ha, Hb. lia. }
  rewrite Hk. simpl. lra.
Qed.

Lemma Rrem_small_nonneg (x y : R) : 0 <= x < y -> Rrem x y = x.
Proof.
  intros Hx. unfold Rrem.
  assert (Hy : 0 < y) by lra.
  assert (Hq : 0 <= x / y < 1).
  { assert (Hxy : x = y * (x / y)) by (field; lra).
    split; [apply Rle_mult_inv_pos; lra |].
    destruct (Rlt_le_dec (x / y) 1); [assumption | nra]. }
  destruct (Rtrunc_bounds_nonneg (x / y)) as [H1 H2]; [lra |].
  assert (Hk : Rtrunc (x / y) = 0%Z).
  { assert (-1 < IZR (Rtrunc (x / y)) < 1) as [Ha Hb] by lra.
    apply lt_IZR in Ha, Hb. lia. }
  rewrite Hk. simpl. lra.
Qed.

Lemma cos_period_Z (x : R) (k : Z) : cos (x + 2 * IZR k * PI) = cos x.
Proof.
  destruct (Z_le_gt_dec 0 k) as [Hk | Hk].
  - rewrite <- (Z2Nat.id k Hk), <- INR_IZR_INZ. apply cos_period.
  - rewrite <- (cos_period (x + 2 * IZR k * PI) (Z.to_nat (- k))).
    rewrite INR_IZR_INZ, Z2Nat.id by lia. rewrite opp_IZR. f_equal. ring.
Qed.

Lemma sin_period_Z (x : R) (k : Z) : sin (x + 2 * IZR k * PI) = sin x.
Proof.
  destruct (Z_le_gt_dec 0 k) as [Hk | Hk].
  - rewrite <- (Z2Nat.id k Hk), <- INR_IZR_INZ. apply sin_period.
  - rewrite <- (sin_period (x + 2 * IZR k * PI) (Z.to_nat (- k))).
    rewrite INR_IZR_INZ, Z2Nat.id by lia. rewrite opp_IZR. f_equal. ring.
Qed.

Lemma cos_Rrem (x : R) : cos (Rrem x (PI * 2)) = cos x.
Proof.
  unfold Rrem. rewrite <- (cos_period_Z x (- Rtrunc (x / (PI * 2)))).
  rewrite opp_IZR. f_equal. ring.
Qed.

Lemma sin_Rrem (x : R) : sin (Rrem x (PI * 2)) = sin x.
Proof.
  unfold Rrem. rewrite <- (sin_period_Z x (- Rtrunc (x / (PI * 2)))).
  rewrite opp_IZR. f_equal. ring.
Qed.

End Remainder.

(** ** Loops *)

Section Loops.
Context {S A : Type}.
Implicit Types (body : S -> A -> result S) (l : list A) (s : S).

Lemma forOf_app body l1 l2 s :
  forOf body s (l1 ++ l2) = let! s' := forOf body s l1 in forOf body s' l2.
Proof.
  revert s. induction l1 as [| x l1 IH]; intros s; simpl; [reflexivity |].
  destruct (body s x); simpl; [apply IH | reflexivity].
Qed.

(** A property that every iteration preserves holds when the loop ends. *)
Lemma forOf_invariant (P : S -> Prop) body l s s' :
  (forall s x s', x ∈ l -> P s -> body s x = Ok s' -> P s') ->
  P s -> forOf body s l = Ok s' -> P s'.
Proof.
  revert s. induction l as [| x l IH]; intros s Hstep Hs Hrun; simpl in Hrun.
  - now injection Hrun as <-.
  - destruct (body s x) as [s1 |] eqn:E; simpl in Hrun; [| discriminate].
    apply (IH s1); [| | assumption].
    + intros s2 y s3 Hy. apply Hstep. now apply list_elem_of_further.
    + apply (Hstep s x); [apply list_elem_of_here | assumption..].
Qed.

(** A loop whose iterations cannot throw from states satisfying an
    invariant runs to its end. *)
Lemma forOf_total (P : S -> Prop) body l s :
  (forall s x, x ∈ l -> P s -> exists s', body s x = Ok s' /\ P s') ->
  P s -> exists s', forOf body s l = Ok s' /\ P s'.
Proof.
  revert s. induction l as [| x l IH]; intros s Hstep Hs; simpl.
  - now exists s.
  - destruct (Hstep s x (list_elem_of_here _ _) Hs) as (s1 & -> & Hs1). simpl.
    apply IH; [| assumption].
    intros s2 y Hy. apply Hstep. now apply list_elem_of_further.
Qed.

(** The state from which the iteration for a given element starts. *)
Lemma forOf_split body l1 x l2 s s' :
  forOf body s (l1 ++ x :: l2) = Ok s' ->
  exists s1 s2, forOf body s l1 = Ok s1 /\ body s1 x = Ok s2
                /\ forOf body s2 l2 = Ok s'.
Proof.
  rewrite forOf_app. destruct (forOf body s l1) as [s1 |]; simpl; [| discriminate].
  destruct (body s1 x) as [s2 |] eqn:E; simpl; [| discriminate].
  intros H. now exists s1, s2.
Qed.

Lemma forOf_at body l x s s' :
  x ∈ l -> forOf body s l = Ok s' ->
  exists l1 l2 s1 s2,
    l = l1 ++ x :: l2 /\ forOf body s l1 = Ok s1 /\ body s1 x = Ok s2
    /\ forOf body s2 l2 = Ok s'.
Proof.
  intros Hx Hrun. apply list_elem_of_split in Hx as (l1 & l2 & ->).
  apply forOf_split in Hrun as (s1 & s2 & H1 & H2 & H3).
  now exists l1, l2, s1, s2.
Qed.

End Loops.

(** ** Stores and worlds *)

Lemma set_store_store (w : WorldState) : set_store (store w) w = w.
Proof. now destruct w. Qed.

Lemma set_clouds_clouds (w : WorldState) : set_clouds (clouds w) w = w.
Proof. now destruct w. Qed.

(** ** The kinematics pass *)

Lemma length_tickCelestialObject (dt : R) (h : heap) (a : addr) :
  length (tickCelestialObject dt h a) = length h.
Proof.
  unfold tickCelestialObject.
  match goal with |- context [match ?x with _ => _ end] => destruct x end;
    now rewrite ?length_alter.
Qed.

Lemma length_tickCelestialObjects (l : list addr) (dt : R) (h : heap) :
  length (tickCelestialObjects l dt h) = length h.
Proof.
  unfold tickCelestialObjects. revert h.
  induction l as [| a l IH]; intros h; simpl; [reflexivity |].
  now rewrite IH, length_tickCelestialObject.
Qed.

Lemma tickCelestialObject_other (dt : R) (h : heap) (a b : addr) :
  a ≠ b -> tickCelestialObject dt h a !!! b = h !!! b.
Proof.
  intros Hab. unfold tickCelestialObject.
  match goal with |- context [match ?x with _ => _ end] => destruct x end;
    now rewrite ?list_lookup_total_alter_ne by exact Hab.
Qed.

Lemma tickCelestialObject_self (dt : R) (h : heap) (a : addr) :
  (a < length h)%nat ->
  tickCelestialObject dt h a !!! a = tickedObject dt h (h !!! a).
Proof.
  intros Ha. unfold tickCelestialObject, tickedObject.
  rewrite (list_lookup_total_alter_eq _ h a Ha). cbn [orbit set_rotation].
  destruct (orbit (h !!! a)) as [ob |];
    [| rewrite list_lookup_total_alter_eq by exact Ha; reflexivity].
  rewrite !list_lookup_total_alter_eq by now rewrite ?length_alter.
  do 2 f_equal.
  destruct (decide (a = orbit_target ob)) as [<- | Hne].
  - now rewrite !list_lookup_total_alter_eq by now rewrite ?length_alter.
  - now rewrite !list_lookup_total_alter_ne by exact Hne.
Qed.

Lemma tickCelestialObject_out_of_range (dt : R) (h : heap) (a : addr) :
  (length h <= a)%nat -> tickCelestialObject dt h a = h.
Proof.
  intros Ha.
  assert (Hal : forall f (l : heap), length l = length h -> alter f a l = l).
  { intros f l Hl. apply list_eq. intros i. rewrite list_lookup_alter.
    case_decide; [subst i | reflexivity].
    rewrite (lookup_ge_None_2 l a) by lia. reflexivity. }
  unfold tickCelestialObject. rewrite (Hal _ h eq_refl).
  destruct (orbit (h !!! a)); [| reflexivity].
  now rewrite !Hal by now rewrite ?Hal.
Qed.

Section Kinematics.
Variable dt : R.

Lemma tickedObject_orbit_None (h : heap) (o : CelestialObject) :
  orbit o = None ->
  orbit (tickedObject dt h o) = None
  /\ location (tickedObject dt h o) = location o.
Proof. intros H. unfold tickedObject. now rewrite H. Qed.

Lemma tickCelestialObject_root (h : heap) (b t : addr) :
  orbit (h !!! t) = None ->
  orbit (tickCelestialObject dt h b !!! t) = None
  /\ location (tickCelestialObject dt h b !!! t) = location (h !!! t).
Proof.
  intros Ht. destruct (decide (b = t)) as [-> | Hne].
  - destruct (le_lt_dec (length h) t) as [Hout | Hin].
    + now rewrite tickCelestialObject_out_of_range.
    + rewrite tickCelestialObject_self by exact Hin.
      now apply tickedObject_orbit_None.
  - now rewrite tickCelestialObject_other.
Qed.

Lemma tickCelestialObject_anchors (h : heap) (a t : addr) :
  (a < length h)%nat -> orbitsAround h a t -> orbit (h !!! t) = None ->
  anchored (tickCelestialObject dt h a) a t.
Proof.
  intros Ha (ob & Hob & Htarget) Ht.
  destruct (tickCelestialObject_root h a t Ht) as [_ Hloc].
  unfold anchored. rewrite Hloc, tickCelestialObject_self by exact Ha.
  unfold tickedObject. rewrite Hob. eexists. split; [reflexivity |].
  cbn. rewrite Htarget. split; reflexivity.
Qed.

Lemma tickCelestialObject_orbitsAround (h : heap) (a b t : addr) :
  orbitsAround h a t -> orbitsAround (tickCelestialObject dt h b) a t.
Proof.
  intros (ob & Hob & Htarget). destruct (decide (b = a)) as [-> | Hne].
  - destruct (le_lt_dec (length h) a) as [Hout | Hin].
    + rewrite tickCelestialObject_out_of_range by exact Hout. now exists ob.
    + unfold orbitsAround. rewrite tickCelestialObject_self by exact Hin.
      unfold tickedObject. rewrite Hob. eexists. split; [reflexivity | exact Htarget].
  - unfold orbitsAround. rewrite tickCelestialObject_other by exact Hne.
    now exists ob.
Qed.

Lemma tickCelestialObject_anchored (h : heap) (a b t : addr) :
  (a < length h)%nat -> orbit (h !!! t) = None ->
  anchored h a t -> anchored (tickCelestialObject dt h b) a t.
Proof.
  intros Ha Ht (ob & Hob & Htarget & Hloc).
  destruct (decide (b = a)) as [-> | Hne].
  - apply tickCelestialObject_anchors; [exact Ha | now exists ob | exact Ht].
  - destruct (tickCelestialObject_root h b t Ht) as [_ Hlt].
    unfold anchored. rewrite Hlt, tickCelestialObject_other by exact Hne.
    now exists ob.
Qed.

Lemma tickCelestialObjects_root (l : list addr) (h : heap) (t : addr) :
  orbit (h !!! t) = None ->
  orbit (tickCelestialObjects l dt h !!! t) = None
  /\ location (tickCelestialObjects l dt h !!! t) = location (h !!! t).
Proof.
  unfold tickCelestialObjects. revert h.
  induction l as [| b l IH]; intros h Ht; cbn [fold_left]; [now split |].
  destruct (tickCelestialObject_root h b t Ht) as [Ho Hl].
  destruct (IH _ Ho) as [Ho' Hl']. split; [exact Ho' | congruence].
Qed.

Lemma tickCelestialObjects_anchored (l : list addr) (h : heap) (a t : addr) :
  (a < length h)%nat -> orbit (h !!! t) = None ->
  orbitsAround h a t -> anchored h a t \/ a ∈ l ->
  anchored (tickCelestialObjects l dt h) a t.
Proof.
  unfold tickCelestialObjects. revert h.
  induction l as [| b l IH]; intros h Ha Ht Horb Hcase; cbn [fold_left].
  - destruct Hcase as [H | H]; [exact H | now apply elem_of_nil in H].
  - destruct (tickCelestialObject_root h b t Ht) as [Ho _].
    apply IH.
    + now rewrite length_tickCelestialObject.
    + exact Ho.
    + now apply tickCelestialObject_orbitsAround.
    + destruct Hcase as [H | H].
      * left. now apply tickCelestialObject_anchored.
      * apply elem_of_cons in H as [-> | H]; [left | now right].
        now apply tickCelestialObject_anchors.
Qed.

End Kinematics.

(** ** The cloud pass without clouds *)

Lemma getCloudGroup_nil (h : heap) (range : Vector2d) :
  getCloudGroup h [] range = Ok [].
Proof. reflexivity. Qed.

Lemma clusterGroup_nil (h : heap) : clusterGroup h [] = Ok h.
Proof. reflexivity. Qed.

Lemma getCloudGroups_nil_from (h : heap) (ranges : list Vector2d)
    (acc : list (list addr)) :
  forOf (fun cloudGroups range =>
           let! group := getCloudGroup h [] range in
           Ok (cloudGroups ++ [group]))
        acc ranges
  = Ok (acc ++ map (fun _ => []) ranges).
Proof.
  revert acc. induction ranges as [| r rs IH]; intros acc; simpl.
  - now rewrite app_nil_r.
  - rewrite IH. now rewrite <- app_assoc.
Qed.

Lemma getCloudGroups_nil (h : heap) :
  getCloudGroups h [] = Ok (map (fun _ => []) cloudRanges).
Proof. unfold getCloudGroups. now rewrite getCloudGroups_nil_from. Qed.

Lemma clusterClouds_nil_groups (h : heap) (ranges : list Vector2d) :
  clusterClouds h (map (fun _ => []) ranges) = Ok h.
Proof. induction ranges as [| r rs IH]; simpl; [reflexivity | exact IH]. Qed.

Lemma tickClouds_nil (w : WorldState) (elapsedWorldTime : R) (g : Rng) :
  tickClouds [] w elapsedWorldTime g = Ok (w, g).
Proof.
  unfold tickClouds. rewrite getCloudGroups_nil. cbn [bind].
  rewrite clusterClouds_nil_groups. cbn [bind forOf loop_world loop_rng].
  now rewrite set_store_store.
Qed.

(** A tick of a world without clouds: the kinematics pass over sun and
    planet, then the rain pass; no random number is drawn. *)
Lemma tickWorld_no_clouds (w : WorldState) (now : Z) (g : Rng) :
  clouds w = [] ->
  tickWorld w now g =
    Ok (tickRain
          (set_store
             (tickCelestialObjects [sun w; planet w]
                (IZR (now - lastTick w) * timePerMs) (store w))
             (set_lastTick now w))
          (IZR (now - lastTick w) * timePerMs), g).
Proof.
  intros Hc. unfold tickWorld, things. simpl. rewrite Hc.
  now rewrite tickClouds_nil.
Qed.

(** C10.  A world without clouds stays without clouds through every later
    tick: each tick completes, creates no object and draws no random number,
    because the spawn check sits in the body of the loop over the clouds. *)
Theorem empty_clouds_preserved (w : WorldState) (nows : list Z) (g : Rng) :
  clouds w = [] ->
  exists w',
    tickWorlds w nows g = Ok (w', g)
    /\ clouds w' = []
    /\ length (store w') = length (store w).
Proof.
  revert w. induction nows as [| now nows IH]; intros w Hc.
  - now exists w.
  - cbn [tickWorlds]. rewrite (tickWorld_no_clouds w now g Hc).
    cbn [bind fst snd].
    match goal with |- context [tickWorlds ?w1 _ _] =>
      destruct (IH w1) as (w' & Hrun & Hc' & Hlen) end.
    + exact Hc.
    + exists w'. split; [exact Hrun |]. split; [exact Hc' |].
      rewrite Hlen. cbn [tickRain set_rain set_store store].
      apply length_tickCelestialObjects.
Qed.

(** C1, as the code has it.  The kinematics pass processes the sun first,
    then the planet, then the clouds.  An object without an orbit (the planet
    of every constructed world) is never moved by the pass, so every object
    whose orbit targets such an object ends the pass at the point of its
    orbit relative to the target's location, which is the same before and
    after the pass. *)
Theorem kinematics_order_and_anchoring (w : WorldState) (dt : R) (a t : addr) :
  a ∈ things w -> (a < length (store w))%nat ->
  orbitsAround (store w) a t -> orbit (store w !!! t) = None ->
  things w = sun w :: planet w :: clouds w
  /\ location (tickCelestialObjects (things w) dt (store w) !!! t)
     = location (store w !!! t)
  /\ anchored (tickCelestialObjects (things w) dt (store w)) a t.
Proof.
  intros Hin Ha Horb Ht. split; [reflexivity |]. split.
  - now apply tickCelestialObjects_root.
  - apply tickCelestialObjects_anchored; auto.
Qed.

(** The sun of a world with one cloud, around the planet. *)
Lemma kinematics_order_and_anchoring_witness :
  things oneCloudWorld
  = sun oneCloudWorld :: planet oneCloudWorld :: clouds oneCloudWorld
  /\ location (tickCelestialObjects (things oneCloudWorld) 1
                 (store oneCloudWorld) !!! 0%nat)
     = location (store oneCloudWorld !!! 0%nat)
  /\ anchored (tickCelestialObjects (things oneCloudWorld) 1
                 (store oneCloudWorld)) 1%nat 0%nat.
Proof.
  apply (kinematics_order_and_anchoring oneCloudWorld 1 1%nat 0%nat).
  - apply list_elem_of_here.
  - cbn. lia.
  - eexists. split; reflexivity.
  - reflexivity.
Defined.

(** C1, as stated, fails: in a world with one cloud the planet is not
    processed before the sun. *)
Lemma planet_not_processed_before_sun :
  things oneCloudWorld = [1; 0; 2]%nat
  /\ ~ processedBefore (things oneCloudWorld)
        (planet oneCloudWorld) (sun oneCloudWorld).
Proof.
  split; [reflexivity |].
  intros (i & j & Hi & Hj & Hlt).
  destruct j as [| j]; [lia |].
  destruct j as [| j]; [discriminate |].
  destruct j as [| j]; [discriminate |].
  destruct j; discriminate.
Qed.

(** ** Wrapping of rotations *)

(** The remainder wraps into [[0, 2π)] when the advanced rotation is not
    negative. *)
Lemma tickedObject_rotation_wrapped (dt : R) (h : heap) (o : CelestialObject) :
  0 <= rotation o + rotationalVelocity o * dt ->
  0 <= rotation (tickedObject dt h o) < PI * 2.
Proof.
  intros H. assert (Hpi := PI_RGT_0).
  assert (Hr : rotation (tickedObject dt h o)
               = Rrem (rotation o + rotationalVelocity o * dt) (PI * 2)).
  { unfold tickedObject. now destruct (orbit o). }
  rewrite Hr. apply Rrem_nonneg; lra.
Qed.

Lemma tickRain_store (w : WorldState) (dt : R) : store (tickRain w dt) = store w.
Proof. reflexivity. Qed.

(** C6, at a world whose planet spins clockwise.  After a tick of 10 ms the
    planet's rotation is [- 2π / 10000]: the remainder keeps the sign of the
    negative dividend, so the rotation is below [0]. *)
Theorem clockwise_rotation_negative (g : Rng) :
  exists w',
    tickWorld clockwiseWorld 10 g = Ok (w', g)
    /\ rotation (store w' !!! planet w') = - ((2 * PI) / 10000)
    /\ rotation (store w' !!! planet w') < 0.
Proof.
  rewrite tickWorld_no_clouds by reflexivity.
  eexists. split; [reflexivity |].
  assert (Hpi := PI_RGT_0).
  assert (Hrot : rotation
            (store (tickRain
               (set_store
                  (tickCelestialObjects [sun clockwiseWorld; planet clockwiseWorld]
                     (IZR (10 - lastTick clockwiseWorld) * timePerMs)
                     (store clockwiseWorld))
                  (set_lastTick 10 clockwiseWorld))
               (IZR (10 - lastTick clockwiseWorld) * timePerMs))
             !!! 0%nat)
          = - ((2 * PI) / 10000)).
  { rewrite tickRain_store. cbn [set_store store].
    unfold tickCelestialObjects. cbn [fold_left].
    rewrite tickCelestialObject_self
      by (rewrite length_tickCelestialObject; cbn; lia).
    rewrite tickCelestialObject_other by (cbn; lia).
    unfold tickedObject. cbn [clockwiseWorld store planet sun lastTick].
    change ([_; _] !!! 0%nat) with
      ({| location := (0, 0); rotation := 0; shape := Circle 3;
          rotationalVelocity := - ((2 * PI) / ticksInADay); orbit := None;
          mass := 0; state := floating; friends := [] |}).
    cbn [orbit rotation rotationalVelocity set_rotation].
    unfold ticksInADay, timePerMs. change (10 - 0)%Z with 10%Z.
    rewrite Rrem_small_neg by lra. lra. }
  cbn [planet tickRain set_rain set_store set_lastTick clockwiseWorld] in *.
  split; [exact Hrot | rewrite Hrot; lra].
Qed.

(** Three ticks of the world without clouds. *)
Lemma empty_clouds_preserved_witness :
  clouds clockwiseWorld = []
  /\ exists w',
       tickWorlds clockwiseWorld [10; 20; 35]%Z (constantRng 0)
       = Ok (w', constantRng 0)
       /\ clouds w' = []
       /\ length (store w') = length (store clockwiseWorld).
Proof.
  split; [reflexivity |].
  apply (empty_clouds_preserved clockwiseWorld [10; 20; 35]%Z (constantRng 0)).
  reflexivity.
Defined.

(** ** Collective mass *)

Lemma fold_left_Rplus (l : list R) (a : R) :
  fold_left Rplus l a = a + fold_left Rplus l 0.
Proof.
  revert a. induction l as [| x l IH]; intros a; cbn [fold_left]; [lra |].
  rewrite (IH (a + x)), (IH (0 + x)). lra.
Qed.

Lemma sum_cons (x : R) (l : list R) : sum (x :: l) = x + sum l.
Proof. unfold sum. cbn [fold_left]. rewrite fold_left_Rplus. lra. Qed.

Lemma sum_nil : sum [] = 0.
Proof. reflexivity. Qed.

Lemma sum_app (l1 l2 : list R) : sum (l1 ++ l2) = sum l1 + sum l2.
Proof.
  induction l1 as [| x l1 IH]; cbn [app].
  - rewrite sum_nil. lra.
  - rewrite !sum_cons, IH. lra.
Qed.

Lemma sum_Permutation (l1 l2 : list R) : l1 ≡ₚ l2 -> sum l1 = sum l2.
Proof.
  induction 1 as [| x l1 l2 _ IH | x y l | l1 l2 l3 _ IH1 _ IH2].
  - reflexivity.
  - rewrite !sum_cons, IH. reflexivity.
  - rewrite !sum_cons. lra.
  - congruence.
Qed.

Lemma collectiveMass_contributions (h : heap) (cloud : addr) :
  collectiveMass h cloud
  = sum (map (fun a => mass (h !!! a)) (contributions h cloud)).
Proof.
  unfold collectiveMass, contributions. cbn [map]. rewrite sum_cons. f_equal.
  induction (friends (h !!! cloud)) as [| f fs IH]; [reflexivity |].
  cbn [map flat_map]. rewrite sum_cons, IH.
  rewrite map_app, sum_app. cbn [map]. rewrite sum_cons.
  reflexivity.
Qed.

(** C9.  When [A] and [B] are friends of each other, the masses that
    [collectiveMass] adds up for [A] contain the mass of [A] twice: once as
    the cloud's own mass, once among the friends of [B]. *)
Theorem collectiveMass_counts_own_mass_twice (h : heap) (A B : addr) :
  B ∈ friends (h !!! A) -> A ∈ friends (h !!! B) ->
  exists others,
    contributions h A ≡ₚ A :: A :: others
    /\ collectiveMass h A
       = mass (h !!! A) + mass (h !!! A)
         + sum (map (fun a => mass (h !!! a)) others).
Proof.
  intros HB HA.
  apply list_elem_of_split in HB as (l1 & l2 & HB).
  apply list_elem_of_split in HA as (m1 & m2 & HA).
  set (fm := flat_map (fun friend => friend :: friends (h !!! friend))).
  assert (Hc : contributions h A
               = A :: fm l1 ++ (B :: m1 ++ A :: m2) ++ fm l2).
  { unfold contributions. rewrite HB. fold fm. unfold fm.
    rewrite flat_map_app. cbn [flat_map]. now rewrite HA. }
  assert (Hp : contributions h A ≡ₚ A :: A :: fm l1 ++ (B :: m1 ++ m2) ++ fm l2).
  { rewrite Hc. constructor.
    replace (fm l1 ++ (B :: m1 ++ A :: m2) ++ fm l2)
      with ((fm l1 ++ B :: m1) ++ A :: (m2 ++ fm l2))
      by (cbn [app]; now rewrite <- !app_assoc).
    replace (fm l1 ++ (B :: m1 ++ m2) ++ fm l2)
      with ((fm l1 ++ B :: m1) ++ (m2 ++ fm l2))
      by (cbn [app]; now rewrite <- !app_assoc).
    symmetry. apply Permutation_middle. }
  eexists. split; [exact Hp |].
  rewrite collectiveMass_contributions.
  rewrite (sum_Permutation _ _ (Permutation_map _ Hp)).
  cbn [map]. rewrite !sum_cons. lra.
Qed.

(** Two clouds, at addresses 2 and 3, that are friends of each other. *)
Lemma collectiveMass_counts_own_mass_twice_witness :
  3%nat ∈ friends (store mutualFriends !!! 2%nat)
  /\ 2%nat ∈ friends (store mutualFriends !!! 3%nat)
  /\ exists others,
       contributions (store mutualFriends) 2%nat ≡ₚ 2%nat :: 2%nat :: others
       /\ collectiveMass (store mutualFriends) 2%nat
          = mass (store mutualFriends !!! 2%nat)
            + mass (store mutualFriends !!! 2%nat)
            + sum (map (fun a => mass (store mutualFriends !!! a)) others).
Proof.
  assert (H1 : 3%nat ∈ friends (store mutualFriends !!! 2%nat))
    by apply list_elem_of_here.
  assert (H2 : 2%nat ∈ friends (store mutualFriends !!! 3%nat))
    by apply list_elem_of_here.
  split; [exact H1 |]. split; [exact H2 |].
  apply (collectiveMass_counts_own_mass_twice (store mutualFriends) 2%nat 3%nat H1 H2).
Defined.

(** ** The rain pass *)

Lemma magnitude_subtract_sym (a b : Vector2d) :
  vectorMath.magnitude (vectorMath.subtract a b)
  = vectorMath.magnitude (vectorMath.subtract b a).
Proof.
  unfold vectorMath.magnitude, vectorMath.subtract. cbn [fst snd].
  f_equal. ring.
Qed.

Lemma magnitude_on_axis (x : R) : 0 <= x -> vectorMath.magnitude (x, 0) = x.
Proof.
  intros Hx. unfold vectorMath.magnitude. cbn [fst snd].
  replace (x ^ 2 + 0 ^ 2) with (x * x) by ring. now apply sqrt_square.
Qed.

(** A particle that a rain pass retains lies above the planet's surface. *)
Lemma tickRainParticle_retained (planet : CelestialObject) (dt : R)
    (r r' : Rain) (radius : R) :
  shape planet = Circle radius ->
  tickRainParticle planet dt r = Some r' ->
  radius < vectorMath.magnitude
             (vectorMath.subtract (rain_location r') (location planet)).
Proof.
  intros Hshape. unfold tickRainParticle.
  destruct (vectorMath.unitVector _) as [dir |]; [| discriminate].
  destruct (vectorMath.clipMagnitude _ _) as [velocity |]; [| discriminate].
  rewrite Hshape. cbn [aboveGround]. unfold Rgtb, Rltb.
  destruct (Rlt_dec _ _) as [Hlt |]; [| discriminate].
  intros [= <-]. exact Hlt.
Qed.




(** ** Frames *)

Section Evolves.
Variable rel : CelestialObject -> CelestialObject -> Prop.
Hypothesis rel_refl : forall o, rel o o.
Hypothesis rel_trans : forall o1 o2 o3, rel o1 o2 -> rel o2 o3 -> rel o1 o3.

Lemma evolves_refl (h : heap) : evolves rel h h.
Proof using rel_refl. split; [lia | auto]. Qed.

Lemma evolves_trans (h1 h2 h3 : heap) :
  evolves rel h1 h2 -> evolves rel h2 h3 -> evolves rel h1 h3.
Proof using rel_trans.
  intros [Hl1 H1] [Hl2 H2]. split; [lia |].
  intros a Ha. apply (rel_trans _ (h2 !!! a)); [auto | apply H2; lia].
Qed.

Lemma evolves_alter (f : CelestialObject -> CelestialObject) (a : addr) (h : heap) :
  rel (h !!! a) (f (h !!! a)) -> evolves rel h (alter f a h).
Proof using rel_refl.
  intros Hf. split; [now rewrite length_alter |].
  intros b Hb. rewrite list_lookup_total_alter.
  case_decide as Hd; [destruct Hd as [-> _]; apply Hf | apply rel_refl].
Qed.

(** Without growth of the store, the relation holds at every address. *)
Lemma evolves_everywhere (h h' : heap) (a : addr) :
  length h' = length h -> evolves rel h h' -> rel (h !!! a) (h' !!! a).
Proof using rel_refl.
  intros Hlen [_ H]. destruct (le_lt_dec (length h) a) as [Hout | Hin].
  - rewrite !list_lookup_total_alt.
    rewrite (lookup_ge_None_2 h a), (lookup_ge_None_2 h' a) by lia.
    apply rel_refl.
  - now apply H.
Qed.

Lemma evolves_app (h l : heap) : evolves rel h (h ++ l).
Proof using rel_refl.
  split; [rewrite length_app; lia |].
  intros a Ha. rewrite lookup_total_app_l by exact Ha. apply rel_refl.
Qed.

End Evolves.

Lemma moved_refl (o : CelestialObject) : moved o o.
Proof. unfold moved. tauto. Qed.

Lemma moved_trans (o1 o2 o3 : CelestialObject) :
  moved o1 o2 -> moved o2 o3 -> moved o1 o3.
Proof. unfold moved. intuition congruence. Qed.

Lemma clustered_refl (o : CelestialObject) : clustered o o.
Proof. unfold clustered. intuition. Qed.

Lemma clustered_trans (o1 o2 o3 : CelestialObject) :
  clustered o1 o2 -> clustered o2 o3 -> clustered o1 o3.
Proof.
  unfold clustered. intros (? & ? & ? & ? & ? & ? & ? & Hf1)
    (? & ? & ? & ? & ? & ? & ? & Hf2).
  repeat split; try congruence. intros x Hx. auto.
Qed.

Lemma rained_refl (o : CelestialObject) : rained o o.
Proof. unfold rained. intuition lra. Qed.

Lemma rained_trans (o1 o2 o3 : CelestialObject) :
  rained o1 o2 -> rained o2 o3 -> rained o1 o3.
Proof.
  unfold rained. intros (? & ? & ? & ? & ? & ? & ? & Hs1)
    (? & ? & ? & ? & ? & ? & ? & Hs2).
  repeat split; try congruence; [lra | auto].
Qed.

(** ** The clustering step *)

Lemma elem_of_Set_add (x y : addr) (s : list addr) :
  y ∈ Set_add x s <-> y ∈ s \/ y = x.
Proof.
  unfold Set_add. case_decide as Hx.
  - split; [auto | intros [H | ->]; assumption].
  - rewrite elem_of_app, list_elem_of_singleton. reflexivity.
Qed.

(** The two outcomes of the body of the innermost loop. *)
Lemma clusterPair_Ok (cloud otherCloud : addr) (h h' : heap) :
  clusterPair cloud h otherCloud = Ok h' ->
  h' = h
  \/ (cloud <> otherCloud /\ near h cloud otherCloud
      /\ exists cloudOrbit' otherOrbit,
           orbit (h !!! cloud) = Some cloudOrbit'
           /\ orbit (h !!! otherCloud) = Some otherOrbit
           /\ h' = befriend cloud otherCloud cloudOrbit' otherOrbit h).
Proof.
  unfold clusterPair.
  destruct (shape (h !!! cloud)) as [| axes] eqn:Hshape; [discriminate |].
  case_decide as Hsame; [intros [= <-]; now left |].
  unfold Rltb. destruct (Rlt_dec _ _) as [Hlt | Hge];
    [| intros [= <-]; now left].
  unfold cloudOrbit.
  destruct (orbit (h !!! otherCloud)) as [otherOrbit |]; [| discriminate].
  destruct (orbit (h !!! cloud)) as [cloudOrbit' |] eqn:Hco; [| discriminate].
  cbn [bind]. intros [= <-]. right. split; [exact Hsame |]. split.
  - exists axes. split; [exact Hshape | exact Hlt].
  - now exists cloudOrbit', otherOrbit.
Qed.

Lemma clusterPair_self (cloud : addr) (h : heap) (axes : EllipseShape) :
  shape (h !!! cloud) = Ellipse axes -> clusterPair cloud h cloud = Ok h.
Proof.
  intros Hs. unfold clusterPair. rewrite Hs. now rewrite decide_True.
Qed.

Lemma clusterPair_far (cloud otherCloud : addr) (h : heap) (axes : EllipseShape) :
  shape (h !!! cloud) = Ellipse axes ->
  Rmin axes.1 axes.2 + Rmin axes.1 axes.2 / 4 <= distance h cloud otherCloud ->
  clusterPair cloud h otherCloud = Ok h.
Proof.
  intros Hs Hfar. unfold clusterPair. rewrite Hs.
  case_decide; [reflexivity |]. fold (distance h cloud otherCloud).
  now rewrite Rltb_false.
Qed.

Lemma clusterPair_near (cloud otherCloud : addr) (h : heap)
    (axes : EllipseShape) (cloudOrbit' otherOrbit : Orbit) :
  cloud <> otherCloud ->
  shape (h !!! cloud) = Ellipse axes ->
  distance h cloud otherCloud < Rmin axes.1 axes.2 + Rmin axes.1 axes.2 / 4 ->
  orbit (h !!! cloud) = Some cloudOrbit' ->
  orbit (h !!! otherCloud) = Some otherOrbit ->
  clusterPair cloud h otherCloud
  = Ok (befriend cloud otherCloud cloudOrbit' otherOrbit h).
Proof.
  intros Hne Hs Hnear Hco Hoo. unfold clusterPair. rewrite Hs.
  rewrite decide_False by exact Hne. fold (distance h cloud otherCloud).
  rewrite Rltb_true by exact Hnear.
  unfold cloudOrbit. rewrite Hco, Hoo. reflexivity.
Qed.

Lemma length_befriend (c o : addr) (co oo : Orbit) (h : heap) :
  length (befriend c o co oo h) = length h.
Proof. unfold befriend. now rewrite !length_alter. Qed.

Lemma befriend_clustered (c o : addr) (co oo : Orbit) (h : heap) (a : addr) :
  orbit (h !!! o) = Some oo ->
  clustered (h !!! a) (befriend c o co oo h !!! a).
Proof.
  intros Hoo. apply (evolves_everywhere clustered clustered_refl);
    [apply length_befriend |].
  unfold befriend.
  eapply (evolves_trans clustered clustered_trans);
    [| apply (evolves_alter clustered clustered_refl)].
  eapply (evolves_trans clustered clustered_trans);
    [| apply (evolves_alter clustered clustered_refl)].
  apply (evolves_alter clustered clustered_refl).
  - unfold clustered, orbitPath. cbn. rewrite Hoo. cbn. intuition.
  - unfold clustered. cbn. repeat split; try reflexivity.
    intros x Hx. apply elem_of_Set_add. now left.
  - unfold clustered. cbn. repeat split; try reflexivity.
    intros x Hx. apply elem_of_Set_add. now left.
Qed.

Lemma befriend_friends (c o : addr) (co oo : Orbit) (h : heap) (a b : addr) :
  b ∈ friends (befriend c o co oo h !!! a) ->
  b ∈ friends (h !!! a) \/ (a = c /\ b = o) \/ (a = o /\ b = c).
Proof.
  unfold befriend. rewrite !list_lookup_total_alter.
  repeat case_decide; cbn [friends set_friends set_orbit];
    rewrite ?elem_of_Set_add; intuition (subst; auto).
Qed.

Lemma befriend_mutual (c o : addr) (co oo : Orbit) (h : heap) :
  (c < length h)%nat -> (o < length h)%nat ->
  o ∈ friends (befriend c o co oo h !!! c)
  /\ c ∈ friends (befriend c o co oo h !!! o).
Proof.
  intros Hc Ho. unfold befriend. rewrite !list_lookup_total_alter.
  rewrite !length_alter.
  repeat case_decide; cbn [friends set_friends set_orbit];
    rewrite ?elem_of_Set_add; intuition (subst; auto; try lia).
Qed.

Lemma near_frame (h0 h : heap) (a b : addr) :
  (forall x, clustered (h0 !!! x) (h !!! x)) -> near h a b -> near h0 a b.
Proof.
  intros Hf (axes & Hs & Hd). exists axes.
  destruct (Hf a) as (Hla & _ & Hsa & _). destruct (Hf b) as (Hlb & _).
  unfold distance in *. rewrite <- Hla, <- Hlb. split; congruence.
Qed.

Section Clustering.
Variable h0 : heap.
Variable pairs : addr -> addr -> Prop.

Lemma clusterInv_start : clusterInv h0 pairs h0.
Proof.
  split; [reflexivity |]. split; [intros a; apply clustered_refl |].
  intros a b Hb. now left.
Qed.

Lemma clusterPair_inv (cloud otherCloud : addr) (h h' : heap) :
  pairs cloud otherCloud -> pairs otherCloud cloud ->
  clusterInv h0 pairs h -> clusterPair cloud h otherCloud = Ok h' ->
  clusterInv h0 pairs h'.
Proof.
  intros Hp1 Hp2 (Hlen & Hframe & Hfriends) Hrun.
  apply clusterPair_Ok in Hrun
    as [-> | (Hne & Hnear & co & oo & Hco & Hoo & ->)].
  - now split.
  - apply (near_frame h0) in Hnear; [| exact Hframe].
    split; [now rewrite length_befriend |]. split.
    + intros a. eapply clustered_trans; [apply Hframe |].
      now apply befriend_clustered.
    + intros a b Hb.
      apply befriend_friends in Hb as [Hb | [[-> ->] | [-> ->]]].
      * now apply Hfriends.
      * right. auto.
      * right. auto.
Qed.

Lemma clusterGroup_inv (group : list addr) (h h' : heap) :
  (forall a b, a ∈ group -> b ∈ group -> pairs a b) ->
  clusterInv h0 pairs h -> clusterGroup h group = Ok h' ->
  clusterInv h0 pairs h'.
Proof.
  intros Hpairs Hinv Hrun. unfold clusterGroup in Hrun.
  refine (forOf_invariant (clusterInv h0 pairs) _ _ _ _ _ Hinv Hrun).
  intros h1 cloud h2 Hcloud Hinv1 Hrun1.
  refine (forOf_invariant (clusterInv h0 pairs) _ _ _ _ _ Hinv1 Hrun1).
  intros h3 otherCloud h4 Hother Hinv3 Hrun3.
  apply (clusterPair_inv cloud otherCloud h3 h4);
    [now apply Hpairs | now apply Hpairs | exact Hinv3 | exact Hrun3].
Qed.

End Clustering.

Lemma clusterClouds_inv (h h' : heap) (cloudGroups : list (list addr)) :
  clusterClouds h cloudGroups = Ok h' ->
  clusterInv h (sharesGroup cloudGroups) h'.
Proof.
  intros Hrun. unfold clusterClouds in Hrun.
  refine (forOf_invariant (clusterInv h (sharesGroup cloudGroups)) _ _ _ _ _
            (clusterInv_start h _) Hrun).
  intros h1 group h2 Hgroup Hinv Hrun1.
  eapply clusterGroup_inv; [| exact Hinv | exact Hrun1].
  intros a b Ha Hb. now exists group.
Qed.

(** *** The groups *)

Lemma getCloudGroup_from (h : heap) (clouds : list addr) (range : Vector2d)
    (acc : list addr) :
  Forall (cloudReady h) clouds ->
  forOf (fun group cloud =>
           let! ob := cloudOrbit h cloud in
           Ok (if inCloudRange range (orbit_rotation ob)
               then group ++ [cloud] else group))
        acc clouds
  = Ok (acc ++ cloudGroup h clouds range).
Proof.
  intros Hready. revert acc.
  induction Hready as [| c cs (_ & _ & ob & radius & Hob & _) _ IH]; intros acc.
  - cbn. now rewrite app_nil_r.
  - cbn [forOf cloudGroup List.filter]. unfold cloudOrbit at 1.
    rewrite Hob. cbn [bind].
    destruct (inCloudRange range (orbit_rotation ob)).
    + rewrite IH. unfold cloudGroup. now rewrite <- app_assoc.
    + now rewrite IH.
Qed.

Lemma getCloudGroup_Ok (h : heap) (clouds : list addr) (range : Vector2d) :
  Forall (cloudReady h) clouds ->
  getCloudGroup h clouds range = Ok (cloudGroup h clouds range).
Proof. intros H. unfold getCloudGroup. now rewrite getCloudGroup_from. Qed.

Lemma getCloudGroups_from (h : heap) (clouds : list addr)
    (ranges : list Vector2d) (acc : list (list addr)) :
  Forall (cloudReady h) clouds ->
  forOf (fun cloudGroups range =>
           let! group := getCloudGroup h clouds range in
           Ok (cloudGroups ++ [group]))
        acc ranges
  = Ok (acc ++ map (cloudGroup h clouds) ranges).
Proof.
  intros Hready. revert acc.
  induction ranges as [| r rs IH]; intros acc; cbn [forOf map].
  - now rewrite app_nil_r.
  - rewrite getCloudGroup_Ok by exact Hready. cbn [bind].
    rewrite IH. now rewrite <- app_assoc.
Qed.

Lemma getCloudGroups_Ok (h : heap) (clouds : list addr) :
  Forall (cloudReady h) clouds ->
  getCloudGroups h clouds = Ok (map (cloudGroup h clouds) cloudRanges).
Proof. intros H. unfold getCloudGroups. now rewrite getCloudGroups_from. Qed.

Lemma elem_of_cloudGroup (h : heap) (clouds : list addr) (range : Vector2d)
    (c : addr) :
  c ∈ cloudGroup h clouds range -> c ∈ clouds.
Proof.
  rewrite !list_elem_of_In. unfold cloudGroup. rewrite filter_In. tauto.
Qed.

Lemma sharesGroup_clouds (h : heap) (clouds : list addr)
    (ranges : list Vector2d) (a b : addr) :
  sharesGroup (map (cloudGroup h clouds) ranges) a b ->
  a ∈ clouds /\ b ∈ clouds.
Proof.
  intros (group & Hg & Ha & Hb).
  apply list_elem_of_In, in_map_iff in Hg as (range & <- & _).
  split; eapply elem_of_cloudGroup; eassumption.
Qed.

(** *** The clustering step does not throw on well-formed clouds *)

Lemma cloudReady_clustered (h h' : heap) (c : addr) :
  length h' = length h -> (forall a, clustered (h !!! a) (h' !!! a)) ->
  cloudReady h c -> cloudReady h' c.
Proof.
  intros Hlen Hf (Hc & (axes & Hs) & ob & radius & Hob & Hshape).
  destruct (Hf c) as (_ & _ & Hs' & _ & _ & _ & Hpath & _).
  split; [lia |]. split; [exists axes; congruence |].
  unfold orbitPath in Hpath. rewrite Hob in Hpath. cbn in Hpath.
  destruct (orbit (h' !!! c)) as [ob' |]; [| discriminate].
  cbn in Hpath. injection Hpath as _ _ Hshape'.
  exists ob', radius. split; [reflexivity | congruence].
Qed.

Lemma clusterPair_total (cloud otherCloud : addr) (h : heap) :
  cloudReady h cloud -> cloudReady h otherCloud ->
  exists h', clusterPair cloud h otherCloud = Ok h'.
Proof.
  intros (_ & (axes & Hs) & co & ? & Hco & _) (_ & _ & oo & ? & Hoo & _).
  unfold clusterPair. rewrite Hs. case_decide; [eauto |].
  destruct (Rltb _ _); [| eauto].
  unfold cloudOrbit. rewrite Hco, Hoo. cbn [bind]. eauto.
Qed.

Lemma clusterClouds_total (h : heap) (cloudGroups : list (list addr)) :
  (forall group c, group ∈ cloudGroups -> c ∈ group -> cloudReady h c) ->
  exists h', clusterClouds h cloudGroups = Ok h'.
Proof.
  intros Hready.
  set (P := clusterInv h (fun _ _ => True)).
  assert (Hkeep : forall h1 c, P h1 -> cloudReady h c -> cloudReady h1 c).
  { intros h1 c (Hlen & Hf & _). now apply cloudReady_clustered. }
  destruct (forOf_total P clusterGroup cloudGroups h) as (h' & Hrun & _);
    [| apply clusterInv_start | now exists h'].
  intros h1 group Hgroup HP1. unfold clusterGroup.
  apply (forOf_total P); [| exact HP1].
  intros h2 cloud Hcloud HP2.
  apply (forOf_total P); [| exact HP2].
  intros h3 otherCloud Hother HP3.
  destruct (clusterPair_total cloud otherCloud h3) as (h4 & Hrun).
  - apply Hkeep; [exact HP3 | now apply (Hready group)].
  - apply Hkeep; [exact HP3 | now apply (Hready group)].
  - exists h4. split; [exact Hrun |].
    now apply (clusterPair_inv h (fun _ _ => True) cloud otherCloud h3 h4).
Qed.

(** ** The second loop of the cloud pass *)

Lemma wetted_refl (o : CelestialObject) : wetted o o.
Proof. unfold wetted. intuition. Qed.

Lemma wetted_trans (o1 o2 o3 : CelestialObject) :
  wetted o1 o2 -> wetted o2 o3 -> wetted o1 o3.
Proof.
  unfold wetted. intros (? & ? & ? & ? & ? & ? & ? & Hs1)
    (? & ? & ? & ? & ? & ? & ? & Hs2).
  repeat split; try congruence. auto.
Qed.

Lemma wetted_rained (o o' : CelestialObject) : wetted o o' -> rained o o'.
Proof. unfold wetted, rained. intuition lra. Qed.

Lemma sameWorld_refl (w : WorldState) : sameWorld w w.
Proof. unfold sameWorld. tauto. Qed.

Lemma sameWorld_trans (w1 w2 w3 : WorldState) :
  sameWorld w1 w2 -> sameWorld w2 w3 -> sameWorld w1 w3.
Proof. unfold sameWorld. intuition congruence. Qed.

Lemma wetted_set_state (o : CelestialObject) : wetted o (set_state raining o).
Proof. unfold wetted. cbn. tauto. Qed.

Lemma markAll_wetted (l : list addr) (h : heap) :
  length (fold_left (fun h otherCloud => alter (set_state raining) otherCloud h) l h)
  = length h
  /\ forall a,
       wetted (h !!! a)
         (fold_left (fun h otherCloud => alter (set_state raining) otherCloud h) l h
          !!! a).
Proof.
  revert h. induction l as [| f l IH]; intros h; cbn [fold_left].
  - split; [reflexivity | intros a; apply wetted_refl].
  - destruct (IH (alter (set_state raining) f h)) as [Hlen Hw].
    split; [now rewrite Hlen, length_alter |].
    intros a. eapply wetted_trans; [| apply Hw].
    apply (evolves_everywhere wetted wetted_refl); [apply length_alter |].
    apply (evolves_alter wetted wetted_refl), wetted_set_state.
Qed.

Lemma markAll_marks (l : list addr) (h : heap) (f : addr) :
  f ∈ l -> (f < length h)%nat ->
  state (fold_left (fun h otherCloud => alter (set_state raining) otherCloud h) l h
         !!! f) = raining.
Proof.
  revert h. induction l as [| x l IH]; intros h Hf Hlen; cbn [fold_left].
  - now apply elem_of_nil in Hf.
  - apply elem_of_cons in Hf as [-> | Hf].
    + destruct (markAll_wetted l (alter (set_state raining) x h)) as [_ Hw].
      destruct (Hw x) as (_ & _ & _ & _ & _ & _ & _ & Hs). apply Hs.
      now rewrite list_lookup_total_alter_eq.
    + apply IH; [exact Hf | now rewrite length_alter].
Qed.

Lemma markRaining_wetted (M : R) (h : heap) (c : addr) :
  length (markRaining M h c) = length h
  /\ forall a, wetted (h !!! a) (markRaining M h c !!! a).
Proof.
  unfold markRaining. destruct (Rgtb M rainThreshold).
  - destruct (markAll_wetted (friends (h !!! c))
                (alter (set_state raining) c h)) as [Hlen Hw].
    split; [now rewrite Hlen, length_alter |].
    intros a. eapply wetted_trans; [| apply Hw].
    apply (evolves_everywhere wetted wetted_refl); [apply length_alter |].
    apply (evolves_alter wetted wetted_refl), wetted_set_state.
  - split; [reflexivity | intros a; apply wetted_refl].
Qed.

(** Above the threshold, the cloud and every friend of it are marked. *)
Lemma markRaining_marks (M : R) (h : heap) (c : addr) :
  Rgtb M rainThreshold = true ->
  ((c < length h)%nat -> state (markRaining M h c !!! c) = raining)
  /\ (forall f, f ∈ friends (h !!! c) -> (f < length h)%nat ->
        state (markRaining M h c !!! f) = raining).
Proof.
  intros HM. unfold markRaining. rewrite HM. split.
  - intros Hc.
    destruct (markAll_wetted (friends (h !!! c))
                (alter (set_state raining) c h)) as [_ Hw].
    destruct (Hw c) as (_ & _ & _ & _ & _ & _ & _ & Hs). apply Hs.
    now rewrite list_lookup_total_alter_eq.
  - intros f Hf Hlen. apply markAll_marks; [exact Hf | now rewrite length_alter].
Qed.

Lemma set_rain_app_nil (h : heap) (w : WorldState) :
  set_rain (rain w ++ []) (set_store h w) = set_store h w.
Proof. destruct w. unfold set_rain, set_store. cbn. now rewrite app_nil_r. Qed.

(** The outcomes of lines 369 to 423: the store after the marking, with the
    mass of the cloud lowered or not, and the cloud retained or not. *)
Lemma rainOrRetain_Ok (dt : R) (st st1 : CloudLoop) (c : addr) :
  rainOrRetain dt st c = Ok st1 ->
  let w := loop_world st in
  let M := collectiveMass (store w) c in
  let h1 := markRaining M (store w) c in
  exists h2 emitted retain g1,
    st1 = assignClouds retain c
            (set_rain (rain w ++ emitted) (set_store h2 w))
            (remainingClouds st) g1
    /\ draws g1 = draws (loop_rng st)
    /\ ((h2 = h1 /\ emitted = [])
        \/ (h2 = alter (fun o => set_mass (mass o - 0.1) o) c h1
            /\ (exists r, emitted = [r])
            /\ draws (loop_rng st) (cursor (loop_rng st))
               < Rmin (0.1 * dt * Rmax (Rmin (0.01 * M ^ 2) 1.0) 0.2) 0.2))
    /\ (retain = true \/ (retain = false /\ mass (h2 !!! c) <= 0)).
Proof.
  intros Hrun w M h1. unfold rainOrRetain in Hrun. fold w M h1 in Hrun.
  cbn [store set_store] in Hrun.
  destruct (state (h1 !!! c)) eqn:Hstate.
  - unfold cloudOrbit in Hrun.
    destruct (orbit (h1 !!! c)) as [ob |]; [| discriminate]. cbn [bind] in Hrun.
    destruct (orbit_shape ob) as [radius |]; [| discriminate].
    unfold random in Hrun. unfold Rltb at 1 in Hrun.
    destruct (Rlt_dec _ _) as [Hlt | Hge].
    + unfold emitRain, addCloudJitter, random in Hrun.
      cbn [store set_store rain set_rain] in Hrun.
      destruct (location _) as [x y]. cbn [draws cursor] in Hrun.
      injection Hrun as <-.
      eexists _, _, _, _. split; [reflexivity |]. split; [reflexivity |].
      split; [right; split; [reflexivity |]; split; [eauto | exact Hlt] |].
      cbn [store set_store set_rain]. unfold Rgtb, Rltb.
      destruct (Rlt_dec _ _); [now left | right; split; [reflexivity | lra]].
    + injection Hrun as <-.
      exists h1, [], (Rgtb (mass (h1 !!! c)) 0), (mkRng (draws (loop_rng st))
                                                  (S (cursor (loop_rng st)))).
      rewrite set_rain_app_nil.
      split; [reflexivity |]. split; [reflexivity |]. split; [now left |].
      cbn [store set_store]. unfold Rgtb, Rltb.
      destruct (Rlt_dec _ _); [now left | right; split; [reflexivity | lra]].
  - injection Hrun as <-.
    exists h1, [], true, (loop_rng st). rewrite set_rain_app_nil.
    split; [reflexivity |]. split; [reflexivity |]. split; now left.
Qed.

Lemma createRandomCloud_Ok (h : heap) (p : addr) (g g' : Rng) (o : CelestialObject) :
  createRandomCloud h p g = Ok (o, g') ->
  freshCloud o /\ draws g' = draws g.
Proof.
  unfold createRandomCloud. destruct (shape (h !!! p)); [| discriminate].
  unfold random. cbn [draws cursor]. intros [= <- <-].
  unfold freshCloud. cbn. split; [| reflexivity].
  split; [eauto |]. split; [eauto |]. tauto.
Qed.

Lemma createRandomCloud_total (h : heap) (p : addr) (g : Rng) (radius : R) :
  shape (h !!! p) = Circle radius ->
  exists o g', createRandomCloud h p g = Ok (o, g').
Proof.
  intros Hs. unfold createRandomCloud. rewrite Hs. unfold random. eauto.
Qed.

(** The outcomes of lines 425 to 428. *)
Lemma spawnCloud_Ok (clouds : list addr) (st st' : CloudLoop) :
  spawnCloud clouds st = Ok st' ->
  let w := loop_world st in
  exists (spawned : heap) g',
    st' = mkCloudLoop
            (match spawned with
             | [] => w
             | _ => set_clouds (remainingClouds st ++ [length (store w)])
                      (set_store (store w ++ spawned) w)
             end)
            (match spawned with
             | [] => remainingClouds st
             | _ => remainingClouds st ++ [length (store w)]
             end)
            g'
    /\ draws g' = draws (loop_rng st)
    /\ (spawned = []
        \/ (exists newCloud, spawned = [newCloud] /\ freshCloud newCloud
                             /\ (length clouds < 20)%nat)).
Proof.
  intros Hrun w. unfold spawnCloud in Hrun. fold w in Hrun.
  destruct (length clouds <? 20)%nat eqn:Hcount.
  - unfold random in Hrun. destruct (Rltb _ _).
    + destruct (createRandomCloud _ _ _) as [[newCloud g1] |] eqn:Hnew;
        [| discriminate].
      cbn [bind] in Hrun. injection Hrun as <-.
      apply createRandomCloud_Ok in Hnew as [Hfresh Hdraws].
      exists [newCloud], g1. split; [reflexivity |]. split; [exact Hdraws |].
      right. exists newCloud. apply Nat.ltb_lt in Hcount. auto.
    + injection Hrun as <-. exists [], (mkRng (draws (loop_rng st))
                                           (S (cursor (loop_rng st)))).
      split; [reflexivity |]. split; [reflexivity | now left].
  - injection Hrun as <-. exists [], (loop_rng st).
    split; [now destruct st |]. split; [reflexivity | now left].
Qed.

Lemma spawnCloud_full (clouds : list addr) (st st' : CloudLoop) :
  (20 <= length clouds)%nat -> spawnCloud clouds st = Ok st' -> st' = st.
Proof.
  intros Hfull. unfold spawnCloud.
  destruct (Nat.ltb_spec (length clouds) 20); [lia |]. now intros [= <-].
Qed.

Lemma spawnCloud_total (clouds : list addr) (st : CloudLoop) (radius : R) :
  shape (store (loop_world st) !!! planet (loop_world st)) = Circle radius ->
  exists st', spawnCloud clouds st = Ok st'.
Proof.
  intros Hs. unfold spawnCloud. destruct (length clouds <? 20)%nat; [| eauto].
  unfold random. destruct (Rltb _ _); [| eauto].
  destruct (createRandomCloud_total _ _ (mkRng (draws (loop_rng st))
              (S (cursor (loop_rng st)))) _ Hs) as (o & g' & ->).
  cbn [bind]. eauto.
Qed.

(** The outcomes of one iteration of the second loop: the store [h2] after
    marking and emission, followed by the spawned cloud if there is one. *)
Lemma tickCloud_Ok (cs : list addr) (dt : R) (st st' : CloudLoop) (c : addr) :
  tickCloud cs dt st c = Ok st' ->
  let w := loop_world st in
  let M := collectiveMass (store w) c in
  let h1 := markRaining M (store w) c in
  exists h2 emitted retain (spawned : heap),
    store (loop_world st') = h2 ++ spawned
    /\ rain (loop_world st') = rain w ++ emitted
    /\ sameWorld w (loop_world st')
    /\ clouds (loop_world st') = remainingClouds st'
    /\ remainingClouds st'
       = (if retain : bool then remainingClouds st ++ [c] else remainingClouds st)
         ++ seq (length h2) (length spawned)
    /\ draws (loop_rng st') = draws (loop_rng st)
    /\ ((h2 = h1 /\ emitted = [])
        \/ (h2 = alter (fun o => set_mass (mass o - 0.1) o) c h1
            /\ (exists r, emitted = [r])
            /\ draws (loop_rng st) (cursor (loop_rng st))
               < Rmin (0.1 * dt * Rmax (Rmin (0.01 * M ^ 2) 1.0) 0.2) 0.2))
    /\ (retain = true \/ (retain = false /\ mass (h2 !!! c) <= 0))
    /\ (spawned = []
        \/ (exists newCloud, spawned = [newCloud] /\ freshCloud newCloud
                             /\ (length cs < 20)%nat)).
Proof.
  intros Hrun w M h1. unfold tickCloud in Hrun.
  destruct (rainOrRetain dt st c) as [st1 |] eqn:Hst1; [| discriminate].
  cbn [bind] in Hrun.
  apply rainOrRetain_Ok in Hst1
    as (h2 & emitted & retain & g1 & -> & Hdraws1 & Hh2 & Hretain).
  apply spawnCloud_Ok in Hrun as (spawned & g' & -> & Hdraws & Hspawned).
  fold w M h1 in Hh2 |- *.
  exists h2, emitted, retain, spawned.
  unfold assignClouds in *. cbn [loop_world loop_rng remainingClouds] in *.
  destruct Hspawned as [-> | (newCloud & -> & Hfresh & Hcount)].
  - cbn [loop_world loop_rng remainingClouds store set_clouds set_rain set_store
           rain clouds length seq].
    rewrite !app_nil_r.
    repeat split; try reflexivity; try assumption; [congruence | now left].
  - cbn [loop_world loop_rng remainingClouds store set_clouds set_rain set_store
           rain clouds length seq].
    repeat split; try reflexivity; try assumption; [congruence |].
    right. eauto.
Qed.

Lemma rained_lower_mass (o : CelestialObject) :
  rained o (set_mass (mass o - 0.1) o).
Proof. unfold rained. cbn. repeat split; try reflexivity; [lra | auto]. Qed.

(** The store after marking and emission, against the store before. *)
Lemma emission_rained (h h2 : heap) (M : R) (c : addr) :
  h2 = markRaining M h c
  \/ h2 = alter (fun o => set_mass (mass o - 0.1) o) c (markRaining M h c) ->
  length h2 = length h /\ forall a, rained (h !!! a) (h2 !!! a).
Proof.
  destruct (markRaining_wetted M h c) as [Hlen Hw].
  intros [-> | ->].
  - split; [exact Hlen | intros a; apply wetted_rained, Hw].
  - split; [now rewrite length_alter |].
    intros a. eapply rained_trans; [apply wetted_rained, Hw |].
    apply (evolves_everywhere rained rained_refl); [apply length_alter |].
    apply (evolves_alter rained rained_refl), rained_lower_mass.
Qed.

Lemma cloudReady_rained (h h' : heap) (c : addr) :
  evolves rained h h' -> cloudReady h c -> cloudReady h' c.
Proof.
  intros [Hlen Hf] (Hc & (axes & Hs) & ob & radius & Hob & Hshape).
  destruct (Hf c Hc) as (_ & _ & Hs' & _ & Hob' & _).
  split; [lia |]. split; [exists axes; congruence |].
  exists ob, radius. split; [congruence | exact Hshape].
Qed.

Lemma cloudReady_fresh (h : heap) (o : CelestialObject) :
  freshCloud o -> cloudReady (h ++ [o]) (length h).
Proof.
  intros (Hs & Hob & _). unfold cloudReady.
  rewrite list_lookup_total_middle by reflexivity.
  split; [rewrite length_app; cbn; lia | now split].
Qed.

Lemma tickCloud_rained (cs : list addr) (dt : R) (st st' : CloudLoop) (c : addr) :
  tickCloud cs dt st c = Ok st' ->
  evolves rained (store (loop_world st)) (store (loop_world st')).
Proof.
  intros Hrun.
  apply tickCloud_Ok in Hrun
    as (h2 & emitted & retain & spawned & Hstore & _ & _ & _ & _ & _ & Hh2 & _).
  rewrite Hstore.
  destruct (emission_rained (store (loop_world st)) h2
              (collectiveMass (store (loop_world st)) c) c) as [Hlen Hf].
  { destruct Hh2 as [[-> _] | [-> _]]; [now left | now right]. }
  eapply (evolves_trans rained rained_trans);
    [| apply (evolves_app rained rained_refl)].
  split; [lia | intros a _; apply Hf].
Qed.

Lemma rainOrRetain_total (dt : R) (st : CloudLoop) (c : addr) :
  cloudReady (store (loop_world st)) c ->
  exists st1, rainOrRetain dt st c = Ok st1.
Proof.
  intros (_ & _ & ob & radius & Hob & Hshape). unfold rainOrRetain.
  cbn [store set_store].
  set (h1 := markRaining _ _ _).
  destruct (markRaining_wetted (collectiveMass (store (loop_world st)) c)
              (store (loop_world st)) c) as [_ Hw].
  destruct (Hw c) as (_ & _ & _ & _ & Hob1 & _). fold h1 in Hob1.
  destruct (state (h1 !!! c)); [| eauto].
  unfold cloudOrbit. rewrite Hob1, Hob. cbn [bind]. rewrite Hshape.
  unfold random. destruct (Rltb _ _); [| eauto].
  destruct (emitRain _ _ _ _ _). eauto.
Qed.

Lemma tickCloud_total (cs : list addr) (dt : R) (st : CloudLoop) (c : addr)
    (radius : R) :
  cloudReady (store (loop_world st)) c ->
  (planet (loop_world st) < length (store (loop_world st)))%nat ->
  shape (store (loop_world st) !!! planet (loop_world st)) = Circle radius ->
  exists st', tickCloud cs dt st c = Ok st'.
Proof.
  intros Hready Hplanet Hshape. unfold tickCloud.
  destruct (rainOrRetain_total dt st c Hready) as (st1 & Hst1).
  rewrite Hst1. cbn [bind].
  apply (spawnCloud_total cs st1 radius).
  apply rainOrRetain_Ok in Hst1
    as (h2 & emitted & retain & g1 & -> & _ & Hh2 & _).
  unfold assignClouds. cbn [loop_world store planet set_clouds set_rain set_store].
  destruct (emission_rained (store (loop_world st)) h2
              (collectiveMass (store (loop_world st)) c) c) as [_ Hf].
  { destruct Hh2 as [[-> _] | [-> _]]; [now left | now right]. }
  destruct (Hf (planet (loop_world st))) as (_ & _ & Hs & _). congruence.
Qed.

Lemma tickCloud_loopInv (w0 : WorldState) (g0 : Rng) (cs : list addr) (dt : R)
    (st st' : CloudLoop) (c : addr) :
  cloudReady (store w0) c -> loopInv w0 g0 st ->
  tickCloud cs dt st c = Ok st' -> loopInv w0 g0 st'.
Proof.
  intros Hc (Hev & Hsame & (e0 & Hrain) & Hdraws & Hready & _) Hrun.
  pose proof (tickCloud_rained _ _ _ _ _ Hrun) as Hstep.
  assert (Hev' := evolves_trans rained rained_trans _ _ _ Hev Hstep).
  apply tickCloud_Ok in Hrun
    as (h2 & emitted & retain & spawned & Hstore & Hrain' & Hsame' & Hclouds
        & Hrem & Hdraws' & _ & _ & Hspawned).
  split; [exact Hev' |]. split; [eapply sameWorld_trans; eassumption |].
  split; [exists (e0 ++ emitted); rewrite Hrain', Hrain; symmetry; apply app_assoc |].
  split; [congruence |]. split; [| now left].
  rewrite Hrem. apply Forall_app. split.
  - assert (Hold : Forall (cloudReady (store (loop_world st')))
                     (remainingClouds st)).
    { eapply Forall_impl; [exact Hready |].
      intros x. now apply cloudReady_rained. }
    destruct retain; [| exact Hold].
    apply Forall_app. split; [exact Hold |].
    constructor; [| constructor]. now apply (cloudReady_rained (store w0)).
  - destruct Hspawned as [-> | (newCloud & -> & Hfresh & _)];
      [constructor |].
    cbn [length seq]. constructor; [| constructor].
    rewrite Hstore. now apply cloudReady_fresh.
Qed.

Lemma loopInv_start (w0 : WorldState) (g0 : Rng) :
  loopInv w0 g0 (mkCloudLoop w0 [] g0).
Proof.
  split; [apply (evolves_refl rained rained_refl) |].
  split; [apply sameWorld_refl |].
  split; [exists []; cbn; now rewrite app_nil_r |].
  split; [reflexivity |]. split; [constructor | now right].
Qed.

(** The second loop runs to its end on well-formed clouds. *)
Lemma cloudLoop_total (w0 : WorldState) (g0 : Rng) (cs l : list addr) (dt : R)
    (radius : R) :
  (planet w0 < length (store w0))%nat ->
  shape (store w0 !!! planet w0) = Circle radius ->
  Forall (cloudReady (store w0)) l ->
  exists st',
    forOf (tickCloud cs dt) (mkCloudLoop w0 [] g0) l = Ok st'
    /\ loopInv w0 g0 st'.
Proof.
  intros Hplanet Hshape Hl.
  apply (forOf_total (loopInv w0 g0)); [| apply loopInv_start].
  intros st c Hc Hinv.
  assert (Hc0 : cloudReady (store w0) c).
  { rewrite Forall_forall in Hl. now apply Hl. }
  destruct Hinv as (Hev & Hsame & Hrest).
  destruct (tickCloud_total cs dt st c radius) as (st' & Hrun).
  - now apply (cloudReady_rained (store w0)).
  - destruct Hsame as (-> & _). destruct Hev. lia.
  - destruct Hsame as (-> & _). destruct Hev as [_ Hf].
    destruct (Hf _ Hplanet) as (_ & _ & Hs & _). congruence.
  - exists st'. split; [exact Hrun |].
    eapply tickCloud_loopInv; [exact Hc0 | | exact Hrun].
    split; [exact Hev |]. split; assumption.
Qed.

(** ** The passes of a tick, composed *)

Lemma tickedObject_moved (dt : R) (h : heap) (o : CelestialObject) :
  moved o (tickedObject dt h o).
Proof.
  unfold moved, tickedObject. destruct (orbit o) as [ob |] eqn:Hob; cbn;
    rewrite ?Hob; cbn; tauto.
Qed.

Lemma tickCelestialObject_moved (dt : R) (h : heap) (b a : addr) :
  moved (h !!! a) (tickCelestialObject dt h b !!! a).
Proof.
  destruct (decide (b = a)) as [-> | Hne].
  - destruct (le_lt_dec (length h) a) as [Hout | Hin].
    + rewrite tickCelestialObject_out_of_range by exact Hout. apply moved_refl.
    + rewrite tickCelestialObject_self by exact Hin. apply tickedObject_moved.
  - rewrite tickCelestialObject_other by exact Hne. apply moved_refl.
Qed.

Lemma tickCelestialObjects_moved (l : list addr) (dt : R) (h : heap) (a : addr) :
  moved (h !!! a) (tickCelestialObjects l dt h !!! a).
Proof.
  unfold tickCelestialObjects. revert h.
  induction l as [| b l IH]; intros h; cbn [fold_left]; [apply moved_refl |].
  eapply moved_trans; [apply (tickCelestialObject_moved dt h b) | apply IH].
Qed.

Lemma cloudReady_moved (h h' : heap) (c : addr) :
  length h' = length h -> (forall a, moved (h !!! a) (h' !!! a)) ->
  cloudReady h c -> cloudReady h' c.
Proof.
  intros Hlen Hf (Hc & (axes & Hs) & ob & radius & Hob & Hshape).
  destruct (Hf c) as (Hs' & _ & _ & _ & _ & Hpath).
  split; [lia |]. split; [exists axes; congruence |].
  rewrite Hob in Hpath. cbn in Hpath.
  destruct (orbit (h' !!! c)) as [ob' |]; [| discriminate].
  cbn in Hpath. injection Hpath as _ _ Hshape'.
  exists ob', radius. split; [reflexivity | congruence].
Qed.

Lemma ticked_refl (o : CelestialObject) : ticked o o.
Proof. unfold ticked. repeat split; try reflexivity; try lra; auto. Qed.

Lemma ticked_trans (o1 o2 o3 : CelestialObject) :
  ticked o1 o2 -> ticked o2 o3 -> ticked o1 o3.
Proof.
  unfold ticked. intros (? & ? & Hf1 & ? & ?) (? & ? & Hf2 & ? & ?).
  repeat split; try congruence; [| lra | auto].
  intros x Hx. auto.
Qed.

Lemma moved_ticked (o o' : CelestialObject) : moved o o' -> ticked o o'.
Proof.
  unfold moved, ticked. intros (? & ? & Hm & Hs & Hf & _).
  rewrite Hf, Hm, Hs. repeat split; try assumption; try lra; auto.
Qed.

Lemma clustered_ticked (o o' : CelestialObject) : clustered o o' -> ticked o o'.
Proof.
  unfold clustered, ticked. intros (_ & _ & ? & ? & Hm & Hs & _ & ?).
  rewrite Hm, Hs. repeat split; try assumption; try lra; auto.
Qed.

Lemma rained_ticked (o o' : CelestialObject) : rained o o' -> ticked o o'.
Proof.
  unfold rained, ticked. intros (_ & _ & ? & ? & _ & Hf & ? & ?).
  rewrite Hf. repeat split; try assumption; reflexivity.
Qed.

(** The passes of a tick that completes, one after the other. *)
Lemma tickWorld_Ok (w w' : WorldState) (now : Z) (g g' : Rng) :
  tickWorld w now g = Ok (w', g') ->
  let dt := elapsedWorldTime w now in
  let h0 := tickCelestialObjects (things w) dt (store w) in
  exists cloudGroups h1 st',
    getCloudGroups h0 (clouds w) = Ok cloudGroups
    /\ clusterClouds h0 cloudGroups = Ok h1
    /\ forOf (tickCloud (clouds w) dt)
             (mkCloudLoop (set_store h1 (set_lastTick now w)) [] g) (clouds w)
       = Ok st'
    /\ w' = tickRain (loop_world st') dt
    /\ g' = loop_rng st'.
Proof.
  intros Hrun dt h0. unfold tickWorld in Hrun.
  fold (elapsedWorldTime w now) in Hrun. fold dt in Hrun.
  cbn [clouds set_store set_lastTick store lastTick] in Hrun.
  change (things (set_lastTick now w)) with (things w) in Hrun.
  fold h0 in Hrun. unfold tickClouds in Hrun.
  cbn [store set_store] in Hrun.
  destruct (getCloudGroups h0 (clouds w)) as [cloudGroups |] eqn:Hgroups;
    [| discriminate].
  cbn [bind] in Hrun.
  destruct (clusterClouds h0 cloudGroups) as [h1 |] eqn:Hcluster;
    [| discriminate].
  cbn [bind] in Hrun.
  destruct (forOf _ _ _) as [st' |] eqn:Hloop; [| discriminate].
  cbn [bind] in Hrun. injection Hrun as <- <-.
  exists cloudGroups, h1, st'.
  split; [reflexivity |]. split; [exact Hcluster |]. split; [exact Hloop |].
  split; reflexivity.
Qed.

Lemma evolves_weaken (rel rel' : CelestialObject -> CelestialObject -> Prop)
    (h h' : heap) :
  (forall o o', rel o o' -> rel' o o') -> evolves rel h h' -> evolves rel' h h'.
Proof. intros Hsub [Hlen Hf]. split; [exact Hlen | auto]. Qed.

Lemma evolves_pointwise (rel : CelestialObject -> CelestialObject -> Prop)
    (h h' : heap) :
  length h' = length h -> (forall a, rel (h !!! a) (h' !!! a)) ->
  evolves rel h h'.
Proof. intros Hlen Hf. split; [lia | auto]. Qed.

Lemma cloudLoop_rained (cs l : list addr) (dt : R) (st st' : CloudLoop) :
  forOf (tickCloud cs dt) st l = Ok st' ->
  evolves rained (store (loop_world st)) (store (loop_world st')).
Proof.
  intros Hrun.
  refine (forOf_invariant
            (fun s => evolves rained (store (loop_world st)) (store (loop_world s)))
            _ _ _ _ _ (evolves_refl rained rained_refl _) Hrun).
  intros s c s' _ Hs Hstep.
  eapply (evolves_trans rained rained_trans); [exact Hs |].
  eapply tickCloud_rained; exact Hstep.
Qed.

(** Across a tick, every object keeps its shape, its friends and its
    raining state, and does not gain mass. *)
Lemma tickWorld_ticked (w w' : WorldState) (now : Z) (g g' : Rng) :
  tickWorld w now g = Ok (w', g') -> evolves ticked (store w) (store w').
Proof.
  intros Hrun.
  apply tickWorld_Ok in Hrun
    as (cloudGroups & h1 & st' & _ & Hcluster & Hloop & -> & _).
  apply clusterClouds_inv in Hcluster as (Hlen1 & Hf1 & _).
  apply cloudLoop_rained in Hloop. cbn [loop_world store set_store] in Hloop.
  rewrite tickRain_store.
  eapply (evolves_trans ticked ticked_trans);
    [| eapply evolves_weaken; [apply rained_ticked | exact Hloop]].
  eapply (evolves_trans ticked ticked_trans).
  - apply evolves_pointwise; [apply length_tickCelestialObjects |].
    intros a. apply moved_ticked, tickCelestialObjects_moved.
  - apply evolves_pointwise; [exact Hlen1 |].
    intros a. apply clustered_ticked, Hf1.
Qed.

(** A tick of a well-formed world does not throw. *)
Lemma tickWorld_total (w : WorldState) (now : Z) (g : Rng) :
  wellFormed w ->
  exists w' g', tickWorld w now g = Ok (w', g') /\ wellFormed w'.
Proof.
  intros (Hplanet & (radius & Hshape) & Hclouds).
  set (dt := elapsedWorldTime w now).
  set (h0 := tickCelestialObjects (things w) dt (store w)).
  assert (Hlen0 : length h0 = length (store w))
    by apply length_tickCelestialObjects.
  assert (Hmoved : forall a, moved (store w !!! a) (h0 !!! a))
    by (intros a; apply tickCelestialObjects_moved).
  assert (Hclouds0 : Forall (cloudReady h0) (clouds w)).
  { eapply Forall_impl; [exact Hclouds |].
    intros c. now apply cloudReady_moved. }
  pose proof (getCloudGroups_Ok h0 (clouds w) Hclouds0) as Hgroups.
  destruct (clusterClouds_total h0 (map (cloudGroup h0 (clouds w)) cloudRanges))
    as (h1 & Hcluster).
  { intros group c Hgroup Hc.
    apply list_elem_of_In, in_map_iff in Hgroup as (range & <- & _).
    apply elem_of_cloudGroup in Hc.
    rewrite Forall_forall in Hclouds0. now apply Hclouds0. }
  pose proof (clusterClouds_inv _ _ _ Hcluster) as (Hlen1 & Hf1 & _).
  assert (Hclouds1 : Forall (cloudReady h1) (clouds w)).
  { eapply Forall_impl; [exact Hclouds0 |].
    intros c. now apply cloudReady_clustered. }
  assert (Hshape1 : shape (h1 !!! planet w) = Circle radius).
  { destruct (Hf1 (planet w)) as (_ & _ & Hs1 & _).
    destruct (Hmoved (planet w)) as (Hs0 & _). congruence. }
  destruct (cloudLoop_total (set_store h1 (set_lastTick now w)) g
              (clouds w) (clouds w) dt radius)
    as (st' & Hloop & Hev & Hsame & _ & _ & Hready & Hassigned);
    [cbn; lia | exact Hshape1 | exact Hclouds1 |].
  exists (tickRain (loop_world st') dt), (loop_rng st'). split.
  - unfold tickWorld. fold (elapsedWorldTime w now). fold dt.
    cbn [clouds set_store set_lastTick store lastTick].
    change (things (set_lastTick now w)) with (things w). fold h0.
    unfold tickClouds. cbn [store set_store].
    rewrite Hgroups. cbn [bind]. rewrite Hcluster. cbn [bind].
    change (set_store h1 (set_store h0 (set_lastTick now w)))
      with (set_store h1 (set_lastTick now w)).
    rewrite Hloop. reflexivity.
  - cbn [store set_store] in Hev. destruct Hsame as (Hp & _).
    cbn [planet set_store set_lastTick] in Hp.
    unfold wellFormed. rewrite tickRain_store.
    change (planet (tickRain (loop_world st') dt)) with (planet (loop_world st')).
    change (clouds (tickRain (loop_world st') dt)) with (clouds (loop_world st')).
    rewrite Hp. destruct Hev as [Hlen Hf]. split; [lia |]. split.
    + exists radius. destruct (Hf (planet w)) as (_ & _ & Hs & _); [lia |].
      congruence.
    + destruct Hassigned as [-> | ->]; [exact Hready |].
      cbn [clouds set_store set_lastTick].
      eapply Forall_impl; [exact Hclouds1 |].
      intros c. apply cloudReady_rained. now split.
Qed.

Lemma wellFormed_kinematics (w : WorldState) (dt : R) :
  wellFormed w ->
  Forall (cloudReady (tickCelestialObjects (things w) dt (store w))) (clouds w).
Proof.
  intros (_ & _ & Hclouds). eapply Forall_impl; [exact Hclouds |].
  intros c. apply cloudReady_moved; [apply length_tickCelestialObjects |].
  intros a. apply tickCelestialObjects_moved.
Qed.

(** After the kinematics pass, a tick changes neither the location nor the
    friends of an object but by the clustering step. *)
Lemma tickWorld_after_kinematics (w w' : WorldState) (now : Z) (g g' : Rng)
    (h1 : heap) (cloudGroups : list (list addr)) :
  tickWorld w now g = Ok (w', g') ->
  getCloudGroups (tickCelestialObjects (things w) (elapsedWorldTime w now) (store w))
    (clouds w) = Ok cloudGroups ->
  clusterClouds (tickCelestialObjects (things w) (elapsedWorldTime w now) (store w))
    cloudGroups = Ok h1 ->
  forall a, (a < length (store w))%nat ->
    location (store w' !!! a)
    = location (tickCelestialObjects (things w) (elapsedWorldTime w now) (store w)
                !!! a)
    /\ shape (store w' !!! a) = shape (store w !!! a)
    /\ friends (store w' !!! a) = friends (h1 !!! a).
Proof.
  intros Hrun Hgroups Hcluster a Ha.
  apply tickWorld_Ok in Hrun
    as (cloudGroups' & h1' & st' & Hgroups' & Hcluster' & Hloop & -> & _).
  assert (cloudGroups' = cloudGroups) as -> by congruence.
  assert (h1' = h1) as -> by congruence.
  apply clusterClouds_inv in Hcluster as (Hlen1 & Hf1 & _).
  apply cloudLoop_rained in Hloop as [_ Hf2].
  cbn [loop_world store set_store] in Hf2.
  rewrite length_tickCelestialObjects in Hlen1.
  destruct (Hf2 a) as (Hl2 & _ & Hs2 & _ & _ & Hfr2 & _); [lia |].
  destruct (Hf1 a) as (Hl1 & _ & Hs1 & _).
  destruct (tickCelestialObjects_moved (things w) (elapsedWorldTime w now)
              (store w) a) as (Hs0 & _).
  rewrite tickRain_store. repeat split; congruence.
Qed.

(** *** Where the kinematics pass puts an object *)

Lemma tickCelestialObjects_untouched (l : list addr) (dt : R) (h : heap) (a : addr) :
  a ∉ l -> tickCelestialObjects l dt h !!! a = h !!! a.
Proof.
  unfold tickCelestialObjects. revert h.
  induction l as [| b l IH]; intros h Ha; cbn [fold_left]; [reflexivity |].
  apply not_elem_of_cons in Ha as [Hne Ha].
  rewrite IH by exact Ha. now apply tickCelestialObject_other.
Qed.

(** An object that is processed once, around a target without orbit, ends
    the pass at the point of its advanced orbit rotation. *)
Lemma tickCelestialObjects_location (l : list addr) (dt : R) (h : heap)
    (a : addr) (ob : Orbit) :
  NoDup l -> a ∈ l -> (a < length h)%nat ->
  orbit (h !!! a) = Some ob -> orbit (h !!! orbit_target ob) = None ->
  location (tickCelestialObjects l dt h !!! a)
  = vectorMath.add
      (orbitPoint (orbit_shape ob)
         (Rrem (orbit_rotation ob + orbit_rotationalVelocity ob * dt) (PI * 2)))
      (location (h !!! orbit_target ob)).
Proof.
  intros Hnodup. revert h.
  induction Hnodup as [| b l Hb Hnodup IH]; intros h Ha Hlen Hob Ht.
  - now apply elem_of_nil in Ha.
  - change (tickCelestialObjects (b :: l) dt h)
      with (tickCelestialObjects l dt (tickCelestialObject dt h b)).
    apply elem_of_cons in Ha as [-> | Ha].
    + rewrite tickCelestialObjects_untouched by exact Hb.
      rewrite tickCelestialObject_self by exact Hlen.
      unfold tickedObject. now rewrite Hob.
    + assert (Hne : b <> a) by (intros ->; contradiction).
      destruct (tickCelestialObject_root dt h b _ Ht) as [Ht' Hloc'].
      rewrite <- Hloc'. apply IH.
      * exact Ha.
      * now rewrite length_tickCelestialObject.
      * now rewrite tickCelestialObject_other.
      * exact Ht'.
Qed.

Lemma orbitPoint_Rrem (s : Shape) (x : R) :
  orbitPoint s (Rrem x (PI * 2)) = orbitPoint s x.
Proof.
  destruct s as [radius | [a b]]; cbn;
    unfold circleHelpers.calcRotationalPoint;
    now rewrite cos_Rrem, sin_Rrem.
Qed.

Lemma Rmin_06_04 : Rmin 0.6 0.4 = 0.4.
Proof. unfold Rmin. destruct (Rle_dec 0.6 0.4); lra. Qed.

Lemma wellFormed_farFriends : wellFormed farFriends.
Proof.
  split; [cbn; lia |]. split; [exists 3; reflexivity |].
  repeat constructor; try (cbn; lia);
    try (eexists; reflexivity);
    eexists; eexists; split; reflexivity.
Qed.

(** The two clouds of [farFriends] after the kinematics pass of any tick:
    they do not move, since their orbits have angular velocity 0. *)
Lemma farFriends_locations (dt : R) :
  location (tickCelestialObjects (things farFriends) dt (store farFriends) !!! 2%nat)
  = (7, 0)
  /\ location (tickCelestialObjects (things farFriends) dt (store farFriends)
               !!! 3%nat)
     = (-7, 0).
Proof.
  assert (Hnodup : NoDup (things farFriends)).
  { change (NoDup [1; 0; 2; 3]%nat).
    repeat (apply NoDup_cons; split;
            [intros H; rewrite ?elem_of_cons, ?elem_of_nil in H; lia |]).
    apply NoDup_nil. exact I. }
  split.
  - erewrite tickCelestialObjects_location;
      [| exact Hnodup
       | change (things farFriends) with [1; 0; 2; 3]%nat;
         rewrite !elem_of_cons; auto
       | cbn; lia | reflexivity | reflexivity].
    rewrite orbitPoint_Rrem. cbn.
    unfold circleHelpers.calcRotationalPoint, vectorMath.add. cbn [fst snd].
    replace (0 + 0 * dt) with 0 by ring. rewrite cos_0, sin_0. f_equal; ring.
  - erewrite tickCelestialObjects_location;
      [| exact Hnodup
       | change (things farFriends) with [1; 0; 2; 3]%nat;
         rewrite !elem_of_cons; auto
       | cbn; lia | reflexivity | reflexivity].
    rewrite orbitPoint_Rrem. cbn.
    unfold circleHelpers.calcRotationalPoint, vectorMath.add. cbn [fst snd].
    replace (PI + 0 * dt) with PI by ring. rewrite cos_PI, sin_PI. f_equal; ring.
Qed.

(** C3, as stated, fails.  The two clouds of [farFriends] are recorded as
    friends and lie on opposite sides of the planet.  After a tick they are
    14 apart, far beyond the proximity test in either order, and each is
    still a friend of the other. *)
Lemma stale_friendship_survives_tick :
  exists w' g',
    tickWorld farFriends 10 (constantRng 0.5) = Ok (w', g')
    /\ distance (store w') 2%nat 3%nat = 14
    /\ ~ nearOther (store w') 2%nat 3%nat
    /\ ~ nearOther (store w') 3%nat 2%nat
    /\ 3%nat ∈ friends (store w' !!! 2%nat)
    /\ 2%nat ∈ friends (store w' !!! 3%nat).
Proof.
  destruct (tickWorld_total farFriends 10 (constantRng 0.5) wellFormed_farFriends)
    as (w' & g' & Hrun & _).
  exists w', g'. split; [exact Hrun |].
  pose proof (tickWorld_Ok _ _ _ _ _ Hrun)
    as (cloudGroups & h1 & st' & Hgroups & Hcluster & _).
  cbn zeta in Hgroups, Hcluster.
  pose proof (tickWorld_after_kinematics _ _ _ _ _ _ _ Hrun Hgroups Hcluster)
    as Hafter.
  destruct (farFriends_locations (elapsedWorldTime farFriends 10)) as [HlA HlB].
  destruct (Hafter 2%nat) as (HlA' & HsA & _); [cbn; lia |].
  destruct (Hafter 3%nat) as (HlB' & HsB & _); [cbn; lia |].
  rewrite HlA in HlA'. rewrite HlB in HlB'.
  assert (Hd : distance (store w') 2%nat 3%nat = 14).
  { unfold distance. rewrite HlA', HlB'.
    unfold vectorMath.magnitude, vectorMath.subtract. cbn [fst snd].
    replace ((-7 - 7) ^ 2 + (0 - 0) ^ 2) with (14 * 14) by ring.
    apply sqrt_square. lra. }
  assert (Hd' : distance (store w') 3%nat 2%nat = 14).
  { unfold distance in *. now rewrite magnitude_subtract_sym. }
  pose proof (tickWorld_ticked _ _ _ _ _ Hrun) as [_ Hticked].
  split; [exact Hd |]. split; [| split; [| split]].
  - intros (axes & otherAxes & Hs & Hso & Hlt).
    rewrite HsA in Hs. rewrite HsB in Hso.
    injection Hs as <-. injection Hso as <-.
    cbn [fst snd] in Hlt. rewrite Hd, Rmin_06_04 in Hlt. lra.
  - intros (axes & otherAxes & Hs & Hso & Hlt).
    rewrite HsB in Hs. rewrite HsA in Hso.
    injection Hs as <-. injection Hso as <-.
    cbn [fst snd] in Hlt. rewrite Hd', Rmin_06_04 in Hlt. lra.
  - destruct (Hticked 2%nat) as (_ & _ & Hsub & _); [cbn; lia |].
    apply Hsub. apply list_elem_of_here.
  - destruct (Hticked 3%nat) as (_ & _ & Hsub & _); [cbn; lia |].
    apply Hsub. apply list_elem_of_here.
Qed.

(** ** Raining *)

Lemma tickWorld_via_loop (w w' : WorldState) (now : Z) (g g' : Rng) :
  tickWorld w now g = Ok (w', g') ->
  exists st0 st',
    cloudLoopStart w now g = Ok st0
    /\ forOf (tickCloud (clouds w) (elapsedWorldTime w now)) st0 (clouds w)
       = Ok st'
    /\ w' = tickRain (loop_world st') (elapsedWorldTime w now)
    /\ g' = loop_rng st'.
Proof.
  intros Hrun.
  apply tickWorld_Ok in Hrun
    as (cloudGroups & h1 & st' & Hgroups & Hcluster & Hloop & -> & ->).
  eexists _, st'. split; [| split; [exact Hloop | split; reflexivity]].
  unfold cloudLoopStart. rewrite Hgroups. cbn [bind]. rewrite Hcluster.
  reflexivity.
Qed.

(** The iteration for a cloud above the threshold leaves the cloud and its
    friends raining. *)
Lemma tickCloud_marks (cs : list addr) (dt : R) (st st' : CloudLoop) (c : addr) :
  tickCloud cs dt st c = Ok st' ->
  rainThreshold < collectiveMass (store (loop_world st)) c ->
  ((c < length (store (loop_world st)))%nat ->
   state (store (loop_world st') !!! c) = raining)
  /\ (forall f, f ∈ friends (store (loop_world st) !!! c) ->
        (f < length (store (loop_world st)))%nat ->
        state (store (loop_world st') !!! f) = raining).
Proof.
  intros Hrun HM.
  pose proof (tickCloud_rained _ _ _ _ _ Hrun) as [_ Hstep].
  assert (Hgt : Rgtb (collectiveMass (store (loop_world st)) c) rainThreshold
                = true) by (unfold Rgtb; now apply Rltb_true).
  destruct (markRaining_marks _ (store (loop_world st)) c Hgt) as [Hc Hf].
  destruct (markRaining_wetted (collectiveMass (store (loop_world st)) c)
              (store (loop_world st)) c) as [Hlen1 _].
  apply tickCloud_Ok in Hrun
    as (h2 & emitted & retain & spawned & Hstore & _ & _ & _ & _ & _ & Hh2 & _).
  assert (Hkeep : forall x, (x < length (store (loop_world st)))%nat ->
            state (markRaining (collectiveMass (store (loop_world st)) c)
                     (store (loop_world st)) c !!! x) = raining ->
            state (store (loop_world st') !!! x) = raining).
  { intros x Hx Hs. rewrite Hstore.
    destruct Hh2 as [[-> _] | [-> _]].
    - rewrite lookup_total_app_l by lia. exact Hs.
    - rewrite lookup_total_app_l by (rewrite length_alter; lia).
      rewrite list_lookup_total_alter. case_decide as Hd; [| exact Hs].
      destruct Hd as [-> _]. exact Hs. }
  split.
  - intros Hlt. apply Hkeep; auto.
  - intros f Hfr Hlt. apply Hkeep; auto.
Qed.

Lemma tickWorlds_ticked (nows : list Z) (w w' : WorldState) (g g' : Rng) :
  tickWorlds w nows g = Ok (w', g') -> evolves ticked (store w) (store w').
Proof.
  revert w g. induction nows as [| now nows IH]; intros w g Hrun.
  - injection Hrun as <- <-. apply (evolves_refl ticked ticked_refl).
  - cbn [tickWorlds] in Hrun.
    destruct (tickWorld w now g) as [[w1 g1] |] eqn:Hstep; [| discriminate].
    cbn [bind fst snd] in Hrun.
    eapply (evolves_trans ticked ticked_trans);
      [eapply tickWorld_ticked; exact Hstep | eapply IH; exact Hrun].
Qed.

(** C5.  In a tick, when the iteration of the second loop of the cloud pass
    for a cloud [c] finds a collective mass above the threshold 30, [c] and
    all the friends it has then are raining at the end of the tick.  An
    object that is raining stays raining through every later tick. *)
Theorem raining_reached_and_kept (w w' w'' : WorldState) (now : Z)
    (nows : list Z) (g g' g'' : Rng) (st0 st_c : CloudLoop)
    (pre post : list addr) (c : addr) :
  tickWorld w now g = Ok (w', g') ->
  cloudLoopStart w now g = Ok st0 ->
  clouds w = pre ++ c :: post ->
  forOf (tickCloud (clouds w) (elapsedWorldTime w now)) st0 pre = Ok st_c ->
  rainThreshold < collectiveMass (store (loop_world st_c)) c ->
  (c < length (store (loop_world st_c)))%nat ->
  tickWorlds w' nows g' = Ok (w'', g'') ->
  (state (store w' !!! c) = raining
   /\ forall f, f ∈ friends (store (loop_world st_c) !!! c) ->
        (f < length (store (loop_world st_c)))%nat ->
        state (store w' !!! f) = raining)
  /\ (forall a, (a < length (store w))%nat ->
        state (store w !!! a) = raining ->
        state (store w' !!! a) = raining /\ state (store w'' !!! a) = raining)
  /\ (forall a, (a < length (store w'))%nat ->
        state (store w' !!! a) = raining -> state (store w'' !!! a) = raining).
Proof.
  intros Hrun Hstart Hclouds Hpre HM Hc Hlater.
  pose proof (tickWorld_ticked _ _ _ _ _ Hrun) as [Hlen1 Ht1].
  pose proof (tickWorlds_ticked _ _ _ _ _ Hlater) as [Hlen2 Ht2].
  assert (Hkept : forall a, (a < length (store w'))%nat ->
            state (store w' !!! a) = raining -> state (store w'' !!! a) = raining).
  { intros a Ha Hs. destruct (Ht2 a Ha) as (_ & _ & _ & _ & Hk). auto. }
  split; [| split; [| exact Hkept]].
  - apply tickWorld_via_loop in Hrun as (st0' & st' & Hstart' & Hloop & -> & _).
    assert (st0' = st0) as -> by congruence.
    rewrite Hclouds in Hloop at 2.
    apply forOf_split in Hloop as (s1 & s2 & Hpre' & Hstep & Hpost).
    assert (s1 = st_c) as -> by congruence.
    destruct (tickCloud_marks _ _ _ _ _ Hstep HM) as [Hmc Hmf].
    apply cloudLoop_rained in Hpost as [Hlenp Hpost].
    pose proof (tickCloud_rained _ _ _ _ _ Hstep) as [Hlens _].
    rewrite tickRain_store. split.
    + destruct (Hpost c) as (_ & _ & _ & _ & _ & _ & _ & Hk); [lia | auto].
    + intros f Hf Hlt.
      destruct (Hpost f) as (_ & _ & _ & _ & _ & _ & _ & Hk); [lia | auto].
  - intros a Ha Hs. destruct (Ht1 a Ha) as (_ & _ & _ & _ & Hk).
    split; [auto |]. apply Hkept; [lia | auto].
Qed.

Lemma tickWorlds_total (nows : list Z) (w : WorldState) (g : Rng) :
  wellFormed w ->
  exists w' g', tickWorlds w nows g = Ok (w', g') /\ wellFormed w'.
Proof.
  revert w g. induction nows as [| now nows IH]; intros w g Hwf.
  - now exists w, g.
  - destruct (tickWorld_total w now g Hwf) as (w1 & g1 & Hstep & Hwf1).
    destruct (IH w1 g1 Hwf1) as (w' & g' & Hrun & Hwf').
    exists w', g'. split; [| exact Hwf'].
    cbn [tickWorlds]. rewrite Hstep. exact Hrun.
Qed.

Lemma sum_nonneg (l : list R) : Forall (fun x => 0 <= x) l -> 0 <= sum l.
Proof.
  induction 1 as [| x l Hx _ IH]; [rewrite sum_nil; lra |].
  rewrite sum_cons. lra.
Qed.

(** With masses that are not negative, the collective mass of a cloud is at
    least its own mass. *)
Lemma collectiveMass_lower_bound (h : heap) (c : addr) :
  (forall a, 0 <= mass (h !!! a)) -> mass (h !!! c) <= collectiveMass h c.
Proof.
  intros Hpos. unfold collectiveMass.
  assert (0 <= sum (map (fun cloud =>
                           mass (h !!! cloud)
                           + sum (map (fun cloud => mass (h !!! cloud))
                                      (friends (h !!! cloud))))
                        (friends (h !!! c)))); [| lra].
  apply sum_nonneg, Forall_forall. intros x Hx.
  apply list_elem_of_In, in_map_iff in Hx as (f & <- & _).
  assert (0 <= sum (map (fun cloud => mass (h !!! cloud)) (friends (h !!! f)))).
  { apply sum_nonneg, Forall_forall. intros y Hy.
    apply list_elem_of_In, in_map_iff in Hy as (f' & <- & _). apply Hpos. }
  specialize (Hpos f). lra.
Qed.

(** The store in which the second loop starts has the masses of the store
    the tick started from, and at least its friends. *)
Lemma cloudLoopStart_Ok (w : WorldState) (now : Z) (g : Rng) (st0 : CloudLoop) :
  cloudLoopStart w now g = Ok st0 ->
  length (store (loop_world st0)) = length (store w)
  /\ forall a,
       mass (store (loop_world st0) !!! a) = mass (store w !!! a)
       /\ friends (store w !!! a) ⊆ friends (store (loop_world st0) !!! a).
Proof.
  unfold cloudLoopStart.
  destruct (getCloudGroups _ _) as [cloudGroups |]; [| discriminate].
  cbn [bind].
  destruct (clusterClouds _ _) as [h1 |] eqn:Hcluster; [| discriminate].
  cbn [bind]. intros [= <-]. cbn [loop_world store set_store].
  apply clusterClouds_inv in Hcluster as (Hlen & Hf & _).
  rewrite length_tickCelestialObjects in Hlen. split; [exact Hlen |].
  intros a. destruct (Hf a) as (_ & _ & _ & _ & Hm & _ & _ & Hfr).
  destruct (tickCelestialObjects_moved (things w) (elapsedWorldTime w now)
              (store w) a) as (_ & _ & Hm0 & _ & Hfr0 & _).
  rewrite Hfr0 in Hfr. split; [congruence | exact Hfr].
Qed.

Lemma wellFormed_heavyCloud : wellFormed heavyCloud.
Proof.
  split; [cbn; lia |]. split; [exists 3; reflexivity |].
  repeat constructor; try (cbn; lia);
    try (eexists; reflexivity);
    eexists; eexists; split; reflexivity.
Qed.

Lemma heavyCloud_masses (a : addr) : 0 <= mass (store heavyCloud !!! a).
Proof.
  destruct a as [| [| [| [| a]]]]; cbn; try lra.
  destruct a; cbn; lra.
Qed.

(** The cloud of mass 31 of [heavyCloud], at address 2, in the first
    iteration of the loop, and two later ticks. *)
Lemma raining_reached_and_kept_witness :
  exists w' g' w'' g'' st0,
    tickWorld heavyCloud 10 (constantRng 0.5) = Ok (w', g')
    /\ cloudLoopStart heavyCloud 10 (constantRng 0.5) = Ok st0
    /\ rainThreshold < collectiveMass (store (loop_world st0)) 2%nat
    /\ 3%nat ∈ friends (store (loop_world st0) !!! 2%nat)
    /\ tickWorlds w' [20; 30]%Z g' = Ok (w'', g'')
    /\ ((state (store w' !!! 2%nat) = raining
         /\ forall f, f ∈ friends (store (loop_world st0) !!! 2%nat) ->
              (f < length (store (loop_world st0)))%nat ->
              state (store w' !!! f) = raining)
        /\ (forall a, (a < length (store heavyCloud))%nat ->
              state (store heavyCloud !!! a) = raining ->
              state (store w' !!! a) = raining
              /\ state (store w'' !!! a) = raining)
        /\ (forall a, (a < length (store w'))%nat ->
              state (store w' !!! a) = raining ->
              state (store w'' !!! a) = raining)).
Proof.
  destruct (tickWorld_total heavyCloud 10 (constantRng 0.5) wellFormed_heavyCloud)
    as (w' & g' & Hrun & Hwf').
  destruct (tickWorlds_total [20; 30]%Z w' g' Hwf') as (w'' & g'' & Hlater & _).
  destruct (tickWorld_via_loop _ _ _ _ _ Hrun) as (st0 & st' & Hstart & _).
  destruct (cloudLoopStart_Ok _ _ _ _ Hstart) as [Hlen Hsame].
  assert (HM : rainThreshold < collectiveMass (store (loop_world st0)) 2%nat).
  { eapply Rlt_le_trans; [| apply collectiveMass_lower_bound].
    - destruct (Hsame 2%nat) as [-> _]. unfold rainThreshold. cbn. lra.
    - intros a. destruct (Hsame a) as [-> _]. apply heavyCloud_masses. }
  exists w', g', w'', g'', st0.
  split; [exact Hrun |]. split; [exact Hstart |]. split; [exact HM |].
  split; [destruct (Hsame 2%nat) as [_ Hsub]; apply Hsub, list_elem_of_here |].
  split; [exact Hlater |].
  apply (raining_reached_and_kept heavyCloud w' w'' 10 [20; 30]%Z
           (constantRng 0.5) g' g'' st0 st0 [] [3%nat] 2%nat);
    [exact Hrun | exact Hstart | reflexivity | reflexivity | exact HM
     | rewrite Hlen; cbn; lia | exact Hlater].
Defined.

(** ** A tick with zero elapsed time *)

Lemma elapsedWorldTime_zero (w : WorldState) :
  elapsedWorldTime w (lastTick w) = 0.
Proof. unfold elapsedWorldTime. rewrite Z.sub_diag. cbn. ring. Qed.

(** *** Kinematics *)

Lemma tickedObject_zero_location (h : heap) (o : CelestialObject) :
  match orbit o with
  | Some ob =>
      location o
      = vectorMath.add (orbitPoint (orbit_shape ob) (orbit_rotation ob))
                       (location (h !!! orbit_target ob))
  | None => True
  end ->
  location (tickedObject 0 h o) = location o.
Proof.
  unfold tickedObject. destruct (orbit o) as [ob |]; [| reflexivity].
  intros ->. cbn [location set_location]. rewrite orbitPoint_Rrem.
  now replace (orbit_rotation ob + orbit_rotationalVelocity ob * 0)
    with (orbit_rotation ob) by ring.
Qed.

Lemma tickCelestialObject_zero (h : heap) (b : addr) :
  ((b < length h)%nat -> consistentAt h b) ->
  (forall a, location (tickCelestialObject 0 h b !!! a) = location (h !!! a))
  /\ (forall a, consistentAt h a -> consistentAt (tickCelestialObject 0 h b) a).
Proof.
  intros Hb.
  assert (Hloc : forall a,
            location (tickCelestialObject 0 h b !!! a) = location (h !!! a)).
  { intros a. destruct (decide (b = a)) as [<- | Hne].
    - destruct (le_lt_dec (length h) b) as [Hout | Hin].
      + now rewrite tickCelestialObject_out_of_range.
      + rewrite tickCelestialObject_self by exact Hin.
        apply tickedObject_zero_location. apply (Hb Hin).
    - now rewrite tickCelestialObject_other. }
  split; [exact Hloc |].
  intros a Ha. unfold consistentAt in Ha |- *.
  destruct (decide (b = a)) as [<- | Hne].
  - destruct (le_lt_dec (length h) b) as [Hout | Hin].
    + now rewrite tickCelestialObject_out_of_range.
    + rewrite (Hloc b). rewrite tickCelestialObject_self by exact Hin.
      unfold tickedObject.
      destruct (orbit (h !!! b)) as [ob |] eqn:Hob;
        [| cbn [orbit set_rotation]; now rewrite Hob].
      cbn [orbit set_location set_orbit set_orbit_rotation orbit_shape
             orbit_rotation orbit_target].
      rewrite Hloc, orbitPoint_Rrem.
      now replace (orbit_rotation ob + orbit_rotationalVelocity ob * 0)
        with (orbit_rotation ob) by ring.
  - rewrite tickCelestialObject_other by exact Hne.
    destruct (orbit (h !!! a)) as [ob |]; [| exact I].
    now rewrite !Hloc.
Qed.

Lemma tickCelestialObjects_zero (l : list addr) (h : heap) :
  (forall a, a ∈ l -> (a < length h)%nat -> consistentAt h a) ->
  forall a, location (tickCelestialObjects l 0 h !!! a) = location (h !!! a).
Proof.
  unfold tickCelestialObjects. revert h.
  induction l as [| b l IH]; intros h Hl a; cbn [fold_left]; [reflexivity |].
  destruct (tickCelestialObject_zero h b) as [Hloc Hcons].
  { apply Hl. apply list_elem_of_here. }
  rewrite IH; [apply Hloc |].
  intros x Hx Hlen. apply Hcons. apply Hl.
  - now apply list_elem_of_further.
  - now rewrite length_tickCelestialObject in Hlen.
Qed.

(** *** The cloud pass *)

Lemma Rmin_zero_probability (x : R) : Rmin (0.1 * 0 * x) 0.2 = 0.
Proof.
  replace (0.1 * 0 * x) with 0 by ring. unfold Rmin.
  destruct (Rle_dec 0 0.2); lra.
Qed.

(** With zero elapsed time the emission probability is 0, which no random
    draw is below: the iteration only marks, retains and possibly spawns. *)
Lemma tickCloud_zero (cs : list addr) (st st' : CloudLoop) (c : addr) :
  (forall n, 0 <= draws (loop_rng st) n) ->
  0 < mass (store (loop_world st) !!! c) ->
  tickCloud cs 0 st c = Ok st' ->
  exists spawned : heap,
    store (loop_world st')
    = markRaining (collectiveMass (store (loop_world st)) c)
        (store (loop_world st)) c ++ spawned
    /\ rain (loop_world st') = rain (loop_world st)
    /\ clouds (loop_world st') = remainingClouds st'
    /\ remainingClouds st'
       = remainingClouds st ++ c
           :: seq (length (store (loop_world st))) (length spawned)
    /\ draws (loop_rng st') = draws (loop_rng st)
    /\ ((20 <= length cs)%nat -> spawned = []).
Proof.
  intros Hdraws Hmass Hrun.
  destruct (markRaining_wetted (collectiveMass (store (loop_world st)) c)
              (store (loop_world st)) c) as [Hlen Hw].
  apply tickCloud_Ok in Hrun
    as (h2 & emitted & retain & spawned & Hstore & Hrain & _ & Hclouds
        & Hrem & Hd & Hh2 & Hretain & Hspawned).
  destruct Hh2 as [[-> ->] | (_ & _ & Hlt)].
  2: { rewrite Rmin_zero_probability in Hlt.
       specialize (Hdraws (cursor (loop_rng st))). lra. }
  destruct Hretain as [-> | [_ Hle]].
  2: { destruct (Hw c) as (_ & _ & _ & _ & _ & _ & Hm & _). lra. }
  exists spawned. rewrite app_nil_r in Hrain. rewrite Hlen in Hrem.
  split; [exact Hstore |]. split; [exact Hrain |]. split; [exact Hclouds |].
  split; [rewrite Hrem; now rewrite <- app_assoc |]. split; [exact Hd |].
  intros Hfull. destruct Hspawned as [-> | (? & _ & _ & Hlt)]; [reflexivity | lia].
Qed.

Lemma markRaining_evolves_wetted (M : R) (h : heap) (c : addr) (l : heap) :
  evolves wetted h (markRaining M h c ++ l).
Proof.
  destruct (markRaining_wetted M h c) as [Hlen Hw].
  eapply (evolves_trans wetted wetted_trans);
    [| apply (evolves_app wetted wetted_refl)].
  now apply evolves_pointwise.
Qed.

Lemma cloudLoop_zero (cs l : list addr) (st st' : CloudLoop) :
  (forall n, 0 <= draws (loop_rng st) n) ->
  (forall c, c ∈ l -> (c < length (store (loop_world st)))%nat
                      /\ 0 < mass (store (loop_world st) !!! c)) ->
  forOf (tickCloud cs 0) st l = Ok st' ->
  evolves wetted (store (loop_world st)) (store (loop_world st'))
  /\ rain (loop_world st') = rain (loop_world st)
  /\ (length (remainingClouds st') + length (store (loop_world st))
      = length (remainingClouds st) + length l + length (store (loop_world st')))%nat
  /\ (forall c, c ∈ l \/ c ∈ remainingClouds st -> c ∈ remainingClouds st')
  /\ ((20 <= length cs)%nat ->
      length (store (loop_world st')) = length (store (loop_world st)))
  /\ (l <> [] -> clouds (loop_world st') = remainingClouds st').
Proof.
  revert st. induction l as [| c l IH]; intros st Hdraws Hl Hrun.
  - injection Hrun as <-.
    split; [apply (evolves_refl wetted wetted_refl) |].
    split; [reflexivity |]. split; [cbn; lia |].
    split; [intros c [Hc | Hc]; [now apply elem_of_nil in Hc | exact Hc] |].
    split; [reflexivity | congruence].
  - cbn [forOf] in Hrun.
    destruct (tickCloud cs 0 st c) as [st1 |] eqn:Hstep; [| discriminate].
    cbn [bind] in Hrun.
    destruct (Hl c (list_elem_of_here _ _)) as [Hc Hmass].
    destruct (tickCloud_zero cs st st1 c Hdraws Hmass Hstep)
      as (spawned & Hstore & Hrain & Hclouds & Hrem & Hd & Hfull).
    assert (Hev : evolves wetted (store (loop_world st)) (store (loop_world st1))).
    { rewrite Hstore. apply markRaining_evolves_wetted. }
    destruct (markRaining_wetted (collectiveMass (store (loop_world st)) c)
                (store (loop_world st)) c) as [Hlen1 _].
    assert (Hlen : length (store (loop_world st1))
                   = (length (store (loop_world st)) + length spawned)%nat).
    { rewrite Hstore, length_app. lia. }
    destruct (IH st1) as (Hev' & Hrain' & Hcount & Hin & Hfull' & Hassigned).
    + intros n. rewrite Hd. apply Hdraws.
    + intros x Hx. destruct (Hl x (list_elem_of_further _ _ _ Hx)) as [Hxl Hxm].
      destruct Hev as [_ Hf].
      destruct (Hf x Hxl) as (_ & _ & _ & _ & _ & _ & Hm & _).
      split; [lia | now rewrite Hm].
    + exact Hrun.
    + split; [eapply (evolves_trans wetted wetted_trans); eassumption |].
      split; [congruence |]. split.
      { rewrite Hrem in Hcount. rewrite length_app in Hcount.
        cbn [length] in Hcount |- *. rewrite length_seq in Hcount. lia. }
      split.
      { intros x Hx. apply Hin.
        destruct Hx as [Hx | Hx].
        - apply elem_of_cons in Hx as [-> | Hx]; [right | now left].
          rewrite Hrem, elem_of_app, elem_of_cons. right. now left.
        - right. rewrite Hrem, elem_of_app. now left. }
      split.
      { intros H20. rewrite (Hfull' H20), Hlen, (Hfull H20). cbn. lia. }
      intros _. destruct l as [| c' l'].
      * injection Hrun as <-. exact Hclouds.
      * apply Hassigned. discriminate.
Qed.

(** *** The rain pass *)

Lemma clipMagnitude_total (v : Vector2d) (m : R) :
  0 <= m -> exists v', vectorMath.clipMagnitude v m = Some v'.
Proof.
  intros Hm. destruct (Rle_lt_dec (vectorMath.magnitude v) m) as [Hle | Hgt].
  - exists v. now apply clipMagnitude_below.
  - rewrite clipMagnitude_above by exact Hgt.
    rewrite unitVector_Some by lra. cbn. eauto.
Qed.

Lemma add_multiply_zero (p v : Vector2d) :
  vectorMath.add p (vectorMath.multiply v 0) = p.
Proof.
  destruct p as [x y], v as [vx vy]. unfold vectorMath.add, vectorMath.multiply.
  cbn [fst snd]. f_equal; ring.
Qed.

(** With zero elapsed time a particle above the surface stays where it is
    and is retained. *)
Lemma tickRainParticle_zero (planet : CelestialObject) (r : Rain) (radius : R) :
  shape planet = Circle radius -> 0 <= radius ->
  radius < vectorMath.magnitude
             (vectorMath.subtract (rain_location r) (location planet)) ->
  exists r', tickRainParticle planet 0 r = Some r'
             /\ rain_location r' = rain_location r.
Proof.
  intros Hshape Hradius Hfar. unfold tickRainParticle.
  rewrite unitVector_Some by (rewrite magnitude_subtract_sym; lra).
  destruct (clipMagnitude_total
              (vectorMath.add (rain_velocity r)
                 (vectorMath.multiply
                    ((vectorMath.subtract (location planet) (rain_location r)).1
                     / vectorMath.magnitude
                         (vectorMath.subtract (location planet) (rain_location r)),
                     (vectorMath.subtract (location planet) (rain_location r)).2
                     / vectorMath.magnitude
                         (vectorMath.subtract (location planet) (rain_location r)))
                    (gravity * 0)))
              maxRainVelocity) as (velocity & ->).
  { unfold maxRainVelocity. lra. }
  rewrite add_multiply_zero, Hshape. cbn [aboveGround]. unfold Rgtb.
  rewrite Rltb_true by exact Hfar. eauto.
Qed.

Lemma tickRain_zero (w : WorldState) (radius : R) :
  shape (store w !!! planet w) = Circle radius -> 0 <= radius ->
  (forall r, r ∈ rain w ->
     radius < vectorMath.magnitude
                (vectorMath.subtract (rain_location r)
                                     (location (store w !!! planet w)))) ->
  map rain_location (rain (tickRain w 0)) = map rain_location (rain w).
Proof.
  intros Hshape Hradius Hfar. unfold tickRain. cbn [rain set_rain].
  induction (rain w) as [| r rs IH]; [reflexivity |].
  destruct (tickRainParticle_zero (store w !!! planet w) r radius Hshape Hradius)
    as (r' & Hr' & Hloc); [apply Hfar, list_elem_of_here |].
  cbn [omap list_omap]. fold (@list_omap Rain Rain). rewrite Hr'. cbn [map].
  rewrite Hloc. f_equal. apply IH.
  intros x Hx. apply Hfar. now apply list_elem_of_further.
Qed.

Lemma cloudLoop_sameWorld (cs l : list addr) (dt : R) (st st' : CloudLoop) :
  forOf (tickCloud cs dt) st l = Ok st' ->
  sameWorld (loop_world st) (loop_world st').
Proof.
  intros Hrun.
  refine (forOf_invariant (fun s => sameWorld (loop_world st) (loop_world s))
            _ _ _ _ _ (sameWorld_refl _) Hrun).
  intros s c s' _ Hs Hstep.
  apply tickCloud_Ok in Hstep as (? & ? & ? & ? & _ & _ & Hsame & _).
  eapply sameWorld_trans; eassumption.
Qed.

(** C4, as the code has it.  Take a well-formed world in which every
    location agrees with its orbit, every cloud has positive mass and every
    rain particle is above the surface of the planet, and tick it with zero
    elapsed time.  The tick completes; it changes no location and no mass,
    moves and removes no rain particle and removes no cloud.  The cloud count
    grows by the number of clouds spawned in the tick, since the spawn check
    does not depend on the elapsed time, and is unchanged when there are 20
    clouds or more. *)
Theorem zero_delta_tick (w : WorldState) (g : Rng) (radius : R) :
  wellFormed w ->
  (forall a, a ∈ things w -> (a < length (store w))%nat ->
     consistentAt (store w) a) ->
  (forall c, c ∈ clouds w -> 0 < mass (store w !!! c)) ->
  shape (store w !!! planet w) = Circle radius -> 0 <= radius ->
  (forall r, r ∈ rain w ->
     radius < vectorMath.magnitude
                (vectorMath.subtract (rain_location r)
                                     (location (store w !!! planet w)))) ->
  (forall n, 0 <= draws g n) ->
  exists w' g',
    tickWorld w (lastTick w) g = Ok (w', g')
    /\ (forall a, (a < length (store w))%nat ->
          location (store w' !!! a) = location (store w !!! a)
          /\ mass (store w' !!! a) = mass (store w !!! a))
    /\ map rain_location (rain w') = map rain_location (rain w)
    /\ (forall c, c ∈ clouds w -> c ∈ clouds w')
    /\ (length (clouds w')
        = length (clouds w) + (length (store w') - length (store w)))%nat
    /\ ((20 <= length (clouds w))%nat -> length (clouds w') = length (clouds w)).
Proof.
  intros Hwf Hcons Hmass Hshape Hradius Hfar Hdraws.
  destruct (tickWorld_total w (lastTick w) g Hwf) as (w' & g' & Hrun & _).
  exists w', g'. split; [exact Hrun |].
  apply tickWorld_Ok in Hrun
    as (cloudGroups & h1 & st' & _ & Hcluster & Hloop & -> & _).
  cbn zeta in Hcluster, Hloop. rewrite elapsedWorldTime_zero in *.
  set (h0 := tickCelestialObjects (things w) 0 (store w)) in *.
  assert (Hlen0 : length h0 = length (store w))
    by apply length_tickCelestialObjects.
  pose proof (tickCelestialObjects_zero (things w) (store w) Hcons) as Hloc0.
  pose proof (tickCelestialObjects_moved (things w) 0 (store w)) as Hmoved.
  fold h0 in Hloc0, Hmoved.
  apply clusterClouds_inv in Hcluster as (Hlen1 & Hf1 & _).
  pose proof (cloudLoop_sameWorld _ _ _ _ _ Hloop) as (Hplanet & _).
  cbn [loop_world planet set_store set_lastTick] in Hplanet.
  destruct Hwf as (Hpl & _ & Hready).
  pose proof Hloop as Hloop0.
  apply cloudLoop_zero in Hloop
    as ([Hlen2 Hf2] & Hrain & Hcount & Hin & Hfull & Hassigned);
    [| exact Hdraws |].
  2: { intros c Hc. cbn [loop_world store set_store].
       rewrite Forall_forall in Hready. destruct (Hready c Hc) as (Hcl & _).
       split; [lia |].
       destruct (Hf1 c) as (_ & _ & _ & _ & Hm1 & _).
       destruct (Hmoved c) as (_ & _ & Hm0 & _).
       rewrite Hm1, Hm0. now apply Hmass. }
  cbn [loop_world store set_store rain set_lastTick remainingClouds length]
    in Hlen2, Hf2, Hrain, Hcount, Hin, Hfull, Hassigned.
  assert (Hsame : forall a, (a < length (store w))%nat ->
            location (store (loop_world st') !!! a) = location (store w !!! a)
            /\ mass (store (loop_world st') !!! a) = mass (store w !!! a)
            /\ shape (store (loop_world st') !!! a) = shape (store w !!! a)).
  { intros a Ha.
    destruct (Hf2 a) as (Hl2 & _ & Hs2 & _ & _ & _ & Hm2 & _); [lia |].
    destruct (Hf1 a) as (Hl1 & _ & Hs1 & _ & Hm1 & _).
    destruct (Hmoved a) as (Hs0 & _ & Hm0 & _).
    rewrite Hl2, Hl1, Hloc0, Hm2, Hm1, Hm0, Hs2, Hs1, Hs0. auto. }
  split; [| split; [| split; [| split]]].
  - intros a Ha. rewrite tickRain_store. destruct (Hsame a Ha) as (? & ? & _).
    now split.
  - rewrite tickRain_zero with (radius := radius).
    + now rewrite Hrain.
    + rewrite Hplanet. destruct (Hsame (planet w) Hpl) as (_ & _ & ->).
      exact Hshape.
    + exact Hradius.
    + intros r Hr. rewrite Hplanet.
      destruct (Hsame (planet w) Hpl) as (-> & _).
      apply Hfar. now rewrite <- Hrain.
  - intros c Hc. change (clouds (tickRain (loop_world st') 0))
      with (clouds (loop_world st')).
    rewrite Hassigned; [apply Hin; now left |].
    intros Hnil. rewrite Hnil in Hc. now apply elem_of_nil in Hc.
  - change (clouds (tickRain (loop_world st') 0)) with (clouds (loop_world st')).
    rewrite tickRain_store.
    destruct (clouds w) as [| c cs] eqn:Hcs.
    + injection Hloop0 as <-. cbn. rewrite Hcs, Hlen1, Hlen0. cbn. lia.
    + rewrite Hassigned by discriminate. lia.
  - intros H20.
    change (clouds (tickRain (loop_world st') 0)) with (clouds (loop_world st')).
    destruct (clouds w) as [| c cs] eqn:Hcs; [cbn in H20; lia |].
    rewrite Hassigned by discriminate. specialize (Hfull H20). lia.
Qed.

(** Below 20 clouds, an iteration whose spawn draw is below 0.05 creates a
    cloud, whatever the elapsed time. *)
Lemma tickCloud_spawns (cs : list addr) (dt : R) (st st' : CloudLoop) (c : addr) :
  (length cs < 20)%nat ->
  (forall n, draws (loop_rng st) n < 0.05) ->
  tickCloud cs dt st c = Ok st' ->
  length (store (loop_world st')) = S (length (store (loop_world st))).
Proof.
  intros Hcount Hdraws Hrun. unfold tickCloud in Hrun.
  destruct (rainOrRetain dt st c) as [st1 |] eqn:Hst1; [| discriminate].
  cbn [bind] in Hrun.
  apply rainOrRetain_Ok in Hst1
    as (h2 & emitted & retain & g1 & -> & Hd & Hh2 & _).
  destruct (emission_rained (store (loop_world st)) h2
              (collectiveMass (store (loop_world st)) c) c) as [Hlen _].
  { destruct Hh2 as [[-> _] | [-> _]]; [now left | now right]. }
  unfold spawnCloud, assignClouds in Hrun.
  cbn [loop_world loop_rng remainingClouds store planet set_clouds set_rain
         set_store] in Hrun.
  destruct (Nat.ltb_spec (length cs) 20); [| lia].
  unfold random in Hrun. rewrite Rltb_true in Hrun by (rewrite Hd; apply Hdraws).
  destruct (createRandomCloud _ _ _) as [[newCloud g2] |]; [| discriminate].
  cbn [bind] in Hrun. injection Hrun as <-.
  cbn [loop_world store set_clouds set_store]. rewrite length_app. cbn. lia.
Qed.

Lemma wellFormed_oneCloud (rains : list Rain) :
  wellFormed (worldOf [cloudAt 0 (0.6, 0.4) 7 0 0 5 floating []] rains).
Proof.
  split; [cbn; lia |]. split; [exists 3; reflexivity |].
  repeat constructor; try (cbn; lia);
    try (eexists; reflexivity);
    eexists; eexists; split; reflexivity.
Qed.

Lemma consistent_oneCloud (rains : list Rain) (a : addr) :
  consistentAt
    (store (worldOf [cloudAt 0 (0.6, 0.4) 7 0 0 5 floating []] rains)) a.
Proof.
  unfold consistentAt.
  destruct a as [| [| [| a]]]; cbn;
    unfold vectorMath.add, circleHelpers.calcRotationalPoint; cbn [fst snd];
    try exact I; try (f_equal; ring).
Qed.

(** The world [calmWorld], ticked with zero elapsed time, when no spawn draw
    succeeds. *)
Lemma zero_delta_tick_witness :
  wellFormed calmWorld
  /\ (forall n, 0 <= draws (constantRng 0.5) n)
  /\ exists w' g',
       tickWorld calmWorld (lastTick calmWorld) (constantRng 0.5) = Ok (w', g')
       /\ (forall a, (a < length (store calmWorld))%nat ->
             location (store w' !!! a) = location (store calmWorld !!! a)
             /\ mass (store w' !!! a) = mass (store calmWorld !!! a))
       /\ map rain_location (rain w') = map rain_location (rain calmWorld)
       /\ (forall c, c ∈ clouds calmWorld -> c ∈ clouds w')
       /\ (length (clouds w')
           = length (clouds calmWorld)
             + (length (store w') - length (store calmWorld)))%nat
       /\ ((20 <= length (clouds calmWorld))%nat ->
           length (clouds w') = length (clouds calmWorld)).
Proof.
  assert (Hdraws : forall n, 0 <= draws (constantRng 0.5) n)
    by (intros n; cbn; lra).
  split; [apply wellFormed_oneCloud |]. split; [exact Hdraws |].
  apply (zero_delta_tick calmWorld (constantRng 0.5) 3).
  - apply wellFormed_oneCloud.
  - intros a _ _. apply consistent_oneCloud.
  - intros c Hc. change (clouds calmWorld) with [2%nat] in Hc.
    apply list_elem_of_singleton in Hc as ->. cbn. lra.
  - reflexivity.
  - lra.
  - intros r Hr. change (rain calmWorld) with [mkRain (5, 0) (0, 0)] in Hr.
    apply list_elem_of_singleton in Hr as ->.
    unfold vectorMath.subtract. cbn [rain_location location fst snd].
    change (location (store calmWorld !!! planet calmWorld)) with ((0, 0) : Vector2d).
    cbn [fst snd].
    replace (5 - 0, 0 - 0) with ((5, 0) : Vector2d) by (f_equal; ring).
    rewrite magnitude_on_axis; lra.
  - exact Hdraws.
Defined.

(** C4, as stated, fails: a tick with zero elapsed time of a world with one
    cloud, in which the spawn draw is below 0.05, ends with two clouds. *)
Lemma zero_delta_tick_spawns_cloud :
  exists w' g',
    tickWorld oneCloudWorld (lastTick oneCloudWorld) (constantRng 0) = Ok (w', g')
    /\ length (clouds oneCloudWorld) = 1%nat
    /\ length (clouds w') = 2%nat.
Proof.
  destruct (tickWorld_total oneCloudWorld (lastTick oneCloudWorld) (constantRng 0)
              (wellFormed_oneCloud [])) as (w' & g' & Hrun & _).
  exists w', g'. split; [exact Hrun |]. split; [reflexivity |].
  apply tickWorld_Ok in Hrun
    as (cloudGroups & h1 & st' & _ & Hcluster & Hloop & -> & _).
  cbn zeta in Hloop. rewrite elapsedWorldTime_zero in Hloop.
  change (clouds oneCloudWorld) with [2%nat] in Hloop.
  cbn [forOf] in Hloop.
  destruct (tickCloud [2%nat] 0 _ 2%nat) as [st1 |] eqn:Hstep; [| discriminate].
  cbn [bind] in Hloop. injection Hloop as <-.
  assert (Hgrow : length (store (loop_world st1))
                  = S (length (store (loop_world
                         (mkCloudLoop
                            (set_store h1 (set_lastTick (lastTick oneCloudWorld)
                                             oneCloudWorld))
                            [] (constantRng 0)))))).
  { eapply tickCloud_spawns; [| | exact Hstep]; [cbn; lia |].
    intros n. cbn. lra. }
  apply tickCloud_zero in Hstep as (spawned & Hstore & _ & Hclouds & Hrem & _).
  - change (length (clouds (loop_world st1)) = 2%nat).
    rewrite Hclouds, Hrem. cbn [remainingClouds app length].
    rewrite length_seq. rewrite Hstore, length_app in Hgrow.
    destruct (markRaining_wetted
                (collectiveMass (store (set_store h1
                   (set_lastTick (lastTick oneCloudWorld) oneCloudWorld))) 2%nat)
                (store (set_store h1
                   (set_lastTick (lastTick oneCloudWorld) oneCloudWorld))) 2%nat)
      as [Hlen _].
    cbn [loop_world] in Hgrow. lia.
  - intros n. cbn. lra.
  - cbn [loop_world store set_store].
    apply clusterClouds_inv in Hcluster as (_ & Hf1 & _).
    destruct (Hf1 2%nat) as (_ & _ & _ & _ & -> & _).
    destruct (tickCelestialObjects_moved (things oneCloudWorld)
                (elapsedWorldTime oneCloudWorld (lastTick oneCloudWorld))
                (store oneCloudWorld) 2%nat) as (_ & _ & -> & _).
    cbn. lra.
Qed.

(** ** Which clouds the clustering step befriends *)

Lemma clusterPairs_inv (h0 : heap) (cloud : addr) (l : list addr) (h h' : heap) :
  clusterInv h0 (fun _ _ => True) h ->
  forOf (clusterPair cloud) h l = Ok h' ->
  clusterInv h0 (fun _ _ => True) h'.
Proof.
  intros Hinv Hrun.
  refine (forOf_invariant (clusterInv h0 (fun _ _ => True)) _ _ _ _ _ Hinv Hrun).
  intros s x s' _ Hs Hstep.
  now apply (clusterPair_inv h0 (fun _ _ => True) cloud x s s').
Qed.

Lemma clusterRows_inv (h0 : heap) (group l : list addr) (h h' : heap) :
  clusterInv h0 (fun _ _ => True) h ->
  forOf (fun h cloud => forOf (clusterPair cloud) h group) h l = Ok h' ->
  clusterInv h0 (fun _ _ => True) h'.
Proof.
  intros Hinv Hrun.
  refine (forOf_invariant (clusterInv h0 (fun _ _ => True)) _ _ _ _ _ Hinv Hrun).
  intros s x s' _ Hs Hstep. eapply clusterPairs_inv; eassumption.
Qed.

Lemma clusterGroups_inv (h0 : heap) (l : list (list addr)) (h h' : heap) :
  clusterInv h0 (fun _ _ => True) h ->
  forOf clusterGroup h l = Ok h' ->
  clusterInv h0 (fun _ _ => True) h'.
Proof.
  intros Hinv Hrun.
  refine (forOf_invariant (clusterInv h0 (fun _ _ => True)) _ _ _ _ _ Hinv Hrun).
  intros s x s' _ Hs Hstep. eapply clusterRows_inv; eassumption.
Qed.

Lemma clusterInv_trans (h0 h1 h2 : heap) :
  clusterInv h0 (fun _ _ => True) h1 -> clusterInv h1 (fun _ _ => True) h2 ->
  length h2 = length h0 /\ forall a, clustered (h0 !!! a) (h2 !!! a).
Proof.
  intros (Hl1 & Hf1 & _) (Hl2 & Hf2 & _). split; [congruence |].
  intros a. eapply clustered_trans; [apply Hf1 | apply Hf2].
Qed.

Lemma near_frame_forward (h0 h : heap) (a b : addr) :
  (forall x, clustered (h0 !!! x) (h !!! x)) -> near h0 a b -> near h a b.
Proof.
  intros Hf (axes & Hs & Hd). exists axes.
  destruct (Hf a) as (Hla & _ & Hsa & _). destruct (Hf b) as (Hlb & _).
  unfold distance in *. rewrite Hla, Hlb. split; congruence.
Qed.

(** A pair that passes the test of the code is befriended. *)
Lemma clusterPair_near_Ok (cloud otherCloud : addr) (h h' : heap) :
  clusterPair cloud h otherCloud = Ok h' ->
  cloud <> otherCloud -> near h cloud otherCloud ->
  exists cloudOrbit' otherOrbit,
    orbit (h !!! cloud) = Some cloudOrbit'
    /\ orbit (h !!! otherCloud) = Some otherOrbit
    /\ h' = befriend cloud otherCloud cloudOrbit' otherOrbit h.
Proof.
  intros Hrun Hne (axes & Hs & Hd). unfold clusterPair in Hrun.
  rewrite Hs in Hrun. rewrite decide_False in Hrun by exact Hne.
  fold (distance h cloud otherCloud) in Hrun.
  rewrite Rltb_true in Hrun by exact Hd. unfold cloudOrbit in Hrun.
  destruct (orbit (h !!! otherCloud)) as [oo |]; [| discriminate].
  destruct (orbit (h !!! cloud)) as [co |]; [| discriminate].
  cbn [bind] in Hrun. injection Hrun as <-. now exists co, oo.
Qed.

(** Two distinct clouds of a common group, the first of which passes the
    test of the code against the second, end the clustering step as friends
    of each other. *)
Lemma clusterClouds_befriends (h h' : heap) (cloudGroups : list (list addr))
    (a b : addr) :
  clusterClouds h cloudGroups = Ok h' ->
  sharesGroup cloudGroups a b -> a <> b ->
  (a < length h)%nat -> (b < length h)%nat -> near h a b ->
  b ∈ friends (h' !!! a) /\ a ∈ friends (h' !!! b).
Proof.
  intros Hrun (group & Hgroup & Ha & Hb) Hne Hla Hlb Hnear.
  unfold clusterClouds in Hrun.
  destruct (forOf_at _ _ group _ _ Hgroup Hrun)
    as (G1 & G2 & s1 & s2 & HG & Hpre1 & Hrows & Hpost1).
  pose proof (clusterGroups_inv h _ _ _ (clusterInv_start h _) Hpre1) as Hinv1.
  unfold clusterGroup in Hrows.
  destruct (forOf_at _ _ a _ _ Ha Hrows)
    as (p1 & p2 & t1 & t2 & Hp & Hpre2 & Hrow & Hpost2).
  pose proof (clusterRows_inv s1 _ _ _ _ (clusterInv_start s1 _) Hpre2) as Hinv2.
  destruct (forOf_at _ _ b _ _ Hb Hrow)
    as (q1 & q2 & u1 & u2 & Hq & Hpre3 & Hpair & Hpost3).
  pose proof (clusterPairs_inv t1 _ _ _ _ (clusterInv_start t1 _) Hpre3) as Hinv3.
  destruct (clusterInv_trans _ _ _ Hinv1 Hinv2) as [Hlen12 Hf12].
  assert (Hinv12 : clusterInv h (fun _ _ => True) t1).
  { split; [exact Hlen12 |]. split; [exact Hf12 |].
    intros x y Hy. destruct Hinv1 as (_ & Hf1 & Hn1).
    destruct Hinv2 as (_ & _ & Hn2).
    destruct (Hn2 x y Hy) as [Hold | (Hxy & _ & Hnr)].
    - apply Hn1. exact Hold.
    - right. split; [exact Hxy |]. split; [exact I |].
      destruct Hnr as [Hnr | Hnr]; [left | right];
        now apply (near_frame h s1). }
  destruct (clusterInv_trans _ _ _ Hinv12 Hinv3) as [Hlen3 Hf3].
  apply clusterPair_near_Ok in Hpair as (co & oo & _ & _ & ->);
    [| exact Hne | now apply (near_frame_forward h)].
  destruct (befriend_mutual a b co oo u1) as [Hab Hba]; [lia | lia |].
  pose proof (clusterPairs_inv _ _ _ _ _ (clusterInv_start _ _) Hpost3)
    as (_ & Hf4 & _).
  pose proof (clusterRows_inv _ _ _ _ _ (clusterInv_start _ _) Hpost2)
    as (_ & Hf5 & _).
  pose proof (clusterGroups_inv _ _ _ _ (clusterInv_start _ _) Hpost1)
    as (_ & Hf6 & _).
  assert (Hkeep : forall x y,
            y ∈ friends (befriend a b co oo u1 !!! x) -> y ∈ friends (h' !!! x)).
  { intros x y Hy.
    destruct (Hf4 x) as (_ & _ & _ & _ & _ & _ & _ & H4).
    destruct (Hf5 x) as (_ & _ & _ & _ & _ & _ & _ & H5).
    destruct (Hf6 x) as (_ & _ & _ & _ & _ & _ & _ & H6). auto. }
  split; now apply Hkeep.
Qed.

(** C3, as the code has it.  Nothing empties a friend set: after a tick of a
    well-formed world, every object still has all the friends it had before.
    Its friends after the tick are exactly those and the clouds that shared a
    group with it in this tick and passed the proximity test of the code, one
    way or the other. *)
Theorem friends_accumulate (w : WorldState) (now : Z) (g : Rng) :
  wellFormed w ->
  exists w' g',
    tickWorld w now g = Ok (w', g')
    /\ (forall a b, (a < length (store w))%nat ->
          b ∈ friends (store w !!! a) -> b ∈ friends (store w' !!! a))
    /\ (let h0 := tickCelestialObjects (things w)
                    (elapsedWorldTime w now) (store w) in
        let cloudGroups := map (cloudGroup h0 (clouds w)) cloudRanges in
        (forall a b, (a < length (store w))%nat ->
           b ∈ friends (store w' !!! a) ->
           b ∈ friends (store w !!! a)
           \/ (a <> b /\ a ∈ clouds w /\ b ∈ clouds w
               /\ sharesGroup cloudGroups a b
               /\ (near h0 a b \/ near h0 b a)))
        /\ (forall a b, sharesGroup cloudGroups a b -> a <> b -> near h0 a b ->
              b ∈ friends (store w' !!! a) /\ a ∈ friends (store w' !!! b))).
Proof.
  intros Hwf. destruct (tickWorld_total w now g Hwf) as (w' & g' & Hrun & _).
  exists w', g'. split; [exact Hrun |].
  pose proof (tickWorld_ticked _ _ _ _ _ Hrun) as [_ Hticked].
  split.
  { intros a b Ha Hb. destruct (Hticked a Ha) as (_ & _ & Hsub & _). auto. }
  cbn zeta.
  pose proof (getCloudGroups_Ok _ _
                (wellFormed_kinematics w (elapsedWorldTime w now) Hwf))
    as Hgroups.
  pose proof (tickWorld_Ok _ _ _ _ _ Hrun)
    as (cloudGroups & h1 & st' & Hgroups' & Hcluster & _).
  cbn zeta in Hgroups', Hcluster.
  assert (Heq : cloudGroups
                = map (cloudGroup
                         (tickCelestialObjects (things w)
                            (elapsedWorldTime w now) (store w)) (clouds w))
                      cloudRanges) by congruence.
  subst cloudGroups. clear Hgroups'.
  pose proof (tickWorld_after_kinematics _ _ _ _ _ _ _ Hrun Hgroups Hcluster)
    as Hafter.
  split.
  - intros a b Ha Hb. destruct (Hafter a Ha) as (_ & _ & Hfr).
    rewrite Hfr in Hb.
    apply clusterClouds_inv in Hcluster as (_ & _ & Hnew).
    destruct (Hnew a b Hb) as [Hold | (Hne & Hshare & Hnear)].
    + left.
      destruct (tickCelestialObjects_moved (things w) (elapsedWorldTime w now)
                  (store w) a) as (_ & _ & _ & _ & Hfr0 & _).
      now rewrite <- Hfr0.
    + right. pose proof (sharesGroup_clouds _ _ _ _ _ Hshare) as [Hac Hbc].
      auto.
  - intros a b Hshare Hne Hnear.
    pose proof (sharesGroup_clouds _ _ _ _ _ Hshare) as [Hac Hbc].
    destruct Hwf as (_ & _ & Hready). rewrite Forall_forall in Hready.
    destruct (Hready a Hac) as (Hla & _). destruct (Hready b Hbc) as (Hlb & _).
    destruct (clusterClouds_befriends _ _ _ a b Hcluster Hshare Hne) as [Hab Hba];
      [now rewrite length_tickCelestialObjects
      | now rewrite length_tickCelestialObjects | exact Hnear |].
    destruct (Hafter a Hla) as (_ & _ & ->).
    destruct (Hafter b Hlb) as (_ & _ & ->). now split.
Qed.

(** The friends of the two clouds of [farFriends] through a tick. *)
Lemma friends_accumulate_witness :
  wellFormed farFriends
  /\ exists w' g',
       tickWorld farFriends 10 (constantRng 0.5) = Ok (w', g')
       /\ (forall a b, (a < length (store farFriends))%nat ->
             b ∈ friends (store farFriends !!! a) -> b ∈ friends (store w' !!! a))
       /\ (let h0 := tickCelestialObjects (things farFriends)
                       (elapsedWorldTime farFriends 10) (store farFriends) in
           let cloudGroups :=
             map (cloudGroup h0 (clouds farFriends)) cloudRanges in
           (forall a b, (a < length (store farFriends))%nat ->
              b ∈ friends (store w' !!! a) ->
              b ∈ friends (store farFriends !!! a)
              \/ (a <> b /\ a ∈ clouds farFriends /\ b ∈ clouds farFriends
                  /\ sharesGroup cloudGroups a b
                  /\ (near h0 a b \/ near h0 b a)))
           /\ (forall a b, sharesGroup cloudGroups a b -> a <> b ->
                 near h0 a b ->
                 b ∈ friends (store w' !!! a) /\ a ∈ friends (store w' !!! b))).
Proof.
  split; [exact wellFormed_farFriends |].
  apply (friends_accumulate farFriends 10 (constantRng 0.5)).
  exact wellFormed_farFriends.
Defined.

(** ** The proximity test on clouds of different size *)

Lemma INR_cloudRangeCount : INR cloudRangeCount = 10.
Proof. unfold cloudRangeCount. now rewrite INR_IZR_INZ. Qed.

(** The rotation 0 lies in the first range, which wraps around. *)
Lemma inCloudRange_first_zero : inCloudRange (cloudRange 0) 0 = true.
Proof.
  assert (Hpi := PI_RGT_0).
  unfold cloudRange, inCloudRange. rewrite INR_cloudRangeCount.
  cbn [Nat.eqb cloudRangeCount Nat.sub INR]. unfold Rgtb.
  rewrite (Rltb_true (PI * 2 / 10 * 0 + PI * 2 / 10 + PI * 2 / 10 / 2)
             (PI * 2 - PI * 2 / 10 / 2)) by lra.
  rewrite (Rltb_true 0 (PI * 2 / 10 * 0 + PI * 2 / 10 + PI * 2 / 10 / 2)) by lra.
  cbn. now rewrite orb_true_r.
Qed.

Lemma Rmin_075_055 : Rmin 0.75 0.55 = 0.55.
Proof. unfold Rmin. destruct (Rle_dec 0.75 0.55); lra. Qed.

Lemma wellFormed_unequalClouds : wellFormed unequalClouds.
Proof.
  split; [cbn; lia |]. split; [exists 3; reflexivity |].
  repeat constructor; try (cbn; lia);
    try (eexists; reflexivity);
    eexists; eexists; split; reflexivity.
Qed.

Lemma unequalClouds_distance :
  distance (store unequalClouds) 3%nat 2%nat = 0.67
  /\ distance (store unequalClouds) 2%nat 3%nat = 0.67.
Proof.
  assert (H : distance (store unequalClouds) 2%nat 3%nat = 0.67).
  { unfold distance. cbn.
    unfold circleHelpers.calcRotationalPoint, vectorMath.subtract,
      vectorMath.magnitude. cbn [fst snd]. rewrite cos_0, sin_0.
    replace ((7.67 * 1 - 7 * 1) ^ 2 + (7.67 * 0 - 7 * 0) ^ 2)
      with (0.67 * 0.67) by lra.
    apply sqrt_square. lra. }
  split; [| exact H].
  unfold distance in *. now rewrite magnitude_subtract_sym.
Qed.

(** C2, at two clouds of different size in a common group.  The smaller
    cloud, at address 2, has shape (0.6, 0.4), the larger one, at address 3,
    has shape (0.75, 0.55), and they are 0.67 apart.  With one quarter of
    the minimum of the other cloud's shape, the bound is 0.5375 for the pair
    (2, 3) and 0.65 for the pair (3, 2), so the distance is below neither.
    The code takes both minima in the shape of the first cloud of the pair:
    for (3, 2) its bound is 0.6875, the pair passes, the velocity of cloud 2
    is overwritten with that of cloud 3, and the clustering step ends with
    the two clouds as friends of each other. *)
Theorem clustering_reads_first_shape_twice :
  getCloudGroups (store unequalClouds) (clouds unequalClouds)
  = Ok (map (cloudGroup (store unequalClouds) (clouds unequalClouds)) cloudRanges)
  /\ sharesGroup
       (map (cloudGroup (store unequalClouds) (clouds unequalClouds)) cloudRanges)
       3%nat 2%nat
  /\ distance (store unequalClouds) 3%nat 2%nat = 0.67
  /\ ~ nearOther (store unequalClouds) 2%nat 3%nat
  /\ ~ nearOther (store unequalClouds) 3%nat 2%nat
  /\ near (store unequalClouds) 3%nat 2%nat
  /\ clusterPair 2%nat (store unequalClouds) 3%nat = Ok (store unequalClouds)
  /\ (exists h1,
        clusterPair 3%nat (store unequalClouds) 2%nat = Ok h1
        /\ orbit_rotationalVelocity <$> orbit (store unequalClouds !!! 2%nat)
           = Some 0.004
        /\ orbit_rotationalVelocity <$> orbit (h1 !!! 2%nat) = Some 0.007)
  /\ exists h',
       clusterClouds (store unequalClouds)
         (map (cloudGroup (store unequalClouds) (clouds unequalClouds)) cloudRanges)
       = Ok h'
       /\ 3%nat ∈ friends (h' !!! 2%nat)
       /\ 2%nat ∈ friends (h' !!! 3%nat).
Proof.
  destruct wellFormed_unequalClouds as (_ & _ & Hready).
  destruct unequalClouds_distance as [Hd32 Hd23].
  assert (Hnear : near (store unequalClouds) 3%nat 2%nat).
  { exists (0.75, 0.55). split; [reflexivity |].
    cbn [fst snd]. rewrite Hd32, Rmin_075_055. lra. }
  assert (Hshare : sharesGroup
            (map (cloudGroup (store unequalClouds) (clouds unequalClouds))
                 cloudRanges) 3%nat 2%nat).
  { exists (cloudGroup (store unequalClouds) (clouds unequalClouds) (cloudRange 0)).
    split; [apply list_elem_of_here |].
    split; apply list_elem_of_In, filter_In;
      (split; [cbn; tauto | cbn; apply inCloudRange_first_zero]). }
  split; [now apply getCloudGroups_Ok |]. split; [exact Hshare |].
  split; [exact Hd32 |]. split; [| split; [| split; [exact Hnear |]]].
  - intros (axes & otherAxes & Hs & Hso & Hlt).
    injection Hs as <-. injection Hso as <-. cbn [fst snd] in Hlt.
    rewrite Hd23, Rmin_06_04, Rmin_075_055 in Hlt. lra.
  - intros (axes & otherAxes & Hs & Hso & Hlt).
    injection Hs as <-. injection Hso as <-. cbn [fst snd] in Hlt.
    rewrite Hd32, Rmin_06_04, Rmin_075_055 in Hlt. lra.
  - split; [| split].
    + apply (clusterPair_far _ _ _ (0.6, 0.4)); [reflexivity |].
      cbn [fst snd]. rewrite Hd23, Rmin_06_04. lra.
    + eexists. split.
      * apply (clusterPair_near _ _ _ (0.75, 0.55));
          [lia | reflexivity | | reflexivity | reflexivity].
        cbn [fst snd]. rewrite Hd32, Rmin_075_055. lra.
      * split; reflexivity.
    + destruct (clusterClouds_total (store unequalClouds)
                  (map (cloudGroup (store unequalClouds) (clouds unequalClouds))
                       cloudRanges)) as (h' & Hrun).
      { intros group c Hgroup Hc.
        apply list_elem_of_In, in_map_iff in Hgroup as (range & <- & _).
        apply elem_of_cloudGroup in Hc.
        rewrite Forall_forall in Hready. now apply Hready. }
      exists h'. split; [exact Hrun |].
      destruct (clusterClouds_befriends _ _ _ 3%nat 2%nat Hrun Hshare)
        as [H23 H32]; [lia | cbn; lia | cbn; lia | exact Hnear |].
      now split.
Qed.

(** ** The constructed world *)

Lemma createRandomCloud_placed (h : heap) (p : addr) (g : Rng) (radius : R) :
  shape (h !!! p) = Circle radius ->
  exists o g', createRandomCloud h p g = Ok (o, g') /\ placedAround p o.
Proof.
  intros Hs. unfold createRandomCloud. rewrite Hs. unfold random.
  eexists _, _. split; [reflexivity |]. split.
  - unfold freshCloud. cbn. split; [eauto |]. split; [eauto |]. tauto.
  - cbn. eexists _, _. repeat split; reflexivity.
Qed.

Lemma createRandomClouds_placed (n : nat) (h : heap) (p : addr) (g : Rng)
    (radius : R) :
  shape (h !!! p) = Circle radius ->
  exists cs g',
    createRandomClouds n h p g = Ok (cs, g')
    /\ length cs = n /\ Forall (placedAround p) cs.
Proof.
  intros Hs. revert g. induction n as [| n IH]; intros g.
  - exists [], g. repeat split. constructor.
  - destruct (createRandomCloud_placed h p g radius Hs) as (o & g1 & Ho & Hplaced).
    destruct (IH g1) as (cs & g' & Hcs & Hlen & Hall).
    exists (o :: cs), g'. cbn [createRandomClouds]. rewrite Ho. cbn [bind].
    rewrite Hcs. cbn [bind]. split; [reflexivity |].
    split; [cbn; lia | now constructor].
Qed.

(** [createInitialWorldState] returns a well-formed world with 20 clouds and
    no rain.  Its planet has no orbit, the sun and every cloud orbit the
    planet, every location agrees with its orbit, and every cloud has
    mass 5. *)
Lemma createInitialWorldState_Ok (now : Z) (g : Rng) :
  exists w g',
    createInitialWorldState now g = Ok (w, g')
    /\ wellFormed w
    /\ length (clouds w) = 20%nat /\ rain w = []
    /\ shape (store w !!! planet w) = Circle 3
    /\ orbit (store w !!! planet w) = None
    /\ (forall a, a ∈ things w -> a <> planet w ->
          orbitsAround (store w) a (planet w))
    /\ (forall a, a ∈ things w -> consistentAt (store w) a)
    /\ (forall c, c ∈ clouds w -> mass (store w !!! c) = 5).
Proof.
  destruct (createRandomClouds_placed 20 [initialPlanet] 0%nat g 3 eq_refl)
    as (cs & g' & Hcs & Hlen & Hall).
  eexists _, g'. unfold createInitialWorldState. rewrite Hcs. cbn [bind].
  split; [reflexivity |].
  unfold wellFormed, things. cbn [clouds rain store planet sun].
  assert (Hcloud : forall c, c ∈ seq 1 (length cs) ->
            (c < length ([initialPlanet] ++ cs ++ [initialSun 0]))%nat
            /\ exists o, ([initialPlanet] ++ cs ++ [initialSun 0]) !!! c = o
                         /\ placedAround 0%nat o).
  { intros c Hc. apply elem_of_seq in Hc as [Hc1 Hc2].
    destruct c as [| i]; [lia |].
    split; [rewrite !length_app; cbn; lia |].
    change (([initialPlanet] ++ cs ++ [initialSun 0]) !!! S i)
      with ((cs ++ [initialSun 0]) !!! i).
    rewrite lookup_total_app_l by lia.
    eexists. split; [reflexivity |].
    rewrite Forall_forall in Hall. apply Hall.
    apply list_elem_of_lookup_total_2. lia. }
  assert (Hsun : ([initialPlanet] ++ cs ++ [initialSun 0]) !!! S (length cs)
                 = initialSun 0).
  { change (([initialPlanet] ++ cs ++ [initialSun 0]) !!! S (length cs))
      with ((cs ++ [initialSun 0]) !!! length cs).
    now apply list_lookup_total_middle. }
  split; [| split; [now rewrite length_seq |]].
  { split; [cbn; lia |]. split; [exists 3; reflexivity |].
    apply Forall_forall. intros c Hc.
    destruct (Hcloud c Hc) as (Hlt & o & Ho & (Hs & Hob & _) & _).
    unfold cloudReady. rewrite Ho. auto. }
  split; [reflexivity |]. split; [reflexivity |]. split; [reflexivity |].
  split; [| split].
  - intros a Ha Hne. apply elem_of_cons in Ha as [-> | Ha].
    + unfold orbitsAround. rewrite Hsun. eexists. split; reflexivity.
    + apply elem_of_cons in Ha as [-> | Ha]; [contradiction |].
      destruct (Hcloud a Ha) as (_ & o & Ho & _ & ob & r & Hob & Ht & _).
      unfold orbitsAround. rewrite Ho. eauto.
  - intros a Ha. unfold consistentAt.
    apply elem_of_cons in Ha as [-> | Ha].
    + rewrite Hsun. cbn.
      unfold vectorMath.add. cbn [fst snd]. f_equal; ring.
    + apply elem_of_cons in Ha as [-> | Ha]; [exact I |].
      destruct (Hcloud a Ha) as (_ & o & Ho & _ & ob & r & Hob & Ht & Hshape & Hloc).
      rewrite Ho, Hob, Hloc, Hshape, Ht. cbn.
      unfold vectorMath.add, circleHelpers.calcRotationalPoint. cbn [fst snd].
      f_equal; ring.
  - intros c Hc.
    destruct (Hcloud c Hc) as (_ & o & Ho & (_ & _ & _ & Hm & _) & _).
    now rewrite Ho.
Qed.

(** The spawn check runs in every iteration of the loop over the clouds, not
    once per tick: below 20 clouds, when every draw is below 0.05, a tick
    creates as many clouds as it iterates over. *)
Lemma cloudLoop_spawns_per_cloud (cs l : list addr) (dt : R) (st st' : CloudLoop) :
  (length cs < 20)%nat ->
  (forall n, draws (loop_rng st) n < 0.05) ->
  forOf (tickCloud cs dt) st l = Ok st' ->
  length (store (loop_world st'))
  = (length (store (loop_world st)) + length l)%nat.
Proof.
  intros Hcount. revert st. induction l as [| c l IH]; intros st Hdraws Hrun.
  - injection Hrun as <-. cbn. lia.
  - cbn [forOf] in Hrun.
    destruct (tickCloud cs dt st c) as [st1 |] eqn:Hstep; [| discriminate].
    cbn [bind] in Hrun.
    pose proof (tickCloud_spawns cs dt st st1 c Hcount Hdraws Hstep) as Hgrow.
    apply tickCloud_Ok in Hstep
      as (_ & _ & _ & _ & _ & _ & _ & _ & _ & Hd & _).
    rewrite (IH st1); [cbn; lia | | exact Hrun].
    intros n. rewrite Hd. apply Hdraws.
Qed.

(** * Further properties of the code *)

(** ** vectorMath.tsx *)

Lemma magnitude_rotate (v : Vector2d) (angle : R) :
  vectorMath.magnitude (vectorMath.rotate v angle) = vectorMath.magnitude v.
Proof.
  destruct v as [x y]. unfold vectorMath.magnitude, vectorMath.rotate.
  cbn [fst snd]. f_equal.
  pose proof (sin2_cos2 angle) as H. unfold Rsqr in H. nra.
Qed.

Lemma rotate_back (v : Vector2d) (a : R) :
  vectorMath.rotate (vectorMath.rotate v a) (- a) = v.
Proof.
  destruct v as [x y]. unfold vectorMath.rotate. rewrite cos_neg, sin_neg.
  pose proof (sin2_cos2 a) as H. unfold Rsqr in H. f_equal.
  - transitivity (x * (sin a * sin a + cos a * cos a)); [ring | rewrite H; ring].
  - transitivity (y * (sin a * sin a + cos a * cos a)); [ring | rewrite H; ring].
Qed.

Lemma rotate_forth (v : Vector2d) (a : R) :
  vectorMath.rotate (vectorMath.rotate v (- a)) a = v.
Proof. rewrite <- (Ropp_involutive a) at 2. apply rotate_back. Qed.

(** X1.  [rotate] is a rigid motion about the origin: it keeps the magnitude
    of the vector, rotating by [a] and then by [b] is rotating by [a + b],
    rotating by 0 changes nothing, and rotating back by [- a] restores the
    vector. *)
Theorem rotate_is_rigid (v : Vector2d) (a b : R) :
  vectorMath.magnitude (vectorMath.rotate v a) = vectorMath.magnitude v
  /\ vectorMath.rotate (vectorMath.rotate v a) b = vectorMath.rotate v (a + b)
  /\ vectorMath.rotate v 0 = v
  /\ vectorMath.rotate (vectorMath.rotate v a) (- a) = v.
Proof.
  split; [apply magnitude_rotate |].
  split; [| split; [| apply rotate_back]].
  - destruct v as [x y]. unfold vectorMath.rotate.
    rewrite cos_plus, sin_plus. f_equal; ring.
  - destruct v as [x y]. unfold vectorMath.rotate.
    rewrite cos_0, sin_0. f_equal; ring.
Qed.

Lemma magnitude_multiply_abs (v : Vector2d) (b : R) :
  vectorMath.magnitude (vectorMath.multiply v b) = vectorMath.magnitude v * Rabs b.
Proof.
  destruct v as [x y]. unfold vectorMath.magnitude, vectorMath.multiply.
  cbn [fst snd].
  replace ((x * b) ^ 2 + (y * b) ^ 2) with ((x ^ 2 + y ^ 2) * b²)
    by (unfold Rsqr; ring).
  rewrite sqrt_mult_alt by nra. now rewrite sqrt_Rsqr_abs.
Qed.

Lemma multiply_unitVector (a u : Vector2d) :
  vectorMath.unitVector a = Some u ->
  vectorMath.multiply u (vectorMath.magnitude a) = a.
Proof.
  intros H. destruct (Req_dec_T (vectorMath.magnitude a) 0) as [E | E].
  - rewrite (unitVector_None a E) in H. discriminate.
  - rewrite (unitVector_Some a E) in H. injection H as <-.
    destruct a as [x y]. unfold vectorMath.multiply. cbn [fst snd].
    f_equal; field; exact E.
Qed.

(** X2.  [unitVector] is undefined (non-finite) for the zero vector and for
    no other; where it is defined its result has magnitude 1, and scaling
    the result by the magnitude of the argument gives the argument back. *)
Theorem unitVector_normalizes (a : Vector2d) :
  (vectorMath.unitVector a = None <-> a = (0, 0))
  /\ (forall u, vectorMath.unitVector a = Some u ->
        vectorMath.magnitude u = 1
        /\ vectorMath.multiply u (vectorMath.magnitude a) = a).
Proof.
  split.
  - rewrite <- magnitude_zero_iff. split.
    + intros H. destruct (Req_dec_T (vectorMath.magnitude a) 0) as [E | E];
        [exact E |].
      rewrite (unitVector_Some a E) in H. discriminate.
    + apply unitVector_None.
  - intros u H. split; [exact (magnitude_unitVector a u H) |].
    exact (multiply_unitVector a u H).
Qed.

(** X3.  [clipMagnitude] by the sign of its bound.  For a bound that is not
    negative, clipping twice is clipping once: the result of [clipMagnitude]
    is itself within the bound.  With a negative bound [m] it always takes
    its scaling branch: the zero vector gives a non-finite result, and any
    other vector gives its unit vector scaled by [m], which points the
    opposite way and has magnitude [- m], above the bound. *)
Theorem clipMagnitude_by_sign_of_bound (v : Vector2d) (m : R) :
  (0 <= m ->
   (vectorMath.clipMagnitude v m ≫= fun w => vectorMath.clipMagnitude w m)
   = vectorMath.clipMagnitude v m)
  /\ (m < 0 ->
      (v = (0, 0) -> vectorMath.clipMagnitude v m = None)
      /\ (v <> (0, 0) ->
          exists u, vectorMath.unitVector v = Some u
                    /\ vectorMath.clipMagnitude v m
                       = Some (vectorMath.multiply u m)
                    /\ vectorMath.magnitude (vectorMath.multiply u m) = - m)).
Proof.
  split.
  - intros Hm.
    destruct (Rle_lt_dec (vectorMath.magnitude v) m) as [Hle | Hgt].
    + rewrite (clipMagnitude_below v m Hle). cbn [mbind option_bind].
      exact (clipMagnitude_below v m Hle).
    + assert (Hne : vectorMath.magnitude v <> 0) by lra.
      rewrite (clipMagnitude_above v m Hgt), (unitVector_Some v Hne).
      cbn [fmap option_fmap option_map mbind option_bind].
      apply clipMagnitude_below.
      rewrite magnitude_multiply by exact Hm.
      rewrite (magnitude_unitVector v _ (unitVector_Some v Hne)). lra.
  - intros Hm. pose proof (magnitude_nonneg v) as Hn.
    rewrite (clipMagnitude_above v m) by lra. split.
    + intros Hv. apply magnitude_zero_iff in Hv.
      now rewrite (unitVector_None v Hv).
    + intros Hv.
      assert (E : vectorMath.magnitude v <> 0) by (now rewrite magnitude_zero_iff).
      eexists. split; [exact (unitVector_Some v E) |].
      rewrite (unitVector_Some v E). split; [reflexivity |].
      rewrite magnitude_multiply_abs.
      rewrite (magnitude_unitVector v _ (unitVector_Some v E)).
      rewrite Rabs_left by exact Hm. ring.
Qed.

(** ** geometry.tsx *)

Lemma Rabs_sin_le (x : R) : Rabs (sin x) <= Rabs x.
Proof.
  assert (Hpos : forall y, 0 < y -> Rabs (sin y) <= y).
  { intros y Hy. apply Rabs_le. split; [| left; now apply sin_lt_x].
    destruct (Rle_lt_dec y 1) as [H1 | H1].
    - assert (0 < sin y); [| lra].
      apply sin_gt_0; [exact Hy |]. pose proof PI2_1 as HP. lra.
    - pose proof (SIN_bound y). lra. }
  destruct (Rtotal_order x 0) as [H | [-> | H]].
  - rewrite <- (Ropp_involutive x) at 1. rewrite sin_neg, Rabs_Ropp.
    rewrite (Rabs_left x H). apply Hpos. lra.
  - rewrite sin_0, Rabs_R0. lra.
  - rewrite (Rabs_right x) by lra. now apply Hpos.
Qed.

(** X4.  The point that [circleHelpers.calcRotationalPoint] returns lies on
    the circle of the given radius about the origin, and is the point
    [(radius, 0)] rotated by [t]; the ellipse with two equal axes gives the
    same point; and the point of an ellipse with nonzero axes [a], [b]
    satisfies the equation [(x / a)^2 + (y / b)^2 = 1]. *)
Theorem rotational_points_on_curve (radius a b t : R) :
  vectorMath.magnitude (circleHelpers.calcRotationalPoint radius t) = Rabs radius
  /\ circleHelpers.calcRotationalPoint radius t = vectorMath.rotate (radius, 0) t
  /\ ellipseHelpers.calcRotationalPoint (radius, radius) t
     = circleHelpers.calcRotationalPoint radius t
  /\ (a <> 0 -> b <> 0 ->
      ((ellipseHelpers.calcRotationalPoint (a, b) t).1 / a) ^ 2
      + ((ellipseHelpers.calcRotationalPoint (a, b) t).2 / b) ^ 2 = 1).
Proof.
  unfold circleHelpers.calcRotationalPoint, ellipseHelpers.calcRotationalPoint,
    vectorMath.magnitude, vectorMath.rotate. cbn [fst snd].
  pose proof (sin2_cos2 t) as H. unfold Rsqr in H.
  split; [| split; [| split; [reflexivity |]]].
  - replace ((radius * cos t) ^ 2 + (radius * sin t) ^ 2) with (radius²).
    + apply sqrt_Rsqr_abs.
    + unfold Rsqr.
      transitivity (radius * radius * (sin t * sin t + cos t * cos t));
        [rewrite H; ring | ring].
  - f_equal; ring.
  - intros Ha Hb.
    replace (a * cos t / a) with (cos t) by (field; exact Ha).
    replace (b * sin t / b) with (sin t) by (field; exact Hb).
    lra.
Qed.

(** X5.  [convertRotationalVelocityToEuclideanVelocity] is the chord of the
    circle between the point at [rotation] and the point one step of the
    angular velocity further: adding it to the first point gives the second,
    its length is [2 |radius| |sin (rotationalVelocity / 2)|], and so at most
    [|radius| |rotationalVelocity|]. *)
Theorem euclidean_velocity_is_chord (radius rotation rotationalVelocity : R) :
  let velocity :=
    circleHelpers.convertRotationalVelocityToEuclideanVelocity
      radius rotation rotationalVelocity in
  vectorMath.add (circleHelpers.calcRotationalPoint radius rotation) velocity
  = circleHelpers.calcRotationalPoint radius (rotation + rotationalVelocity)
  /\ vectorMath.magnitude velocity
     = 2 * Rabs radius * Rabs (sin (rotationalVelocity / 2))
  /\ vectorMath.magnitude velocity <= Rabs radius * Rabs rotationalVelocity.
Proof.
  set (r := radius). set (a := rotation). set (w := rotationalVelocity).
  assert (Hmag :
    vectorMath.magnitude
      (circleHelpers.convertRotationalVelocityToEuclideanVelocity r a w)
    = 2 * Rabs r * Rabs (sin (w / 2))).
  { unfold circleHelpers.convertRotationalVelocityToEuclideanVelocity,
      circleHelpers.calcRotationalPoint, vectorMath.subtract,
      vectorMath.magnitude. cbn [fst snd].
    replace ((r * cos (a + w) - r * cos a) ^ 2 + (r * sin (a + w) - r * sin a) ^ 2)
      with ((2 * r * sin (w / 2))²).
    - rewrite sqrt_Rsqr_abs, !Rabs_mult. rewrite (Rabs_right 2) by lra. reflexivity.
    - rewrite cos_plus, sin_plus.
      assert (Hcw : cos w = 1 - 2 * sin (w / 2) * sin (w / 2)).
      { rewrite <- cos_2a_sin. f_equal. field. }
      assert (Hsw : sin w = 2 * sin (w / 2) * cos (w / 2)).
      { rewrite <- sin_2a. f_equal. field. }
      rewrite Hcw, Hsw.
      pose proof (sin2_cos2 a) as Ha. pose proof (sin2_cos2 (w / 2)) as Hw.
      unfold Rsqr in *.
      set (s := sin (w / 2)) in *. set (c := cos (w / 2)) in *.
      set (sa := sin a) in *. set (ca := cos a) in *.
      transitivity (4 * r * r * s * s * ((sa * sa + ca * ca) * (s * s + c * c)));
        [rewrite Ha, Hw; ring | ring]. }
  cbv zeta. split; [| split].
  - unfold circleHelpers.convertRotationalVelocityToEuclideanVelocity,
      circleHelpers.calcRotationalPoint, vectorMath.subtract, vectorMath.add.
    cbn [fst snd]. f_equal; ring.
  - exact Hmag.
  - rewrite Hmag. pose proof (Rabs_sin_le (w / 2)) as H.
    replace (Rabs (w / 2)) with (Rabs w / 2) in H.
    + pose proof (Rabs_pos r). pose proof (Rabs_pos (sin (w / 2))). nra.
    + unfold Rdiv. rewrite Rabs_mult. rewrite (Rabs_right (/ 2)) by lra. reflexivity.
Qed.

(** ** util.tsx *)

Lemma drain_count (n : nat) (i stop : Z) (fuel : nat) :
  stop <> 0%Z -> (i + 1 + Z.of_nat n = Z.max (i + 1) stop)%Z -> (n < fuel)%nat ->
  util.drain fuel (util.mkRangeIterator i stop)
  = Ok (map (fun k => (i + 1 + Z.of_nat k)%Z) (seq 0 n)).
Proof.
  revert i fuel. induction n as [| n IH]; intros i fuel Hs Hn Hf.
  - destruct fuel as [| fuel]; [lia |]. cbn [util.drain].
    unfold util.next. cbn [util.range_i util.range_stop].
    destruct (Z.eqb_spec stop 0) as [E | _]; [contradiction |].
    destruct (Z.ltb_spec (i + 1) stop) as [L | _]; [lia |]. reflexivity.
  - destruct fuel as [| fuel]; [lia |]. cbn [util.drain].
    unfold util.next. cbn [util.range_i util.range_stop].
    destruct (Z.eqb_spec stop 0) as [E | _]; [contradiction |].
    destruct (Z.ltb_spec (i + 1) stop) as [_ | L]; [| lia].
    cbn [bind]. rewrite (IH (i + 1)%Z fuel Hs) by lia. cbn [bind].
    f_equal. cbn [seq map]. f_equal; [lia |].
    rewrite <- seq_shift, map_map. apply map_ext. intros k. lia.
Qed.

Lemma range_Ok (first last : Z) (start : Z) (stop : option Z) :
  util.iterator start stop = util.mkRangeIterator (first - 1) last ->
  last <> 0%Z ->
  util.range start stop
  = Ok (map (fun k => (first + Z.of_nat k)%Z) (seq 0 (Z.to_nat (last - first)))).
Proof.
  intros Hit Hl. unfold util.range. rewrite Hit.
  cbn [util.range_i util.range_stop].
  rewrite (drain_count (Z.to_nat (last - first)) (first - 1) last) by lia.
  f_equal. apply map_ext. intros k. lia.
Qed.

Lemma range_Throw (start : Z) (stop : option Z) :
  util.range_stop (util.iterator start stop) = 0%Z ->
  util.range start stop = Throw "Impossible".
Proof.
  intros H. unfold util.range. cbn [util.drain]. unfold util.next. now rewrite H.
Qed.

(** X6.  [Array.from(range(start, stop))] is the list of the integers from
    [start] up to [stop - 1], empty when [stop <= start], and [range(n)]
    counts from 0; but a bound equal to 0 makes the first [next()] throw
    'Impossible', so [range(0)] and [range(-3, 0)] throw where an empty
    list and [-3, -2, -1] would be expected. *)
Theorem range_elements (start : Z) (stop : option Z) :
  let first := match stop with None => 0%Z | Some _ => start end in
  let last := match stop with None => start | Some stop => stop end in
  util.range start stop
  = if (last =? 0)%Z then Throw "Impossible"
    else Ok (map (fun k => (first + Z.of_nat k)%Z)
               (seq 0 (Z.to_nat (last - first)))).
Proof.
  cbv zeta. destruct stop as [stop |].
  - destruct (Z.eqb_spec stop 0) as [-> | Hs].
    + now apply range_Throw.
    + now apply range_Ok.
  - destruct (Z.eqb_spec start 0) as [-> | Hs].
    + now apply range_Throw.
    + now apply range_Ok.
Qed.

Lemma Int_part_IZR (z : Z) : Int_part (IZR z) = z.
Proof. symmetry. apply Int_part_spec. lra. Qed.

Lemma isInteger_IZR (z : Z) : util.isInteger (IZR z) = true.
Proof.
  unfold util.isInteger. rewrite Int_part_IZR.
  destruct (Req_dec_T (IZR z) (IZR z)); [reflexivity | contradiction].
Qed.

Lemma fold_left_absorbed (l : list Z) :
  fold_left (fun prev curr => prev * curr * 2)%Z l 0%Z = 0%Z.
Proof. induction l as [| x l IH]; [reflexivity | exact IH]. Qed.

Lemma fold_left_pointwise {A B : Type} (f g : A -> B -> A) (l : list B) (a : A) :
  (forall a b, f a b = g a b) -> fold_left f l a = fold_left g l a.
Proof.
  intros H. revert a. induction l as [| x l IH]; intros a; [reflexivity |].
  cbn [fold_left]. now rewrite H, IH.
Qed.

Lemma oddProduct_fold (n : nat) (acc : Z) :
  fold_left (fun prev curr => prev * (2 * curr - 1))%Z
    (map (fun k => (1 + Z.of_nat k)%Z) (seq 0 n)) acc
  = (acc * oddProduct n)%Z.
Proof.
  induction n as [| n IH].
  - cbn. lia.
  - rewrite seq_S, map_app, fold_left_app, IH. cbn [map fold_left oddProduct].
    replace (Z.of_nat (S n)) with (1 + Z.of_nat (0 + n))%Z by lia. ring.
Qed.

Lemma oddProduct_pos (n : nat) : (1 <= oddProduct n)%Z.
Proof.
  induction n as [| n IH]; [cbn; lia |]. cbn [oddProduct]. nia.
Qed.

Lemma doubleFactorial_IZR (i : Z) :
  util.doubleFactorial (IZR i)
  = if (Z.rem i 2 =? 0)%Z then
      let! values := util.range (i / 2 + 1) None in
      Ok (fold_left (fun prev curr => prev * curr * 2)%Z values 1%Z)
    else
      let! values := util.range ((i + 1) / 2 + 1) None in
      Ok (fold_left (fun prev curr => prev * (curr * 2 - 1))%Z values 1%Z).
Proof.
  unfold util.doubleFactorial. rewrite isInteger_IZR, Int_part_IZR. reflexivity.
Qed.

(** X7.  What [doubleFactorial] returns: 0 for every even natural number
    (the product starts at the factor 0), the negated product of the odd
    numbers up to [i] for an odd natural number [i] (the product starts at
    the factor -1); it throws 'Impossible' for -2, and the non-integer error
    for every number that is not an integer. *)
Theorem doubleFactorial_values (n : nat) :
  util.doubleFactorial (INR (2 * n)) = Ok 0%Z
  /\ util.doubleFactorial (INR (2 * n + 1)) = Ok (- oddProduct (S n))%Z
  /\ util.doubleFactorial (-2) = Throw "Impossible"
  /\ (forall x, (forall z, x <> IZR z) ->
        util.doubleFactorial x = Throw "Non-integer passed to doubleFactorial").
Proof.
  split; [| split; [| split]].
  - rewrite INR_IZR_INZ, doubleFactorial_IZR.
    replace (Z.rem (Z.of_nat (2 * n)) 2) with 0%Z
      by (symmetry; apply Z.rem_divide; [lia | exists (Z.of_nat n); lia]).
    cbn [Z.eqb].
    replace (Z.of_nat (2 * n) / 2 + 1)%Z with (Z.of_nat (S n))
      by (replace (Z.of_nat (2 * n)) with (Z.of_nat n * 2)%Z by lia;
          rewrite Z.div_mul by lia; lia).
    rewrite (range_Ok 0 (Z.of_nat (S n))) by (reflexivity || lia).
    cbn [bind]. rewrite Z.sub_0_r, Nat2Z.id. cbn [seq map fold_left].
    f_equal. apply fold_left_absorbed.
  - rewrite INR_IZR_INZ, doubleFactorial_IZR.
    replace (Z.of_nat (2 * n + 1)) with (1 + Z.of_nat n * 2)%Z by lia.
    assert (Hrem : Z.rem (1 + Z.of_nat n * 2) 2 = 1%Z).
    { rewrite Z.rem_mod_nonneg by lia. rewrite Z.mod_add by lia. reflexivity. }
    rewrite Hrem. cbn [Z.eqb].
    replace ((1 + Z.of_nat n * 2 + 1) / 2 + 1)%Z with (Z.of_nat (S (S n)))
      by (replace (1 + Z.of_nat n * 2 + 1)%Z with ((Z.of_nat n + 1) * 2)%Z by lia;
          rewrite Z.div_mul by lia; lia).
    rewrite (range_Ok 0 (Z.of_nat (S (S n)))) by (reflexivity || lia).
    cbn [bind]. rewrite Z.sub_0_r, Nat2Z.id. f_equal.
    change (seq 0 (S (S n))) with (0%nat :: seq 1 (S n)).
    rewrite <- seq_shift. cbn [map fold_left]. rewrite map_map.
    rewrite (fold_left_pointwise (fun prev curr => prev * (curr * 2 - 1))%Z
               (fun prev curr => prev * (2 * curr - 1))%Z)
      by (intros; ring).
    rewrite (map_ext (fun x => (0 + Z.of_nat (S x))%Z)
               (fun k => (1 + Z.of_nat k)%Z)) by (intros; lia).
    rewrite oddProduct_fold. lia.
  - replace (-2) with (IZR (-2)) by reflexivity. rewrite doubleFactorial_IZR. reflexivity.
  - intros x Hx. unfold util.doubleFactorial, util.isInteger.
    destruct (Req_dec_T (IZR (Int_part x)) x) as [E | _]; [| reflexivity].
    exfalso. exact (Hx _ (eq_sym E)).
Qed.

(** X8.  [ellipseHelpers.circumference] of an ellipse with axes [a], [b] at
    precision [p >= 0] is [PI (a + b) (1 + (2 p - 1)!!)]; at precision -1 it
    throws 'Impossible'; and for [a + b >= 0] the result is never below
    [2 PI (a + b)], twice the circumference of the circle when [a = b]. *)
Theorem circumference_closed_form (a b : R) (p : nat) :
  circumference (a, b) (Z.of_nat p)
  = Ok (PI * (a + b) * (1 + IZR (oddProduct p)))
  /\ circumference (a, b) (-1) = Throw "Impossible"
  /\ (0 <= a + b -> 2 * (PI * (a + b)) <= PI * (a + b) * (1 + IZR (oddProduct p))).
Proof.
  split; [| split].
  - unfold circumference.
    rewrite (range_Ok 1 (Z.of_nat p + 1)) by (reflexivity || lia).
    cbn [bind]. replace (Z.to_nat (Z.of_nat p + 1 - 1)) with p by lia.
    rewrite oddProduct_fold. now rewrite Z.mul_1_l.
  - reflexivity.
  - intros Hab. pose proof (oddProduct_pos p) as Hp. apply IZR_le in Hp.
    assert (0 <= PI * (a + b)) by (pose proof PI_RGT_0; nra).
    set (k := IZR (oddProduct p)) in *. nra.
Qed.

(** ** Plants *)

Lemma PlantPart_induction (P : PlantPart -> Prop) :
  (forall extent children depth lastGrowths,
     Forall P children -> P (mkPlantPart extent children depth lastGrowths)) ->
  forall part, P part.
Proof.
  intros Hnode. fix IH 1. intros [e cs d lg]. apply Hnode.
  induction cs as [| c cs IHcs]; constructor; [apply IH | exact IHcs].
Qed.

Lemma tickPlant_node (w : WorldState) (plant : Plant) (dt : R)
    (e : Extent) (cs : list PlantPart) (d : R) (lg : list (Vector2d * Vector2d)) :
  tickPlant w plant (mkPlantPart e cs d lg) dt
  = let! sunOrbit := cloudOrbit (store w) (sun w) in
    if Rgtb (rotationalDistance w plant sunOrbit) (PI / 2)
    then Ok (mkPlantPart e cs d lg)
    else
      let! children := tickChildren w plant dt cs in
      let! global := mapPlantCoordinateToGlobal w plant e in
      let! extent :=
        mapGlobalCoordinateToPlant w plant
          (mapExtent (grow (store w !!! sun w) dt) global) in
      Ok (mkPlantPart extent children d lg).
Proof. reflexivity. Qed.

Lemma subtract_add (a b : Vector2d) :
  vectorMath.subtract (vectorMath.add a b) b = a.
Proof. destruct a, b. unfold vectorMath.subtract, vectorMath.add. cbn. f_equal; ring. Qed.

Lemma add_subtract (a b : Vector2d) :
  vectorMath.add (vectorMath.subtract a b) b = a.
Proof. destruct a, b. unfold vectorMath.subtract, vectorMath.add. cbn. f_equal; ring. Qed.

Lemma toPlant_toGlobal (w : WorldState) (plant : Plant) (e : Extent) (radius : R) :
  shape (store w !!! planet w) = Circle radius ->
  forall g, mapPlantCoordinateToGlobal w plant e = Ok g ->
            mapGlobalCoordinateToPlant w plant g = Ok e.
Proof.
  intros Hs g. unfold mapPlantCoordinateToGlobal, mapGlobalCoordinateToPlant.
  rewrite Hs. intros [= <-]. f_equal. destruct e as [[a |] [b |]];
    unfold mapExtent; cbn [fst snd mbind option_bind];
    rewrite ?subtract_add;
    replace (- (rotation (store w !!! planet w) + plant_rotation plant) + PI / 2)
      with (- (rotation (store w !!! planet w) + plant_rotation plant - PI / 2))
      by ring;
    now rewrite ?rotate_back.
Qed.

Lemma toGlobal_toPlant (w : WorldState) (plant : Plant) (e : Extent) (radius : R) :
  shape (store w !!! planet w) = Circle radius ->
  forall l, mapGlobalCoordinateToPlant w plant e = Ok l ->
            mapPlantCoordinateToGlobal w plant l = Ok e.
Proof.
  intros Hs g. unfold mapPlantCoordinateToGlobal, mapGlobalCoordinateToPlant.
  rewrite Hs. intros [= <-]. f_equal. destruct e as [[a |] [b |]];
    unfold mapExtent; cbn [fst snd mbind option_bind];
    replace (- (rotation (store w !!! planet w) + plant_rotation plant) + PI / 2)
      with (- (rotation (store w !!! planet w) + plant_rotation plant - PI / 2))
      by ring;
    now rewrite ?rotate_forth, ?add_subtract.
Qed.

(** X9.  On a circular planet the two coordinate maps of a plant undo each
    other: an extent mapped to global coordinates and back, or to plant
    coordinates and back, is the extent itself.  On a planet whose shape is
    not a number both maps throw. *)
Theorem plant_coordinates_round_trip (w : WorldState) (plant : Plant) (e : Extent) :
  match shape (store w !!! planet w) with
  | Circle _ =>
      (let! global := mapPlantCoordinateToGlobal w plant e in
       mapGlobalCoordinateToPlant w plant global) = Ok e
      /\ (let! local := mapGlobalCoordinateToPlant w plant e in
          mapPlantCoordinateToGlobal w plant local) = Ok e
  | Ellipse _ =>
      mapPlantCoordinateToGlobal w plant e = Throw EmptyString
      /\ mapGlobalCoordinateToPlant w plant e = Throw EmptyString
  end.
Proof.
  destruct (shape (store w !!! planet w)) as [radius | axes] eqn:Hs.
  - split.
    + destruct (mapPlantCoordinateToGlobal w plant e) as [g | msg] eqn:Hg.
      * cbn [bind]. exact (toPlant_toGlobal w plant e radius Hs g Hg).
      * unfold mapPlantCoordinateToGlobal in Hg. rewrite Hs in Hg. discriminate.
    + destruct (mapGlobalCoordinateToPlant w plant e) as [l | msg] eqn:Hl.
      * cbn [bind]. exact (toGlobal_toPlant w plant e radius Hs l Hl).
      * unfold mapGlobalCoordinateToPlant in Hl. rewrite Hs in Hl. discriminate.
  - unfold mapPlantCoordinateToGlobal, mapGlobalCoordinateToPlant. rewrite Hs.
    split; reflexivity.
Qed.

Lemma mapPlantCoordinateToGlobal_axis (w : WorldState) (plant : Plant)
    (radius y1 y2 : R) :
  shape (store w !!! planet w) = Circle radius ->
  mapPlantCoordinateToGlobal w plant (Some (0, y1), Some (0, y2))
  = Ok (Some (circleHelpers.calcRotationalPoint (radius + y1) (plantAngle w plant)),
        Some (circleHelpers.calcRotationalPoint (radius + y2) (plantAngle w plant))).
Proof.
  intros Hs. unfold mapPlantCoordinateToGlobal. rewrite Hs.
  unfold mapExtent. cbn [fst snd mbind option_bind]. unfold plantAngle.
  set (t := rotation (store w !!! planet w) + plant_rotation plant).
  unfold vectorMath.add, vectorMath.rotate, circleHelpers.calcRotationalPoint.
  cbn [fst snd]. rewrite sin_minus, cos_minus, cos_PI2, sin_PI2.
  do 3 f_equal; f_equal; ring.
Qed.


Lemma oneCloudWorld_sun :
  orbit (store oneCloudWorld !!! sun oneCloudWorld)
  = Some {| orbit_rotation := 0;
            orbit_rotationalVelocity := (2 * PI) / ticksInAYear;
            orbit_target := 0%nat;
            orbit_shape := Ellipse sunOrbitEllipse |}
  /\ location (store oneCloudWorld !!! sun oneCloudWorld) = (175 * cos 0, 200 * sin 0)
  /\ shape (store oneCloudWorld !!! planet oneCloudWorld) = Circle 3
  /\ rotation (store oneCloudWorld !!! planet oneCloudWorld) = 0.
Proof. repeat split. Qed.

Lemma createPlant_daylight :
  rotationalDistance oneCloudWorld createPlant
    {| orbit_rotation := 0;
       orbit_rotationalVelocity := (2 * PI) / ticksInAYear;
       orbit_target := 0%nat;
       orbit_shape := Ellipse sunOrbitEllipse |} <= PI / 2.
Proof.
  unfold rotationalDistance, constraintRadian. cbn [orbit_rotation].
  destruct oneCloudWorld_sun as (_ & _ & _ & ->).
  change (plant_rotation createPlant) with (PI / 4).
  pose proof PI_RGT_0 as Hpi.
  rewrite (Rrem_small_nonneg 0) by lra.
  rewrite (Rrem_small_nonneg (0 + PI / 4)) by lra.
  rewrite Rabs_left by lra. lra.
Qed.

Lemma createPlant_awayFromSun :
  awayFromSun oneCloudWorld createPlant (extent (trunk createPlant)).
Proof.
  destruct oneCloudWorld_sun as (_ & Hl & Hs & Hrot).
  unfold awayFromSun. change (extent (trunk createPlant)) with (Some (0, 1), Some (0, 2)).
  rewrite (mapPlantCoordinateToGlobal_axis _ _ 3 1 2 Hs).
  eexists _, _. split; [reflexivity |]. rewrite Hl.
  unfold plantAngle. rewrite Hrot. change (plant_rotation createPlant) with (PI / 4).
  replace (0 + PI / 4) with (PI / 4) by ring.
  unfold circleHelpers.calcRotationalPoint. rewrite sin_0, sin_PI4.
  assert (0 < 1 / sqrt 2).
  { apply Rdiv_lt_0_compat; [lra | apply sqrt_lt_R0; lra]. }
  split; intros [= _ H2]; nra.
Qed.

(** X10.  On a circular planet [mapPlantCoordinateToGlobal] is a rigid motion:
    it keeps the distance between the two points of an extent.  It puts the
    origin of the plant on the circle of the planet's radius about the
    origin, at the angle [planet.rotation + plant.rotation], and the point
    at height [y] on the plant's vertical axis on the same ray, [y] further
    out. *)
Theorem plant_frame_is_rigid (w : WorldState) (plant : Plant) (radius : R)
    (a b : Vector2d) (y : R) :
  shape (store w !!! planet w) = Circle radius ->
  (exists a' b',
     mapPlantCoordinateToGlobal w plant (Some a, Some b) = Ok (Some a', Some b')
     /\ vectorMath.magnitude (vectorMath.subtract a' b')
        = vectorMath.magnitude (vectorMath.subtract a b))
  /\ mapPlantCoordinateToGlobal w plant (Some (0, 0), Some (0, y))
     = Ok (Some (circleHelpers.calcRotationalPoint radius (plantAngle w plant)),
           Some (circleHelpers.calcRotationalPoint (radius + y)
                   (plantAngle w plant))).
Proof.
  intros Hs. unfold mapPlantCoordinateToGlobal. rewrite Hs.
  unfold mapExtent. cbn [fst snd mbind option_bind]. split.
  - eexists _, _. split; [reflexivity |].
    set (t := rotation (store w !!! planet w) + plant_rotation plant - PI / 2).
    rewrite <- (magnitude_rotate (vectorMath.subtract a b) t).
    f_equal. destruct a as [ax ay], b as [bx b_y].
    unfold vectorMath.subtract, vectorMath.add, vectorMath.rotate,
      circleHelpers.calcRotationalPoint. cbn [fst snd]. f_equal; ring.
  - unfold plantAngle.
    set (t := rotation (store w !!! planet w) + plant_rotation plant).
    unfold vectorMath.add, vectorMath.rotate, circleHelpers.calcRotationalPoint.
    cbn [fst snd]. rewrite sin_minus, cos_minus, cos_PI2, sin_PI2.
    do 3 f_equal; f_equal; ring.
Qed.

(** X10 for the plant of [createPlant] on the planet of [oneCloudWorld]. *)
Lemma plant_frame_is_rigid_witness :
  shape (store oneCloudWorld !!! planet oneCloudWorld) = Circle 3
  /\ (exists a' b',
        mapPlantCoordinateToGlobal oneCloudWorld createPlant
          (Some (0, 1), Some (0, 2)) = Ok (Some a', Some b')
        /\ vectorMath.magnitude (vectorMath.subtract a' b')
           = vectorMath.magnitude (vectorMath.subtract (0, 1) (0, 2)))
  /\ mapPlantCoordinateToGlobal oneCloudWorld createPlant
       (Some (0, 0), Some (0, 1))
     = Ok (Some (circleHelpers.calcRotationalPoint 3
                   (plantAngle oneCloudWorld createPlant)),
           Some (circleHelpers.calcRotationalPoint (3 + 1)
                   (plantAngle oneCloudWorld createPlant))).
Proof.
  split; [reflexivity |].
  exact (plant_frame_is_rigid oneCloudWorld createPlant 3 (0, 1) (0, 2) 1 eq_refl).
Defined.

Lemma Rrem_idempotent (x y : R) : 0 < y -> Rrem (Rrem x y) y = Rrem x y.
Proof.
  intros Hy. destruct (Rle_lt_dec 0 x) as [Hx | Hx].
  - apply Rrem_small_nonneg. now apply Rrem_nonneg.
  - apply Rrem_small_neg; [exact Hy |]. apply Rrem_nonpos; lra.
Qed.

(** X11.  [constraintRadian] removes whole turns and keeps the sign: the
    result lies strictly between [- 2 PI] and [2 PI], is not negative for an
    argument that is not negative and not positive for one that is not
    positive, differs from the argument by a whole number of turns, has the
    same cosine and sine, and is left as it is by a second application. *)
Theorem constraintRadian_wraps (radian : R) :
  - (PI * 2) < constraintRadian radian < PI * 2
  /\ (0 <= radian -> 0 <= constraintRadian radian)
  /\ (radian <= 0 -> constraintRadian radian <= 0)
  /\ (exists turns : Z, constraintRadian radian = radian - PI * 2 * IZR turns)
  /\ cos (constraintRadian radian) = cos radian
  /\ sin (constraintRadian radian) = sin radian
  /\ constraintRadian (constraintRadian radian) = constraintRadian radian.
Proof.
  assert (Hp : 0 < PI * 2) by (pose proof PI_RGT_0; lra).
  unfold constraintRadian. repeat split.
  - destruct (Rle_lt_dec 0 radian) as [Hx | Hx].
    + pose proof (Rrem_nonneg radian (PI * 2) Hp Hx). lra.
    + pose proof (Rrem_nonpos radian (PI * 2) Hp). lra.
  - destruct (Rle_lt_dec 0 radian) as [Hx | Hx].
    + pose proof (Rrem_nonneg radian (PI * 2) Hp Hx). lra.
    + pose proof (Rrem_nonpos radian (PI * 2) Hp). lra.
  - intros Hx. now apply Rrem_nonneg.
  - intros Hx. now apply Rrem_nonpos.
  - eexists. reflexivity.
  - apply cos_Rrem.
  - apply sin_Rrem.
  - now apply Rrem_idempotent.
Qed.


Lemma mapPlantCoordinateToGlobal_total (w : WorldState) (plant : Plant)
    (e : Extent) (radius : R) :
  shape (store w !!! planet w) = Circle radius ->
  exists g, mapPlantCoordinateToGlobal w plant e = Ok g.
Proof. intros Hs. unfold mapPlantCoordinateToGlobal. rewrite Hs. eauto. Qed.

Lemma mapGlobalCoordinateToPlant_total (w : WorldState) (plant : Plant)
    (e : Extent) (radius : R) :
  shape (store w !!! planet w) = Circle radius ->
  exists l, mapGlobalCoordinateToPlant w plant e = Ok l.
Proof. intros Hs. unfold mapGlobalCoordinateToPlant. rewrite Hs. eauto. Qed.

Lemma tickChildren_total (w : WorldState) (plant : Plant) (dt : R)
    (cs : list PlantPart) :
  Forall (fun c => exists c', tickPlant w plant c dt = Ok c') cs ->
  exists cs', tickChildren w plant dt cs = Ok cs'.
Proof.
  induction 1 as [| c cs [c' Hc] _ [cs' IH]]; [now exists [] |].
  exists (c' :: cs'). cbn [tickChildren]. rewrite Hc. cbn [bind].
  fold (tickChildren w plant dt). now rewrite IH.
Qed.

Lemma tickPlant_total (w : WorldState) (plant : Plant) (plantPart : PlantPart)
    (dt : R) (sunOrbit : Orbit) (radius : R) :
  orbit (store w !!! sun w) = Some sunOrbit ->
  shape (store w !!! planet w) = Circle radius ->
  exists plantPart', tickPlant w plant plantPart dt = Ok plantPart'.
Proof.
  intros Ho Hs.
  induction plantPart as [e cs d lg IH] using PlantPart_induction.
  rewrite tickPlant_node. unfold cloudOrbit. rewrite Ho. cbn [bind].
  destruct (Rgtb (rotationalDistance w plant sunOrbit) (PI / 2)); [eauto |].
  destruct (tickChildren_total w plant dt cs IH) as [cs' ->]. cbn [bind].
  destruct (mapPlantCoordinateToGlobal_total w plant e radius Hs) as [g ->].
  cbn [bind].
  destruct (mapGlobalCoordinateToPlant_total w plant
              (mapExtent (grow (store w !!! sun w) dt) g) radius Hs) as [l ->].
  cbn [bind]. eauto.
Qed.

Lemma subtract_zero_iff (a b : Vector2d) :
  vectorMath.subtract a b = (0, 0) <-> a = b.
Proof.
  destruct a as [ax ay], b as [bx b_y]. unfold vectorMath.subtract. cbn [fst snd].
  split.
  - intros [= H1 H2]. f_equal; lra.
  - intros [= -> ->]. f_equal; ring.
Qed.

Lemma grow_towards_sun (sun : CelestialObject) (dt : R) (p : Vector2d) :
  p <> location sun -> 0 <= dt ->
  exists p',
    grow sun dt p = Some p'
    /\ vectorMath.magnitude (vectorMath.subtract p' p) = 0.005 * dt
    /\ vectorMath.magnitude (vectorMath.subtract (location sun) p')
       = Rabs (vectorMath.magnitude (vectorMath.subtract (location sun) p)
               - 0.005 * dt).
Proof.
  intros Hp Hdt. set (v := vectorMath.subtract (location sun) p).
  assert (Hm : vectorMath.magnitude v <> 0).
  { rewrite magnitude_zero_iff. unfold v. rewrite subtract_zero_iff. congruence. }
  pose proof (unitVector_Some v Hm) as Hu.
  pose proof (magnitude_unitVector v _ Hu) as Hu1.
  pose proof (multiply_unitVector v _ Hu) as Hv.
  set (u := (v.1 / vectorMath.magnitude v, v.2 / vectorMath.magnitude v)) in *.
  unfold grow. fold v. rewrite Hu. cbn [fmap option_fmap option_map].
  eexists. split; [reflexivity |]. split.
  - replace (vectorMath.subtract
               (vectorMath.add p (vectorMath.multiply u (0.005 * dt))) p)
      with (vectorMath.multiply u (0.005 * dt)).
    + rewrite magnitude_multiply by lra. rewrite Hu1. ring.
    + destruct p, u. unfold vectorMath.subtract, vectorMath.add,
        vectorMath.multiply. cbn [fst snd]. f_equal; ring.
  - replace (vectorMath.subtract (location sun)
               (vectorMath.add p (vectorMath.multiply u (0.005 * dt))))
      with (vectorMath.multiply u (vectorMath.magnitude v - 0.005 * dt)).
    + rewrite magnitude_multiply_abs, Hu1. ring.
    + set (m := vectorMath.magnitude v) in *.
      assert (H1 : u.1 * m = (location sun).1 - p.1).
      { apply (f_equal fst) in Hv. destruct u. exact Hv. }
      assert (H2 : u.2 * m = (location sun).2 - p.2).
      { apply (f_equal snd) in Hv. destruct u. exact Hv. }
      clearbody u m. destruct p as [p1 p2], u as [u1 u2], (location sun) as [s1 s2].
      unfold vectorMath.subtract, vectorMath.add, vectorMath.multiply.
      cbn [fst snd] in *. f_equal; lra.
Qed.

Lemma tickChildren_skeleton (w : WorldState) (plant : Plant) (dt : R)
    (cs cs' : list PlantPart) :
  Forall (fun c => forall c', tickPlant w plant c dt = Ok c' ->
                     eraseExtents c' = eraseExtents c) cs ->
  tickChildren w plant dt cs = Ok cs' ->
  map eraseExtents cs' = map eraseExtents cs.
Proof.
  intros HF. revert cs'. induction HF as [| c cs Hc _ IH]; intros cs' Hrun.
  - injection Hrun as <-. reflexivity.
  - cbn [tickChildren] in Hrun.
    destruct (tickPlant w plant c dt) as [c' |] eqn:Ec; [| discriminate].
    cbn [bind] in Hrun. fold (tickChildren w plant dt) in Hrun.
    destruct (tickChildren w plant dt cs) as [cs1 |] eqn:Ecs; [| discriminate].
    injection Hrun as <-. cbn [map]. now rewrite (Hc c' eq_refl), (IH cs1 eq_refl).
Qed.

(** X12.  [tickPlant] changes nothing but extents: the part it leaves has
    the same children, node for node, with the same [depth] and
    [lastGrowths]; no part is added or removed. *)
Theorem tickPlant_keeps_skeleton (w : WorldState) (plant : Plant)
    (plantPart plantPart' : PlantPart) (dt : R) :
  tickPlant w plant plantPart dt = Ok plantPart' ->
  eraseExtents plantPart' = eraseExtents plantPart.
Proof.
  revert plantPart'.
  induction plantPart as [e cs d lg IH] using PlantPart_induction.
  intros p' Hrun. rewrite tickPlant_node in Hrun.
  destruct (cloudOrbit (store w) (sun w)) as [ob |]; [| discriminate].
  cbn [bind] in Hrun.
  destruct (Rgtb (rotationalDistance w plant ob) (PI / 2)).
  - now injection Hrun as <-.
  - destruct (tickChildren w plant dt cs) as [cs' |] eqn:Ecs; [| discriminate].
    cbn [bind] in Hrun.
    destruct (mapPlantCoordinateToGlobal w plant e) as [g |]; [| discriminate].
    cbn [bind] in Hrun.
    destruct (mapGlobalCoordinateToPlant w plant _) as [e' |]; [| discriminate].
    injection Hrun as <-. cbn [eraseExtents]. f_equal.
    exact (tickChildren_skeleton w plant dt cs cs' IH Ecs).
Qed.

(** X12 for the plant of [createPlant] in [oneCloudWorld], ticked by 1. *)
Lemma tickPlant_keeps_skeleton_witness :
  exists plantPart',
    tickPlant oneCloudWorld createPlant (trunk createPlant) 1 = Ok plantPart'
    /\ eraseExtents plantPart' = eraseExtents (trunk createPlant).
Proof.
  destruct (tickPlant_total oneCloudWorld createPlant (trunk createPlant) 1 _ 3
              (proj1 oneCloudWorld_sun) eq_refl) as [plantPart' Hrun].
  exists plantPart'. split; [exact Hrun |].
  exact (tickPlant_keeps_skeleton _ _ _ _ _ Hrun).
Defined.

Lemma grow_zero (sun : CelestialObject) (p : Vector2d) :
  p <> location sun -> grow sun 0 p = Some p.
Proof.
  intros Hp. set (v := vectorMath.subtract (location sun) p).
  assert (Hm : vectorMath.magnitude v <> 0).
  { rewrite magnitude_zero_iff. unfold v. rewrite subtract_zero_iff. congruence. }
  unfold grow. fold v. rewrite (unitVector_Some v Hm).
  cbn [fmap option_fmap option_map]. f_equal.
  destruct p as [p1 p2]. unfold vectorMath.add, vectorMath.multiply.
  cbn [fst snd]. f_equal; ring.
Qed.

Lemma tickChildren_fixed (w : WorldState) (plant : Plant) (dt : R)
    (cs : list PlantPart) :
  Forall (fun c => tickPlant w plant c dt = Ok c) cs ->
  tickChildren w plant dt cs = Ok cs.
Proof.
  induction 1 as [| c cs Hc _ IH]; [reflexivity |].
  cbn [tickChildren]. rewrite Hc. cbn [bind].
  fold (tickChildren w plant dt). now rewrite IH.
Qed.

Lemma tickPlant_zero (w : WorldState) (plant : Plant) (plantPart : PlantPart)
    (sunOrbit : Orbit) :
  orbit (store w !!! sun w) = Some sunOrbit ->
  Forall (awayFromSun w plant) (extents plantPart) ->
  tickPlant w plant plantPart 0 = Ok plantPart.
Proof.
  intros Ho.
  induction plantPart as [e cs d lg IH] using PlantPart_induction.
  cbn [extents]. intros Haway. apply Forall_cons in Haway as [He Hcs].
  rewrite tickPlant_node. unfold cloudOrbit. rewrite Ho. cbn [bind].
  destruct (Rgtb (rotationalDistance w plant sunOrbit) (PI / 2)); [reflexivity |].
  rewrite tickChildren_fixed.
  - cbn [bind]. destruct He as (g1 & g2 & Hg & H1 & H2). rewrite Hg. cbn [bind].
    unfold mapExtent at 1. cbn [fst snd mbind option_bind].
    rewrite (grow_zero _ g1 H1), (grow_zero _ g2 H2).
    assert (Hs : exists radius, shape (store w !!! planet w) = Circle radius).
    { unfold mapPlantCoordinateToGlobal in Hg.
      destruct (shape (store w !!! planet w)); [eauto | discriminate]. }
    destruct Hs as [radius Hs].
    now rewrite (toPlant_toGlobal w plant e radius Hs _ Hg).
  - clear He. induction IH as [| c cs Hc _ IHcs]; [constructor |].
    cbn [flat_map] in Hcs. apply Forall_app in Hcs as [Hc1 Hcs1].
    constructor; [exact (Hc Hc1) | exact (IHcs Hcs1)].
Qed.

Lemma tickPlants_fixed (w : WorldState) (plants : list Plant) (dt : R) :
  Forall (fun plant => tickPlant w plant (trunk plant) dt = Ok (trunk plant))
         plants ->
  tickPlants w plants dt = Ok plants.
Proof.
  induction 1 as [| [r t] plants Hp _ IH]; [reflexivity |].
  cbn [tickPlants trunk plant_rotation] in *. rewrite Hp. cbn [bind].
  now rewrite IH.
Qed.

(** X13.  [tickPlant] leaves the part as it is, children included, when the
    sun is more than a quarter turn away from the plant (its rotational
    distance exceeds [PI / 2]), and when the elapsed time is 0 and no point
    of any extent of the part is at the centre of the sun; [tickPlants]
    then leaves every such plant as it is, and does nothing to the empty
    list of plants that [createInitialWorldState] builds. *)
Theorem tickPlant_unchanged (w : WorldState) (plant : Plant)
    (plantPart : PlantPart) (dt : R) (sunOrbit : Orbit) :
  orbit (store w !!! sun w) = Some sunOrbit ->
  (PI / 2 < rotationalDistance w plant sunOrbit ->
   tickPlant w plant plantPart dt = Ok plantPart)
  /\ (Forall (awayFromSun w plant) (extents plantPart) ->
      tickPlant w plant plantPart 0 = Ok plantPart)
  /\ (forall plants,
        Forall (fun plant => PI / 2 < rotationalDistance w plant sunOrbit) plants ->
        tickPlants w plants dt = Ok plants)
  /\ (forall plants,
        Forall (fun plant => Forall (awayFromSun w plant) (extents (trunk plant)))
               plants ->
        tickPlants w plants 0 = Ok plants)
  /\ tickPlants w [] dt = Ok [].
Proof.
  intros Ho.
  assert (Hnight : forall plant part,
            PI / 2 < rotationalDistance w plant sunOrbit ->
            tickPlant w plant part dt = Ok part).
  { intros p [e cs d lg] Hfar.
    rewrite tickPlant_node. unfold cloudOrbit. rewrite Ho. cbn [bind].
    unfold Rgtb. now rewrite Rltb_true. }
  split; [apply Hnight |].
  split; [exact (tickPlant_zero w plant plantPart sunOrbit Ho) |].
  split; [| split; [| reflexivity]].
  - intros plants Hall. apply tickPlants_fixed.
    eapply Forall_impl; [exact Hall |]. intros p Hp. now apply Hnight.
  - intros plants Hall. apply tickPlants_fixed.
    eapply Forall_impl; [exact Hall |]. intros p Hp.
    exact (tickPlant_zero w p (trunk p) sunOrbit Ho Hp).
Qed.

Lemma night_plant :
  PI / 2 < rotationalDistance oneCloudWorld (mkPlant PI (trunk createPlant))
             {| orbit_rotation := 0;
                orbit_rotationalVelocity := (2 * PI) / ticksInAYear;
                orbit_target := 0%nat;
                orbit_shape := Ellipse sunOrbitEllipse |}.
Proof.
  unfold rotationalDistance, constraintRadian. cbn [orbit_rotation].
  destruct oneCloudWorld_sun as (_ & _ & _ & ->). cbn [plant_rotation].
  pose proof PI_RGT_0 as Hpi.
  rewrite (Rrem_small_nonneg 0) by lra.
  rewrite (Rrem_small_nonneg (0 + PI)) by lra.
  rewrite Rabs_left by lra. lra.
Qed.


(** X13 for a plant on the night side of [oneCloudWorld], and for the plant
    of [createPlant] at elapsed time 0. *)
Lemma tickPlant_unchanged_witness :
  tickPlant oneCloudWorld (mkPlant PI (trunk createPlant)) (trunk createPlant) 1
  = Ok (trunk createPlant)
  /\ tickPlant oneCloudWorld createPlant (trunk createPlant) 0
     = Ok (trunk createPlant).
Proof.
  split.
  - exact (proj1 (tickPlant_unchanged oneCloudWorld (mkPlant PI (trunk createPlant))
                    (trunk createPlant) 1 _ (proj1 oneCloudWorld_sun))
             night_plant).
  - apply (proj1 (proj2 (tickPlant_unchanged oneCloudWorld createPlant
                           (trunk createPlant) 0 _ (proj1 oneCloudWorld_sun)))).
    constructor; [exact createPlant_awayFromSun | constructor].
Defined.

(** X14.  In daylight and for an elapsed time [dt >= 0], [tickPlant] moves each
    of the two points of the part's extent, seen in global coordinates, by
    exactly [0.005 dt] straight towards the centre of the sun: the distance
    of the point to the sun becomes [|d - 0.005 dt|] for the former distance
    [d]. *)
Theorem tickPlant_grows_towards_sun (w : WorldState) (plant : Plant)
    (plantPart : PlantPart) (dt : R) (sunOrbit : Orbit) :
  orbit (store w !!! sun w) = Some sunOrbit ->
  rotationalDistance w plant sunOrbit <= PI / 2 ->
  awayFromSun w plant (extent plantPart) ->
  0 <= dt ->
  exists plantPart' g1 g2 g1' g2',
    tickPlant w plant plantPart dt = Ok plantPart'
    /\ mapPlantCoordinateToGlobal w plant (extent plantPart)
       = Ok (Some g1, Some g2)
    /\ mapPlantCoordinateToGlobal w plant (extent plantPart')
       = Ok (Some g1', Some g2')
    /\ vectorMath.magnitude (vectorMath.subtract g1' g1) = 0.005 * dt
    /\ vectorMath.magnitude (vectorMath.subtract g2' g2) = 0.005 * dt
    /\ vectorMath.magnitude
         (vectorMath.subtract (location (store w !!! sun w)) g1')
       = Rabs (vectorMath.magnitude
                 (vectorMath.subtract (location (store w !!! sun w)) g1)
               - 0.005 * dt)
    /\ vectorMath.magnitude
         (vectorMath.subtract (location (store w !!! sun w)) g2')
       = Rabs (vectorMath.magnitude
                 (vectorMath.subtract (location (store w !!! sun w)) g2)
               - 0.005 * dt).
Proof.
  intros Ho Hday (g1 & g2 & Hg & H1 & H2) Hdt.
  assert (Hs : exists radius, shape (store w !!! planet w) = Circle radius).
  { unfold mapPlantCoordinateToGlobal in Hg.
    destruct (shape (store w !!! planet w)); [eauto | discriminate]. }
  destruct Hs as [radius Hs].
  destruct plantPart as [e cs d lg]. cbn [extent] in *.
  destruct (grow_towards_sun (store w !!! sun w) dt g1 H1 Hdt)
    as (g1' & Hg1 & Hstep1 & Hsun1).
  destruct (grow_towards_sun (store w !!! sun w) dt g2 H2 Hdt)
    as (g2' & Hg2 & Hstep2 & Hsun2).
  assert (Hcs : exists cs', tickChildren w plant dt cs = Ok cs').
  { apply tickChildren_total. apply Forall_forall. intros c _.
    exact (tickPlant_total w plant c dt sunOrbit radius Ho Hs). }
  destruct Hcs as [cs' Hcs].
  destruct (mapGlobalCoordinateToPlant_total w plant (Some g1', Some g2')
              radius Hs) as [e' He'].
  exists (mkPlantPart e' cs' d lg), g1, g2, g1', g2'.
  split; [| split; [exact Hg | split; [| now repeat split]]].
  - rewrite tickPlant_node. unfold cloudOrbit. rewrite Ho. cbn [bind].
    unfold Rgtb. rewrite Rltb_false by exact Hday.
    rewrite Hcs. cbn [bind]. rewrite Hg. cbn [bind].
    unfold mapExtent at 1. cbn [fst snd mbind option_bind].
    rewrite Hg1, Hg2, He'. reflexivity.
  - cbn [extent]. exact (toGlobal_toPlant w plant _ radius Hs e' He').
Qed.

(** X14 for the plant of [createPlant] in [oneCloudWorld], ticked by 1. *)
Lemma tickPlant_grows_towards_sun_witness :
  exists plantPart' g1 g2 g1' g2',
    tickPlant oneCloudWorld createPlant (trunk createPlant) 1 = Ok plantPart'
    /\ mapPlantCoordinateToGlobal oneCloudWorld createPlant
         (extent (trunk createPlant)) = Ok (Some g1, Some g2)
    /\ mapPlantCoordinateToGlobal oneCloudWorld createPlant (extent plantPart')
       = Ok (Some g1', Some g2')
    /\ vectorMath.magnitude (vectorMath.subtract g1' g1) = 0.005 * 1
    /\ vectorMath.magnitude (vectorMath.subtract g2' g2) = 0.005 * 1
    /\ vectorMath.magnitude
         (vectorMath.subtract
            (location (store oneCloudWorld !!! sun oneCloudWorld)) g1')
       = Rabs (vectorMath.magnitude
                 (vectorMath.subtract
                    (location (store oneCloudWorld !!! sun oneCloudWorld)) g1)
               - 0.005 * 1)
    /\ vectorMath.magnitude
         (vectorMath.subtract
            (location (store oneCloudWorld !!! sun oneCloudWorld)) g2')
       = Rabs (vectorMath.magnitude
                 (vectorMath.subtract
                    (location (store oneCloudWorld !!! sun oneCloudWorld)) g2)
               - 0.005 * 1).
Proof.
  apply (tickPlant_grows_towards_sun oneCloudWorld createPlant
           (trunk createPlant) 1 _ (proj1 oneCloudWorld_sun)
           createPlant_daylight createPlant_awayFromSun).
  lra.
Defined.

(** ** The kinematics pass *)

Lemma tickCelestialObjects_object (l : list addr) (dt : R) (h : heap)
    (a : addr) (ob : Orbit) :
  NoDup l -> a ∈ l -> (a < length h)%nat ->
  orbit (h !!! a) = Some ob -> orbit (h !!! orbit_target ob) = None ->
  tickCelestialObjects l dt h !!! a = tickedObject dt h (h !!! a).
Proof.
  intros Hnodup. revert h.
  induction Hnodup as [| b l Hb Hnodup IH]; intros h Ha Hlen Hob Ht.
  - now apply elem_of_nil in Ha.
  - change (tickCelestialObjects (b :: l) dt h)
      with (tickCelestialObjects l dt (tickCelestialObject dt h b)).
    apply elem_of_cons in Ha as [-> | Ha].
    + rewrite tickCelestialObjects_untouched by exact Hb.
      now apply tickCelestialObject_self.
    + assert (Hne : b <> a) by (intros ->; contradiction).
      destruct (tickCelestialObject_root dt h b _ Ht) as [Ht' Hloc'].
      rewrite IH.
      * rewrite (tickCelestialObject_other dt h b a Hne).
        unfold tickedObject. rewrite Hob. now rewrite Hloc'.
      * exact Ha.
      * now rewrite length_tickCelestialObject.
      * now rewrite (tickCelestialObject_other dt h b a Hne).
      * exact Ht'.
Qed.

Lemma orbitPoint_Rrem_plus (s : Shape) (x c : R) :
  orbitPoint s (Rrem x (PI * 2) + c) = orbitPoint s (x + c).
Proof.
  assert (Hcos : cos (Rrem x (PI * 2) + c) = cos (x + c)).
  { unfold Rrem. rewrite <- (cos_period_Z (x + c) (- Rtrunc (x / (PI * 2)))).
    rewrite opp_IZR. f_equal. ring. }
  assert (Hsin : sin (Rrem x (PI * 2) + c) = sin (x + c)).
  { unfold Rrem. rewrite <- (sin_period_Z (x + c) (- Rtrunc (x / (PI * 2)))).
    rewrite opp_IZR. f_equal. ring. }
  destruct s as [radius | [a b]]; cbn;
    unfold circleHelpers.calcRotationalPoint; now rewrite Hcos, Hsin.
Qed.

(** X15.  The position of an object that orbits a target without an orbit of
    its own depends on the total elapsed time only, not on how the time is
    split into ticks: two kinematics passes of [dt1] and [dt2] leave it
    where one pass of [dt1 + dt2] does. *)
Theorem orbit_position_independent_of_tick_split (l : list addr) (h : heap)
    (a : addr) (ob : Orbit) (dt1 dt2 : R) :
  NoDup l -> a ∈ l -> (a < length h)%nat ->
  orbit (h !!! a) = Some ob -> orbit (h !!! orbit_target ob) = None ->
  location (tickCelestialObjects l dt2 (tickCelestialObjects l dt1 h) !!! a)
  = location (tickCelestialObjects l (dt1 + dt2) h !!! a).
Proof.
  intros Hnodup Ha Hlen Hob Ht.
  pose proof (tickCelestialObjects_object l dt1 h a ob Hnodup Ha Hlen Hob Ht) as H1.
  destruct (tickCelestialObjects_root dt1 l h _ Ht) as [Ht1 Hloc1].
  assert (Hob1 : orbit (tickCelestialObjects l dt1 h !!! a)
                 = Some (set_orbit_rotation
                           (Rrem (orbit_rotation ob
                                  + orbit_rotationalVelocity ob * dt1) (PI * 2))
                           ob)).
  { rewrite H1. unfold tickedObject. now rewrite Hob. }
  assert (Hlen1 : (a < length (tickCelestialObjects l dt1 h))%nat)
    by now rewrite length_tickCelestialObjects.
  rewrite (tickCelestialObjects_location l dt2 _ a _ Hnodup Ha Hlen1 Hob1 Ht1).
  rewrite (tickCelestialObjects_location l (dt1 + dt2) h a ob Hnodup Ha Hlen Hob Ht).
  cbn [set_orbit_rotation orbit_rotation orbit_rotationalVelocity orbit_shape
       orbit_target].
  rewrite Hloc1. f_equal.
  rewrite !orbitPoint_Rrem, orbitPoint_Rrem_plus. f_equal. ring.
Qed.

Lemma Rrem_bounds (x y : R) : 0 < y -> - y < Rrem x y < y.
Proof.
  intros Hy. destruct (Rle_lt_dec 0 x) as [Hx | Hx].
  - pose proof (Rrem_nonneg x y Hy Hx). lra.
  - pose proof (Rrem_nonpos x y Hy). lra.
Qed.

Lemma tickedObject_within_turn (dt : R) (h : heap) (o : CelestialObject) :
  - (PI * 2) < rotation (tickedObject dt h o) < PI * 2
  /\ forall ob, orbit (tickedObject dt h o) = Some ob ->
       - (PI * 2) < orbit_rotation ob < PI * 2.
Proof.
  assert (Hp : 0 < PI * 2) by (pose proof PI_RGT_0; lra).
  unfold tickedObject. destruct (orbit o) as [ob0 |] eqn:Ho; cbn.
  - split; [now apply Rrem_bounds |]. intros ob [= <-]. cbn. now apply Rrem_bounds.
  - split; [now apply Rrem_bounds |]. rewrite Ho. discriminate.
Qed.

Lemma tickCelestialObjects_within_turn (l : list addr) (dt : R) (h : heap)
    (a : addr) :
  (a < length h)%nat ->
  a ∈ l
  \/ (- (PI * 2) < rotation (h !!! a) < PI * 2
      /\ forall ob, orbit (h !!! a) = Some ob ->
           - (PI * 2) < orbit_rotation ob < PI * 2) ->
  - (PI * 2) < rotation (tickCelestialObjects l dt h !!! a) < PI * 2
  /\ forall ob, orbit (tickCelestialObjects l dt h !!! a) = Some ob ->
       - (PI * 2) < orbit_rotation ob < PI * 2.
Proof.
  revert h. induction l as [| b l IH]; intros h Hlen Hcase.
  - destruct Hcase as [Ha | Hw]; [now apply elem_of_nil in Ha | exact Hw].
  - change (tickCelestialObjects (b :: l) dt h)
      with (tickCelestialObjects l dt (tickCelestialObject dt h b)).
    apply IH; [now rewrite length_tickCelestialObject |].
    destruct (decide (a = b)) as [<- | Hne].
    + right. rewrite tickCelestialObject_self by exact Hlen.
      apply tickedObject_within_turn.
    + rewrite tickCelestialObject_other by congruence.
      destruct Hcase as [Ha | Hw]; [| now right].
      apply elem_of_cons in Ha as [-> | Ha]; [contradiction | now left].
Qed.

(** X16.  After the kinematics pass every processed object has its
    [rotation], and its [orbit.rotation] if it has an orbit, strictly
    between [- 2 PI] and [2 PI]. *)
Theorem rotations_within_one_turn (w : WorldState) (dt : R) (a : addr) :
  a ∈ things w -> (a < length (store w))%nat ->
  let o := tickCelestialObjects (things w) dt (store w) !!! a in
  - (PI * 2) < rotation o < PI * 2
  /\ (forall ob, orbit o = Some ob -> - (PI * 2) < orbit_rotation ob < PI * 2).
Proof.
  intros Ha Hlen. cbv zeta.
  destruct (tickCelestialObjects_within_turn (things w) dt (store w) a Hlen
              (or_introl Ha)) as [Hrot Horb].
  split; [exact Hrot | exact Horb].
Qed.

Lemma NoDup_things_unequalClouds : NoDup (things unequalClouds).
Proof.
  change (NoDup [1; 0; 2; 3]%nat).
  repeat (apply NoDup_cons; split;
          [intros H; rewrite ?elem_of_cons, ?elem_of_nil in H; lia |]).
  apply NoDup_nil. exact I.
Qed.

Lemma cloud_in_things_unequalClouds : 2%nat ∈ things unequalClouds.
Proof.
  change (things unequalClouds) with [1; 0; 2; 3]%nat. rewrite !elem_of_cons. auto.
Qed.

(** X15 for the first cloud of [unequalClouds], whose orbital angular
    velocity is 0.004: two ticks of 1 and 2 against one tick of 3. *)
Lemma orbit_position_independent_of_tick_split_witness :
  location (tickCelestialObjects (things unequalClouds) 2
              (tickCelestialObjects (things unequalClouds) 1 (store unequalClouds))
            !!! 2%nat)
  = location (tickCelestialObjects (things unequalClouds) (1 + 2)
                (store unequalClouds) !!! 2%nat).
Proof.
  apply (orbit_position_independent_of_tick_split (things unequalClouds)
           (store unequalClouds) 2%nat
           {| orbit_target := 0%nat; orbit_rotationalVelocity := 0.004;
              orbit_rotation := 0; orbit_shape := Circle 7 |} 1 2).
  - exact NoDup_things_unequalClouds.
  - exact cloud_in_things_unequalClouds.
  - cbn. lia.
  - reflexivity.
  - reflexivity.
Defined.

(** X16 for the first cloud of [unequalClouds], ticked by 1. *)
Lemma rotations_within_one_turn_witness :
  let o := tickCelestialObjects (things unequalClouds) 1 (store unequalClouds)
           !!! 2%nat in
  - (PI * 2) < rotation o < PI * 2
  /\ (forall ob, orbit o = Some ob -> - (PI * 2) < orbit_rotation ob < PI * 2).
Proof.
  apply (rotations_within_one_turn unequalClouds 1 2%nat).
  - exact cloud_in_things_unequalClouds.
  - cbn. lia.
Defined.

(** ** The rain pass *)

Lemma clipMagnitude_bound (v v' : Vector2d) (m : R) :
  0 <= m -> vectorMath.clipMagnitude v m = Some v' -> vectorMath.magnitude v' <= m.
Proof.
  intros Hm. destruct (Rle_lt_dec (vectorMath.magnitude v) m) as [Hle | Hgt].
  - rewrite clipMagnitude_below by exact Hle. now intros [= <-].
  - rewrite clipMagnitude_above by exact Hgt.
    destruct (vectorMath.unitVector v) as [u |] eqn:Hu; [| discriminate].
    cbn [fmap option_fmap option_map]. intros [= <-].
    rewrite magnitude_multiply by exact Hm.
    rewrite (magnitude_unitVector v u Hu). lra.
Qed.

Lemma tickRainParticle_Some (planet : CelestialObject) (dt : R) (r r' : Rain) :
  tickRainParticle planet dt r = Some r' ->
  vectorMath.magnitude (rain_velocity r') <= maxRainVelocity
  /\ rain_location r'
     = vectorMath.add (rain_location r)
         (vectorMath.multiply (rain_velocity r') dt)
  /\ exists radius,
       shape planet = Circle radius
       /\ radius < vectorMath.magnitude
                     (vectorMath.subtract (rain_location r') (location planet)).
Proof.
  unfold tickRainParticle.
  destruct (vectorMath.unitVector _) as [dir |]; [| discriminate].
  destruct (vectorMath.clipMagnitude _ _) as [velocity |] eqn:Hclip;
    [| discriminate].
  destruct (shape planet) as [radius | axes]; cbn [aboveGround]; [| discriminate].
  unfold Rgtb, Rltb. destruct (Rlt_dec _ _) as [Hlt |]; [| discriminate].
  intros [= <-]. cbn [rain_velocity rain_location]. split; [| split].
  - eapply clipMagnitude_bound; [| exact Hclip]. unfold maxRainVelocity. lra.
  - reflexivity.
  - exists radius. split; [reflexivity | exact Hlt].
Qed.

Lemma length_omap_le {A B : Type} (f : A -> option B) (l : list A) :
  (length (omap f l) <= length l)%nat.
Proof.
  induction l as [| x l IH]; [reflexivity |].
  cbn [omap list_omap]. fold (@list_omap A B). destruct (f x); cbn [length]; lia.
Qed.

(** X17.  What [tickRain] leaves in [water.rain]: every particle it keeps
    has a speed of at most [maxRainVelocity], lies strictly above the surface
    of a planet whose shape is a number, and is a particle of the old rain
    moved by its new velocity times the elapsed time.  The pass adds no
    particle, deletes all rain when the shape of the planet is not a number,
    and leaves the celestial objects and the clouds as they are. *)
Theorem tickRain_keeps_falling_rain (w : WorldState) (dt : R) :
  let planet := store w !!! planet w in
  Forall (fun r' =>
            vectorMath.magnitude (rain_velocity r') <= maxRainVelocity
            /\ (exists radius,
                  shape planet = Circle radius
                  /\ radius < vectorMath.magnitude
                                (vectorMath.subtract (rain_location r')
                                                     (location planet)))
            /\ (exists r, r ∈ rain w
                  /\ rain_location r'
                     = vectorMath.add (rain_location r)
                         (vectorMath.multiply (rain_velocity r') dt)))
         (rain (tickRain w dt))
  /\ (length (rain (tickRain w dt)) <= length (rain w))%nat
  /\ (forall axes, shape planet = Ellipse axes -> rain (tickRain w dt) = [])
  /\ store (tickRain w dt) = store w
  /\ clouds (tickRain w dt) = clouds w.
Proof.
  cbv zeta. unfold tickRain. cbn [rain set_rain store clouds].
  split; [| split; [apply length_omap_le | split; [| split; reflexivity]]].
  - apply Forall_forall. intros r' Hr'.
    apply list_elem_of_omap in Hr' as (r & Hr & Hstep).
    destruct (tickRainParticle_Some _ _ _ _ Hstep) as (Hv & Hl & Hs).
    split; [exact Hv |]. split; [exact Hs |]. exists r. now split.
  - intros axes Hs.
    destruct (omap _ (rain w)) as [| r' rs] eqn:Hr; [reflexivity |].
    assert (Hin : r' ∈ omap (tickRainParticle (store w !!! planet w) dt) (rain w))
      by (rewrite Hr; apply list_elem_of_here).
    apply list_elem_of_omap in Hin as (r & _ & Hstep).
    destruct (tickRainParticle_Some _ _ _ _ Hstep) as (_ & _ & radius & Hc & _).
    congruence.
Qed.

(** ** The groups of clouds *)

Lemma Rltb_iff (x y : R) : Rltb x y = true <-> x < y.
Proof.
  unfold Rltb. destruct (Rlt_dec x y); split; (congruence || tauto || discriminate).
Qed.

Lemma inCloudRange_spec (range : Vector2d) (t : R) :
  inCloudRange range t = true
  <-> (range.2 < range.1 /\ (range.1 < t \/ t < range.2))
      \/ (range.1 < t /\ t < range.2).
Proof.
  destruct range as [b e]. unfold inCloudRange, Rgtb. cbn [fst snd].
  rewrite orb_true_iff, !andb_true_iff, orb_true_iff, !Rltb_iff. tauto.
Qed.

Lemma cloudRange_in (i : nat) : (i < 10)%nat -> cloudRange i ∈ cloudRanges.
Proof.
  intros Hi. apply list_elem_of_In, in_map, in_seq. unfold cloudRangeCount. lia.
Qed.

Lemma cloudRange_values (i : nat) :
  cloudRange i
  = (if (i =? 0)%nat then 19 * PI / 10 else (2 * INR i - 1) * PI / 10,
     if (i =? 9)%nat then PI / 10 else (2 * INR i + 3) * PI / 10).
Proof.
  unfold cloudRange. rewrite INR_cloudRangeCount.
  change (cloudRangeCount - 1)%nat with 9%nat.
  destruct (i =? 0)%nat, (i =? 9)%nat; f_equal; field.
Qed.

Ltac sector i :=
  exists (cloudRange i); split; [apply cloudRange_in; lia |];
  rewrite !inCloudRange_spec, cloudRange_values;
  cbn [Nat.eqb fst snd INR]; split; lra.

Lemma ordered_rotations_share_a_sector (t1 t2 : R) :
  0 <= t1 -> t1 <= t2 -> t2 < PI * 2 ->
  t2 - t1 < PI / 5 \/ PI * 2 - (t2 - t1) < PI / 5 ->
  exists range, range ∈ cloudRanges
    /\ inCloudRange range t1 = true /\ inCloudRange range t2 = true.
Proof.
  intros H0 H12 H2 Hclose. pose proof PI_RGT_0 as Hpi.
  destruct Hclose as [Hd | Hw].
  - destruct (Rle_lt_dec t1 (1 * PI / 10)); [sector 0%nat |].
    destruct (Rle_lt_dec t1 (3 * PI / 10)); [sector 1%nat |].
    destruct (Rle_lt_dec t1 (5 * PI / 10)); [sector 2%nat |].
    destruct (Rle_lt_dec t1 (7 * PI / 10)); [sector 3%nat |].
    destruct (Rle_lt_dec t1 (9 * PI / 10)); [sector 4%nat |].
    destruct (Rle_lt_dec t1 (11 * PI / 10)); [sector 5%nat |].
    destruct (Rle_lt_dec t1 (13 * PI / 10)); [sector 6%nat |].
    destruct (Rle_lt_dec t1 (15 * PI / 10)); [sector 7%nat |].
    destruct (Rle_lt_dec t1 (17 * PI / 10)); [sector 8%nat |].
    destruct (Rle_lt_dec t1 (19 * PI / 10)); [sector 9%nat | sector 0%nat].
  - destruct (Rle_lt_dec t2 (19 * PI / 10)); [sector 9%nat | sector 0%nat].
Qed.

Lemma wellFormed_neighbourClouds : wellFormed neighbourClouds.
Proof.
  split; [cbn; lia |]. split; [exists 3; reflexivity |].
  repeat constructor; try (cbn; lia);
    try (eexists; reflexivity);
    eexists; eexists; split; reflexivity.
Qed.

Lemma wellFormed_clockwiseClouds : wellFormed clockwiseClouds.
Proof.
  split; [cbn; lia |]. split; [exists 3; reflexivity |].
  repeat constructor; try (cbn; lia);
    try (eexists; reflexivity);
    eexists; eexists; split; reflexivity.
Qed.

Lemma PI_gt_3 : 3 < PI.
Proof. pose proof PI2_3_2. lra. Qed.

Lemma getCloudGroup_inv_from (h : heap) (cs : list addr) (range : Vector2d)
    (acc group : list addr) :
  forOf (fun group cloud =>
           let! ob := cloudOrbit h cloud in
           Ok (if inCloudRange range (orbit_rotation ob)
               then group ++ [cloud] else group))
        acc cs
  = Ok group ->
  group = acc ++ cloudGroup h cs range.
Proof.
  revert acc. induction cs as [| c cs IH]; intros acc.
  - cbn. intros [= <-]. now rewrite app_nil_r.
  - cbn [forOf cloudGroup List.filter]. unfold cloudOrbit at 1.
    destruct (orbit (h !!! c)) as [ob |]; [| discriminate]. cbn [bind].
    destruct (inCloudRange range (orbit_rotation ob)); intros Hrun.
    + rewrite (IH _ Hrun). unfold cloudGroup. now rewrite <- app_assoc.
    + exact (IH _ Hrun).
Qed.

Lemma getCloudGroups_inv_from (h : heap) (cs : list addr)
    (ranges : list Vector2d) (acc groups : list (list addr)) :
  forOf (fun cloudGroups range =>
           let! group := getCloudGroup h cs range in
           Ok (cloudGroups ++ [group]))
        acc ranges
  = Ok groups ->
  groups = acc ++ map (cloudGroup h cs) ranges.
Proof.
  revert acc. induction ranges as [| r rs IH]; intros acc; cbn [forOf map].
  - intros [= <-]. now rewrite app_nil_r.
  - destruct (getCloudGroup h cs r) as [group |] eqn:Hg; [| discriminate].
    cbn [bind]. intros Hrun. rewrite (IH _ Hrun).
    apply (getCloudGroup_inv_from h cs r []) in Hg. subst group.
    now rewrite <- app_assoc.
Qed.

Lemma getCloudGroups_inv (h : heap) (cs : list addr) (groups : list (list addr)) :
  getCloudGroups h cs = Ok groups ->
  groups = map (cloudGroup h cs) cloudRanges.
Proof. intros H. exact (getCloudGroups_inv_from h cs cloudRanges [] groups H). Qed.

Lemma elem_of_cloudGroup_iff (h : heap) (cs : list addr) (range : Vector2d)
    (c : addr) (ob : Orbit) :
  orbit (h !!! c) = Some ob ->
  c ∈ cloudGroup h cs range
  <-> c ∈ cs /\ inCloudRange range (orbit_rotation ob) = true.
Proof.
  intros Hob. rewrite !list_elem_of_In. unfold cloudGroup.
  rewrite filter_In, Hob. tauto.
Qed.

(** X18.  [getCloudGroups] returns ten groups, and the fuzzy ranges overlap so
    that two clouds whose orbit rotations lie in [0, 2 PI) and differ by less
    than [PI / 5], directly or around the full turn, are together in at least
    one group. *)
Theorem nearby_clouds_share_a_group (h : heap) (cs : list addr)
    (groups : list (list addr)) (a b : addr) (oa ob : Orbit) :
  getCloudGroups h cs = Ok groups ->
  a ∈ cs -> b ∈ cs ->
  orbit (h !!! a) = Some oa -> orbit (h !!! b) = Some ob ->
  0 <= orbit_rotation oa < PI * 2 -> 0 <= orbit_rotation ob < PI * 2 ->
  Rabs (orbit_rotation oa - orbit_rotation ob) < PI / 5
  \/ PI * 2 - Rabs (orbit_rotation oa - orbit_rotation ob) < PI / 5 ->
  length groups = 10%nat /\ sharesGroup groups a b.
Proof.
  intros Hrun Ha Hb Hoa Hob Hra Hrb Hclose.
  rewrite (getCloudGroups_inv h cs groups Hrun). split; [reflexivity |].
  assert (Hrange : exists range, range ∈ cloudRanges
            /\ inCloudRange range (orbit_rotation oa) = true
            /\ inCloudRange range (orbit_rotation ob) = true).
  { destruct (Rle_lt_dec (orbit_rotation oa) (orbit_rotation ob)) as [Hle | Hlt].
    - apply ordered_rotations_share_a_sector; [lra | exact Hle | lra |].
      rewrite Rabs_left1 in Hclose by lra. lra.
    - destruct (ordered_rotations_share_a_sector (orbit_rotation ob)
                  (orbit_rotation oa)) as (range & Hin & H1 & H2);
        [lra | lra | lra | | now exists range].
      rewrite Rabs_right in Hclose by lra. lra. }
  destruct Hrange as (range & Hin & H1 & H2).
  exists (cloudGroup h cs range). split; [| split].
  - apply list_elem_of_In, in_map, list_elem_of_In, Hin.
  - now apply (elem_of_cloudGroup_iff h cs range a oa Hoa).
  - now apply (elem_of_cloudGroup_iff h cs range b ob Hob).
Qed.


(** X18 for the two clouds of [neighbourClouds], at orbit rotations 0.1 and
    0.5. *)
Lemma nearby_clouds_share_a_group_witness :
  exists groups,
    getCloudGroups (store neighbourClouds) (clouds neighbourClouds) = Ok groups
    /\ length groups = 10%nat /\ sharesGroup groups 2%nat 3%nat.
Proof.
  pose proof PI_gt_3 as Hpi.
  destruct wellFormed_neighbourClouds as (_ & _ & Hready).
  eexists. split; [exact (getCloudGroups_Ok _ _ Hready) |].
  apply (nearby_clouds_share_a_group (store neighbourClouds)
           (clouds neighbourClouds) _ 2%nat 3%nat
           {| orbit_target := 0%nat; orbit_rotationalVelocity := 0.004;
              orbit_rotation := 0.1; orbit_shape := Circle 7 |}
           {| orbit_target := 0%nat; orbit_rotationalVelocity := 0.004;
              orbit_rotation := 0.5; orbit_shape := Circle 7 |}
           (getCloudGroups_Ok _ _ Hready)).
  - change (clouds neighbourClouds) with [2; 3]%nat. rewrite !elem_of_cons. auto.
  - change (clouds neighbourClouds) with [2; 3]%nat. rewrite !elem_of_cons. auto.
  - reflexivity.
  - reflexivity.
  - cbn [orbit_rotation]. lra.
  - cbn [orbit_rotation]. lra.
  - left. cbn [orbit_rotation]. rewrite Rabs_left by lra. lra.
Defined.

Lemma cloudRanges_lookup (i : nat) :
  (i < 10)%nat -> cloudRanges !! i = Some (cloudRange i).
Proof.
  intros Hi. unfold cloudRanges, cloudRangeCount.
  change (map cloudRange (seq 0 10)) with (cloudRange <$> seq 0 10).
  rewrite list_lookup_fmap, lookup_seq_lt by exact Hi. reflexivity.
Qed.

Lemma negative_rotation_ranges (t : R) (i : nat) :
  t < 0 -> (i < 10)%nat ->
  inCloudRange (cloudRange i) t = true <-> i = 0%nat \/ i = 9%nat.
Proof.
  intros Ht Hi. pose proof PI_RGT_0 as Hpi.
  rewrite inCloudRange_spec, cloudRange_values.
  do 10 (destruct i as [| i];
         [cbn [Nat.eqb fst snd INR]; split;
          [intros H; (lia || (exfalso; lra)) | intros H; (lra || (exfalso; lia))] |]).
  lia.
Qed.

(** X19.  A cloud whose orbit rotation is negative, as the remainder operator
    leaves it on a clockwise orbit, is put into the first and the last group
    and into no other, wherever on its orbit it is. *)
Theorem negative_rotations_fall_in_two_groups (h : heap) (cs : list addr)
    (groups : list (list addr)) (c : addr) (oc : Orbit) :
  getCloudGroups h cs = Ok groups ->
  c ∈ cs -> orbit (h !!! c) = Some oc -> orbit_rotation oc < 0 ->
  forall i group, groups !! i = Some group ->
    c ∈ group <-> i = 0%nat \/ i = 9%nat.
Proof.
  intros Hrun Hc Hoc Hneg i group Hi.
  rewrite (getCloudGroups_inv h cs groups Hrun) in Hi.
  change (map (cloudGroup h cs) cloudRanges)
    with (cloudGroup h cs <$> cloudRanges) in Hi.
  rewrite list_lookup_fmap in Hi.
  destruct (cloudRanges !! i) as [range |] eqn:Hr; [| discriminate].
  injection Hi as <-.
  assert (Hlt : (i < 10)%nat).
  { apply lookup_lt_Some in Hr. unfold cloudRanges, cloudRangeCount in Hr.
    now rewrite length_map, length_seq in Hr. }
  rewrite (cloudRanges_lookup i Hlt) in Hr. injection Hr as <-.
  rewrite (elem_of_cloudGroup_iff h cs _ c oc Hoc).
  rewrite (negative_rotation_ranges _ i Hneg Hlt). tauto.
Qed.

(** X19 for the first cloud of [clockwiseClouds], at orbit rotation -1, and
    the first group. *)
Lemma negative_rotations_fall_in_two_groups_witness :
  exists groups group,
    getCloudGroups (store clockwiseClouds) (clouds clockwiseClouds) = Ok groups
    /\ groups !! 0%nat = Some group
    /\ (2%nat ∈ group <-> 0%nat = 0%nat \/ 0%nat = 9%nat).
Proof.
  destruct wellFormed_clockwiseClouds as (_ & _ & Hready).
  eexists _, _. split; [exact (getCloudGroups_Ok _ _ Hready) |].
  split; [reflexivity |].
  apply (negative_rotations_fall_in_two_groups (store clockwiseClouds)
           (clouds clockwiseClouds) _ 2%nat
           {| orbit_target := 0%nat; orbit_rotationalVelocity := -0.004;
              orbit_rotation := -1; orbit_shape := Circle 7 |}
           (getCloudGroups_Ok _ _ Hready)).
  - change (clouds clockwiseClouds) with [2; 3]%nat. rewrite !elem_of_cons. auto.
  - reflexivity.
  - cbn [orbit_rotation]. lra.
  - reflexivity.
Defined.

(** ** Friendship *)

Lemma friends_beyond (h : heap) (a : addr) :
  (length h <= a)%nat -> friends (h !!! a) = [].
Proof.
  intros Ha. rewrite list_lookup_total_alt, lookup_ge_None_2 by exact Ha.
  reflexivity.
Qed.

Lemma tickCloud_friends (cs : list addr) (dt : R) (st st' : CloudLoop) (c : addr) :
  tickCloud cs dt st c = Ok st' ->
  (length (store (loop_world st)) <= length (store (loop_world st')))%nat
  /\ forall a, friends (store (loop_world st') !!! a)
               = friends (store (loop_world st) !!! a).
Proof.
  intros Hrun.
  apply tickCloud_Ok in Hrun
    as (h2 & emitted & retain & spawned & Hstore & _ & _ & _ & _ & _ & Hh2 & _
        & Hspawned).
  destruct (emission_rained (store (loop_world st)) h2
              (collectiveMass (store (loop_world st)) c) c) as [Hlen Hr].
  { destruct Hh2 as [[-> _] | [-> _]]; [now left | now right]. }
  rewrite Hstore. split; [rewrite length_app; lia |].
  intros a. destruct (decide (a < length h2)%nat) as [Ha | Ha].
  - rewrite lookup_total_app_l by exact Ha.
    now destruct (Hr a) as (_ & _ & _ & _ & _ & Hf & _).
  - rewrite (friends_beyond (store (loop_world st))) by lia.
    rewrite lookup_total_app_r by lia.
    destruct Hspawned as [-> | (newCloud & -> & Hfresh & _)].
    + apply friends_beyond. cbn. lia.
    + destruct (a - length h2)%nat as [| k] eqn:Hk.
      * cbn. now destruct Hfresh as (_ & _ & _ & _ & Hf).
      * apply friends_beyond. cbn. lia.
Qed.

Lemma cloudLoop_friends (cs l : list addr) (dt : R) (st st' : CloudLoop) :
  forOf (tickCloud cs dt) st l = Ok st' ->
  (length (store (loop_world st)) <= length (store (loop_world st')))%nat
  /\ forall a, friends (store (loop_world st') !!! a)
               = friends (store (loop_world st) !!! a).
Proof.
  apply (forOf_invariant
           (fun s => (length (store (loop_world st))
                      <= length (store (loop_world s)))%nat
                     /\ forall a, friends (store (loop_world s) !!! a)
                                  = friends (store (loop_world st) !!! a))).
  - intros s c s' _ [Hlen Hf] Hstep.
    destruct (tickCloud_friends cs dt s s' c Hstep) as [Hlen' Hf'].
    split; [lia |]. intros a. now rewrite Hf'.
  - split; [lia | reflexivity].
Qed.

Lemma tickWorld_friends (w w' : WorldState) (now : Z) (g g' : Rng) :
  tickWorld w now g = Ok (w', g') ->
  let h0 := tickCelestialObjects (things w) (elapsedWorldTime w now) (store w) in
  exists groups h1,
    getCloudGroups h0 (clouds w) = Ok groups
    /\ clusterClouds h0 groups = Ok h1
    /\ (length (store w) <= length (store w'))%nat
    /\ forall a, friends (store w' !!! a) = friends (h1 !!! a).
Proof.
  intros Hrun h0.
  apply tickWorld_Ok in Hrun as (groups & h1 & st' & Hg & Hc & Hloop & -> & _).
  fold h0 in Hg, Hc. exists groups, h1.
  split; [exact Hg |]. split; [exact Hc |].
  destruct (cloudLoop_friends _ _ _ _ _ Hloop) as [Hlen Hf].
  cbn [loop_world store set_store set_lastTick] in Hlen, Hf.
  destruct (clusterClouds_inv _ _ _ Hc) as (Hlen1 & _ & _).
  rewrite tickRain_store. split.
  - unfold h0 in Hlen1. rewrite length_tickCelestialObjects in Hlen1. lia.
  - exact Hf.
Qed.

Lemma sharesGroup_sym (groups : list (list addr)) (a b : addr) :
  sharesGroup groups a b -> sharesGroup groups b a.
Proof. intros (group & Hg & Ha & Hb). now exists group. Qed.

Lemma friendship_step (w w' : WorldState) (now : Z) (g g' : Rng) :
  wellFormed w -> friendly (store w) ->
  tickWorld w now g = Ok (w', g') ->
  friendly (store w').
Proof.
  intros Hwf Hfr Hrun.
  pose proof (wellFormed_kinematics w (elapsedWorldTime w now) Hwf) as Hready.
  destruct (tickWorld_friends w w' now g g' Hrun)
    as (groups & h1 & Hg & Hc & Hlen & Hf).
  set (h0 := tickCelestialObjects (things w) (elapsedWorldTime w now) (store w))
    in *.
  assert (Hlen0 : length h0 = length (store w))
    by apply length_tickCelestialObjects.
  assert (Hf0 : forall a, friends (h0 !!! a) = friends (store w !!! a)).
  { intros a.
    now destruct (tickCelestialObjects_moved (things w) (elapsedWorldTime w now)
                    (store w) a) as (_ & _ & _ & _ & Hfa & _). }
  pose proof (getCloudGroups_inv _ _ _ Hg) as Hgroups.
  destruct (clusterClouds_inv _ _ _ Hc) as (Hlen1 & Hcl & Hnew).
  assert (Hmono : forall a b, b ∈ friends (h0 !!! a) -> b ∈ friends (h1 !!! a)).
  { intros a b Hb. destruct (Hcl a) as (_ & _ & _ & _ & _ & _ & _ & Hsub).
    now apply Hsub. }
  intros a b Hb. rewrite Hf in Hb. rewrite Hf.
  destruct (Hnew a b Hb) as [Hold | (Hne & Hshare & Hnear)].
  - rewrite Hf0 in Hold. destruct (Hfr a b Hold) as (Hne & Hlt & Hsym).
    split; [exact Hne |]. split; [lia |].
    apply Hmono. now rewrite Hf0.
  - pose proof Hshare as Hin. rewrite Hgroups in Hin.
    apply sharesGroup_clouds in Hin as [Ha Hb'].
    rewrite Forall_forall in Hready.
    destruct (Hready a Ha) as (Hla & _). destruct (Hready b Hb') as (Hlb & _).
    split; [exact Hne |]. split; [lia |].
    destruct Hnear as [Hnear | Hnear].
    + now destruct (clusterClouds_befriends _ _ _ a b Hc Hshare Hne Hla Hlb Hnear).
    + apply sharesGroup_sym in Hshare.
      now destruct (clusterClouds_befriends _ _ _ b a Hc Hshare
                      ltac:(congruence) Hlb Hla Hnear).
Qed.

Lemma tickWorld_friendly (w w' : WorldState) (now : Z) (g g' : Rng) :
  wellFormed w -> friendly (store w) ->
  tickWorld w now g = Ok (w', g') ->
  wellFormed w' /\ friendly (store w').
Proof.
  intros Hwf Hfr Hrun. split.
  - destruct (tickWorld_total w now g Hwf) as (w1 & g1 & Hrun1 & Hwf1).
    congruence.
  - exact (friendship_step w w' now g g' Hwf Hfr Hrun).
Qed.

(** X20.  Friendship stays a symmetric relation without self-friendship:
    in a well-formed world in which every friend of an object is another
    object of the store that has the object among its own friends, the same
    holds after any number of ticks. *)
Theorem friendship_stays_symmetric (w w' : WorldState) (nows : list Z)
    (g g' : Rng) :
  wellFormed w -> friendly (store w) ->
  tickWorlds w nows g = Ok (w', g') ->
  friendly (store w').
Proof.
  revert w g. induction nows as [| now nows IH]; intros w g Hwf Hfr Hrun.
  - cbn in Hrun. now injection Hrun as <- _.
  - cbn [tickWorlds] in Hrun.
    destruct (tickWorld w now g) as [[w1 g1] |] eqn:Hstep; [| discriminate].
    cbn [bind fst snd] in Hrun.
    destruct (tickWorld_friendly w w1 now g g1 Hwf Hfr Hstep) as [Hwf1 Hfr1].
    exact (IH w1 g1 Hwf1 Hfr1 Hrun).
Qed.

Lemma friendly_farFriends : friendly (store farFriends).
Proof.
  intros a b Hb.
  destruct a as [| [| [| [| a]]]]; cbn in Hb;
    rewrite ?elem_of_cons, ?elem_of_nil in Hb;
    try (exfalso; tauto); try (now apply elem_of_nil in Hb).
  - destruct Hb as [-> | []]. cbn. split; [lia |]. split; [lia |].
    apply list_elem_of_here.
  - destruct Hb as [-> | []]. cbn. split; [lia |]. split; [lia |].
    apply list_elem_of_here.
Qed.

(** X20 for the world [farFriends] and three ticks. *)
Lemma friendship_stays_symmetric_witness :
  exists w' g',
    tickWorlds farFriends [10; 20; 35]%Z (constantRng 0.5) = Ok (w', g')
    /\ friendly (store w').
Proof.
  destruct (tickWorlds_total [10; 20; 35]%Z farFriends (constantRng 0.5)
              wellFormed_farFriends) as (w' & g' & Hrun & _).
  exists w', g'. split; [exact Hrun |].
  exact (friendship_stays_symmetric farFriends w' _ _ g'
           wellFormed_farFriends friendly_farFriends Hrun).
Defined.

(** ** Population, rain and mass *)

Lemma tickCloud_counts (cs : list addr) (dt : R) (st st' : CloudLoop) (c : addr) :
  tickCloud cs dt st c = Ok st' ->
  (length (store (loop_world st)) <= length (store (loop_world st'))
   /\ length (store (loop_world st')) <= S (length (store (loop_world st)))
   /\ length (remainingClouds st') + length (store (loop_world st))
      <= S (length (remainingClouds st)) + length (store (loop_world st'))
   /\ length (rain (loop_world st')) <= S (length (rain (loop_world st)))
   /\ length (rain (loop_world st)) <= length (rain (loop_world st'))
   /\ (20 <= length cs ->
       length (store (loop_world st')) = length (store (loop_world st))))%nat
  /\ clouds (loop_world st') = remainingClouds st'.
Proof.
  intros Hrun.
  apply tickCloud_Ok in Hrun
    as (h2 & emitted & retain & spawned & Hstore & Hrain & _ & Hclouds & Hrem
        & _ & Hh2 & _ & Hspawned).
  destruct (emission_rained (store (loop_world st)) h2
              (collectiveMass (store (loop_world st)) c) c) as [Hlen _].
  { destruct Hh2 as [[-> _] | [-> _]]; [now left | now right]. }
  assert (Hem : (length emitted <= 1)%nat).
  { destruct Hh2 as [[_ ->] | (_ & [r ->] & _)]; cbn; lia. }
  assert (Hsp : (length spawned <= 1)%nat
                /\ ((20 <= length cs)%nat -> length spawned = 0%nat)).
  { destruct Hspawned as [-> | (newCloud & -> & _ & Hlt)]; cbn; split; lia. }
  destruct Hsp as [Hsp1 Hsp2].
  assert (Hre : (length (remainingClouds st')
                 <= S (length (remainingClouds st)) + length spawned)%nat).
  { rewrite Hrem, length_app, length_seq.
    destruct retain; rewrite ?length_app; cbn [length]; lia. }
  rewrite Hstore, Hrain, !length_app, Hlen.
  split; [| exact Hclouds]. repeat split; lia.
Qed.

Lemma cloudLoop_counts (cs l : list addr) (dt : R) (st st' : CloudLoop) :
  forOf (tickCloud cs dt) st l = Ok st' ->
  (length (store (loop_world st)) <= length (store (loop_world st'))
   /\ length (store (loop_world st'))
      <= length (store (loop_world st)) + length l
   /\ length (remainingClouds st') + length (store (loop_world st))
      <= length (remainingClouds st) + length l + length (store (loop_world st'))
   /\ length (rain (loop_world st'))
      <= length (rain (loop_world st)) + length l
   /\ length (rain (loop_world st)) <= length (rain (loop_world st'))
   /\ (20 <= length cs ->
       length (store (loop_world st')) = length (store (loop_world st))))%nat
  /\ (l <> [] -> clouds (loop_world st') = remainingClouds st').
Proof.
  revert st. induction l as [| c l IH]; intros st Hrun.
  - cbn in Hrun. injection Hrun as <-. split; [| congruence].
    repeat split; lia.
  - cbn [forOf] in Hrun.
    destruct (tickCloud cs dt st c) as [st1 |] eqn:Hstep; [| discriminate].
    cbn [bind] in Hrun.
    destruct (tickCloud_counts cs dt st st1 c Hstep)
      as ((H1 & H2 & H3 & H4 & H5 & H6) & Hc1).
    destruct (IH st1 Hrun) as ((I1 & I2 & I3 & I4 & I5 & I6) & Ic).
    split.
    + cbn [length]. repeat split; lia.
    + intros _. destruct l as [| c' l'].
      * cbn in Hrun. injection Hrun as <-. exact Hc1.
      * now apply Ic.
Qed.

(** X21.  One tick never shrinks the store and creates at most one cloud per
    cloud it started with; the number of clouds grows by at most the number
    of clouds created, so it at most doubles, and it does not grow at all
    once there are 20 clouds or more; the number of rain particles grows by
    at most one per cloud. *)
Theorem tick_population_bounds (w w' : WorldState) (now : Z) (g g' : Rng) :
  tickWorld w now g = Ok (w', g') ->
  (length (store w) <= length (store w')
   /\ length (store w') <= length (store w) + length (clouds w)
   /\ length (clouds w') + length (store w)
      <= length (clouds w) + length (store w')
   /\ length (clouds w') <= 2 * length (clouds w)
   /\ (20 <= length (clouds w) ->
       length (store w') = length (store w)
       /\ length (clouds w') <= length (clouds w))
   /\ length (rain w') <= length (rain w) + length (clouds w))%nat.
Proof.
  intros Hrun.
  apply tickWorld_Ok in Hrun as (groups & h1 & st' & _ & Hc & Hloop & -> & _).
  destruct (clusterClouds_inv _ _ _ Hc) as (Hlen1 & _ & _).
  rewrite length_tickCelestialObjects in Hlen1.
  destruct (cloudLoop_counts _ _ _ _ _ Hloop)
    as ((H1 & H2 & H3 & H4 & H5 & H6) & Hcl).
  cbn [loop_world store set_store set_lastTick remainingClouds rain length]
    in H1, H2, H3, H4, H5, H6.
  rewrite Hlen1 in *.
  assert (Hclouds : (length (clouds (loop_world st')) + length (store w)
                     <= length (clouds w) + length (store (loop_world st')))%nat).
  { destruct (clouds w) as [| c cs] eqn:Hcs.
    - cbn in Hloop. injection Hloop as <-. cbn. rewrite Hcs, Hlen1. cbn. lia.
    - rewrite Hcl by discriminate. cbn [length] in *. lia. }
  pose proof (length_omap_le
                (tickRainParticle (store (loop_world st') !!! planet (loop_world st'))
                   (elapsedWorldTime w now))
                (rain (loop_world st'))) as Hrain.
  unfold tickRain. cbn [store clouds rain set_rain].
  repeat split; lia.
Qed.

(** X21 for a tick of [oneCloudWorld] in which the spawn check succeeds. *)
Lemma tick_population_bounds_witness :
  exists w' g',
    tickWorld oneCloudWorld 10 (constantRng 0) = Ok (w', g')
    /\ (length (store oneCloudWorld) <= length (store w')
        /\ length (store w')
           <= length (store oneCloudWorld) + length (clouds oneCloudWorld)
        /\ length (clouds w') + length (store oneCloudWorld)
           <= length (clouds oneCloudWorld) + length (store w')
        /\ length (clouds w') <= 2 * length (clouds oneCloudWorld)
        /\ (20 <= length (clouds oneCloudWorld) ->
            length (store w') = length (store oneCloudWorld)
            /\ length (clouds w') <= length (clouds oneCloudWorld))
        /\ length (rain w')
           <= length (rain oneCloudWorld) + length (clouds oneCloudWorld))%nat.
Proof.
  destruct (tickWorld_total oneCloudWorld 10 (constantRng 0)
              (wellFormed_oneCloud [])) as (w' & g' & Hrun & _).
  exists w', g'. split; [exact Hrun |].
  exact (tick_population_bounds oneCloudWorld w' 10 (constantRng 0) g' Hrun).
Defined.

Lemma spawnCloud_quiet (cs : list addr) (st : CloudLoop) :
  (forall n, 0.05 <= draws (loop_rng st) n) ->
  exists g',
    spawnCloud cs st = Ok (mkCloudLoop (loop_world st) (remainingClouds st) g')
    /\ draws g' = draws (loop_rng st).
Proof.
  intros Hdraws. unfold spawnCloud. destruct (length cs <? 20)%nat.
  - unfold random. rewrite Rltb_false by apply Hdraws.
    eexists. split; reflexivity.
  - exists (loop_rng st). split; [now destruct st | reflexivity].
Qed.

Lemma tickCloud_quiet (cs : list addr) (dt : R) (st st' : CloudLoop) (c : addr) :
  (forall n, 0.2 <= draws (loop_rng st) n) ->
  0 < mass (store (loop_world st) !!! c) ->
  tickCloud cs dt st c = Ok st' ->
  store (loop_world st')
  = markRaining (collectiveMass (store (loop_world st)) c)
      (store (loop_world st)) c
  /\ rain (loop_world st') = rain (loop_world st)
  /\ clouds (loop_world st') = remainingClouds st'
  /\ remainingClouds st' = remainingClouds st ++ [c]
  /\ draws (loop_rng st') = draws (loop_rng st).
Proof.
  intros Hdraws Hmass Hrun.
  destruct (markRaining_wetted (collectiveMass (store (loop_world st)) c)
              (store (loop_world st)) c) as [Hlen Hw].
  unfold tickCloud in Hrun.
  destruct (rainOrRetain dt st c) as [st1 |] eqn:Hst1; [| discriminate].
  cbn [bind] in Hrun.
  apply rainOrRetain_Ok in Hst1
    as (h2 & emitted & retain & g1 & -> & Hd1 & Hh2 & Hretain).
  destruct Hh2 as [[-> ->] | (_ & _ & Hlt)].
  2: { specialize (Hdraws (cursor (loop_rng st))).
       pose proof (Rmin_r (0.1 * dt * Rmax (Rmin (0.01 *
           collectiveMass (store (loop_world st)) c ^ 2) 1.0) 0.2) 0.2). lra. }
  destruct Hretain as [-> | [_ Hle]].
  2: { destruct (Hw c) as (_ & _ & _ & _ & _ & _ & Hm & _). lra. }
  destruct (spawnCloud_quiet cs
              (assignClouds true c
                 (set_rain (rain (loop_world st) ++ [])
                    (set_store
                       (markRaining (collectiveMass (store (loop_world st)) c)
                          (store (loop_world st)) c) (loop_world st)))
                 (remainingClouds st) g1)) as (g' & Hspawn & Hd').
  { intros n. cbn [assignClouds loop_rng]. rewrite Hd1.
    specialize (Hdraws n). lra. }
  rewrite Hspawn in Hrun. injection Hrun as <-.
  cbn [assignClouds loop_world loop_rng remainingClouds store rain clouds
       set_clouds set_rain set_store] in *.
  rewrite app_nil_r. repeat split; congruence.
Qed.

Lemma cloudLoop_quiet (cs l : list addr) (dt : R) (st st' : CloudLoop) :
  (forall n, 0.2 <= draws (loop_rng st) n) ->
  (forall c, c ∈ l -> 0 < mass (store (loop_world st) !!! c)) ->
  forOf (tickCloud cs dt) st l = Ok st' ->
  length (store (loop_world st')) = length (store (loop_world st))
  /\ (forall a, wetted (store (loop_world st) !!! a) (store (loop_world st') !!! a))
  /\ rain (loop_world st') = rain (loop_world st)
  /\ remainingClouds st' = remainingClouds st ++ l
  /\ (l <> [] -> clouds (loop_world st') = remainingClouds st').
Proof.
  revert st. induction l as [| c l IH]; intros st Hdraws Hl Hrun.
  - injection Hrun as <-. rewrite app_nil_r.
    split; [reflexivity |]. split; [intros a; apply wetted_refl |].
    split; [reflexivity |]. split; [reflexivity | congruence].
  - cbn [forOf] in Hrun.
    destruct (tickCloud cs dt st c) as [st1 |] eqn:Hstep; [| discriminate].
    cbn [bind] in Hrun.
    destruct (tickCloud_quiet cs dt st st1 c Hdraws
                (Hl c (list_elem_of_here _ _)) Hstep)
      as (Hstore & Hrain & Hclouds & Hrem & Hd).
    destruct (markRaining_wetted (collectiveMass (store (loop_world st)) c)
                (store (loop_world st)) c) as [Hlen1 Hw1].
    rewrite <- Hstore in Hlen1, Hw1.
    destruct (IH st1) as (Hlen & Hw & Hrain' & Hrem' & Hassigned).
    + intros n. rewrite Hd. apply Hdraws.
    + intros x Hx. destruct (Hw1 x) as (_ & _ & _ & _ & _ & _ & Hm & _).
      rewrite Hm. apply Hl. now apply list_elem_of_further.
    + exact Hrun.
    + split; [congruence |].
      split; [intros a; eapply wetted_trans; [apply Hw1 | apply Hw] |].
      split; [congruence |].
      split; [rewrite Hrem', Hrem; now rewrite <- app_assoc |].
      intros _. destruct l as [| c' l'].
      * injection Hrun as <-. exact Hclouds.
      * apply Hassigned. discriminate.
Qed.

(** X22.  The rain probability of a cloud is capped at 0.2 and the spawn
    probability is 0.05: when every random draw is 0.2 or more and every
    cloud has positive mass, the tick of a well-formed world completes,
    keeps the list of clouds and the masses as they are, creates no object
    and emits no rain, whatever the elapsed time. *)
Theorem quiet_tick (w : WorldState) (now : Z) (g : Rng) :
  wellFormed w ->
  (forall n, 0.2 <= draws g n) ->
  (forall c, c ∈ clouds w -> 0 < mass (store w !!! c)) ->
  exists w' g',
    tickWorld w now g = Ok (w', g')
    /\ clouds w' = clouds w
    /\ length (store w') = length (store w)
    /\ (forall a, mass (store w' !!! a) = mass (store w !!! a))
    /\ (length (rain w') <= length (rain w))%nat.
Proof.
  intros Hwf Hdraws Hmass.
  destruct (tickWorld_total w now g Hwf) as (w' & g' & Hrun & _).
  exists w', g'. split; [exact Hrun |].
  apply tickWorld_via_loop in Hrun as (st0 & st' & Hstart & Hloop & -> & _).
  pose proof (cloudLoopStart_Ok w now g st0 Hstart) as [Hlen0 Hm0].
  assert (Hrng : loop_rng st0 = g /\ rain (loop_world st0) = rain w
                 /\ remainingClouds st0 = []
                 /\ clouds (loop_world st0) = clouds w).
  { unfold cloudLoopStart in Hstart.
    destruct (getCloudGroups _ _); [| discriminate]. cbn [bind] in Hstart.
    destruct (clusterClouds _ _); [| discriminate]. cbn [bind] in Hstart.
    injection Hstart as <-. repeat split. }
  destruct Hrng as (Hg0 & Hrain0 & Hrem0 & Hclouds0).
  assert (Hdraws0 : forall n, 0.2 <= draws (loop_rng st0) n)
    by (rewrite Hg0; exact Hdraws).
  assert (Hmass0 : forall c, c ∈ clouds w ->
                     0 < mass (store (loop_world st0) !!! c)).
  { intros c Hc. destruct (Hm0 c) as [-> _]. now apply Hmass. }
  destruct (cloudLoop_quiet _ _ _ _ _ Hdraws0 Hmass0 Hloop)
    as (Hlen & Hw & Hrain & Hrem & Hassigned).
  rewrite tickRain_store.
  change (clouds (tickRain (loop_world st') (elapsedWorldTime w now)))
    with (clouds (loop_world st')).
  split; [| split; [congruence | split]].
  - destruct (clouds w) as [| c cs] eqn:Hcs.
    + cbn in Hloop. injection Hloop as <-. now rewrite Hclouds0.
    + rewrite Hassigned by discriminate. now rewrite Hrem, Hrem0.
  - intros a. destruct (Hw a) as (_ & _ & _ & _ & _ & _ & Hm & _).
    rewrite Hm. now destruct (Hm0 a).
  - unfold tickRain. cbn [rain set_rain]. rewrite <- Hrain0, <- Hrain.
    apply length_omap_le.
Qed.

Lemma calmWorld_masses (c : addr) :
  c ∈ clouds calmWorld -> 0 < mass (store calmWorld !!! c).
Proof.
  change (clouds calmWorld) with [2%nat]. rewrite elem_of_cons, elem_of_nil.
  intros [-> | []]. cbn. lra.
Qed.

(** X22 for [calmWorld] and the random stream that always returns 0.5. *)
Lemma quiet_tick_witness :
  exists w' g',
    tickWorld calmWorld 10 (constantRng 0.5) = Ok (w', g')
    /\ clouds w' = clouds calmWorld
    /\ length (store w') = length (store calmWorld)
    /\ (forall a, mass (store w' !!! a) = mass (store calmWorld !!! a))
    /\ (length (rain w') <= length (rain calmWorld))%nat.
Proof.
  apply (quiet_tick calmWorld 10 (constantRng 0.5)).
  - exact (wellFormed_oneCloud _).
  - intros n. cbn. lra.
  - exact calmWorld_masses.
Defined.

Lemma map_lookup_total_ext {B : Type} (f : CelestialObject -> B) (h h' : heap) :
  length h' = length h -> (forall a, f (h' !!! a) = f (h !!! a)) ->
  map f h' = map f h.
Proof.
  revert h'. induction h as [| o h IH]; intros [| o' h'] Hlen Hf;
    try discriminate; [reflexivity |].
  cbn [map]. f_equal.
  - exact (Hf 0%nat).
  - apply IH; [now injection Hlen |]. intros a. exact (Hf (S a)).
Qed.

Lemma totalMass_app (h1 h2 : heap) :
  totalMass (h1 ++ h2) = totalMass h1 + totalMass h2.
Proof. unfold totalMass. now rewrite map_app, sum_app. Qed.

Lemma totalMass_lower (h : heap) (c : addr) :
  (c < length h)%nat ->
  totalMass (alter (fun o => set_mass (mass o - 0.1) o) c h) = totalMass h - 0.1.
Proof.
  unfold totalMass. revert c. induction h as [| o h IH]; intros c Hc.
  - cbn in Hc. lia.
  - destruct c as [| c].
    + cbn [alter list_alter map]. rewrite !sum_cons. cbn [mass set_mass]. ring.
    + cbn [alter list_alter map]. rewrite !sum_cons.
      fold (@list_alter CelestialObject (fun o => set_mass (mass o - 0.1) o)).
      change (list_alter (fun o => set_mass (mass o - 0.1) o) c h)
        with (alter (fun o => set_mass (mass o - 0.1) o) c h).
      rewrite IH by (cbn in Hc; lia). ring.
Qed.

Lemma totalMass_markRaining (M : R) (h : heap) (c : addr) :
  totalMass (markRaining M h c) = totalMass h.
Proof.
  destruct (markRaining_wetted M h c) as [Hlen Hw].
  unfold totalMass. f_equal. apply map_lookup_total_ext; [exact Hlen |].
  intros a. now destruct (Hw a) as (_ & _ & _ & _ & _ & _ & Hm & _).
Qed.

Lemma tickCloud_mass (cs : list addr) (dt : R) (st st' : CloudLoop) (c : addr) :
  (c < length (store (loop_world st)))%nat ->
  tickCloud cs dt st c = Ok st' ->
  totalMass (store (loop_world st'))
  + 0.1 * INR (length (rain (loop_world st')))
  + 5 * INR (length (store (loop_world st)))
  = totalMass (store (loop_world st))
    + 0.1 * INR (length (rain (loop_world st)))
    + 5 * INR (length (store (loop_world st'))).
Proof.
  intros Hc Hrun.
  apply tickCloud_Ok in Hrun
    as (h2 & emitted & retain & spawned & Hstore & Hrain & _ & _ & _
        & _ & Hh2 & _ & Hspawned).
  destruct (markRaining_wetted (collectiveMass (store (loop_world st)) c)
              (store (loop_world st)) c) as [Hlen1 _].
  rewrite Hstore, Hrain, totalMass_app, !length_app, !plus_INR.
  assert (Hsp : totalMass spawned = 5 * INR (length spawned)).
  { destruct Hspawned as [-> | (newCloud & -> & Hfresh & _)].
    - unfold totalMass. cbn [map length INR]. rewrite sum_nil. ring.
    - destruct Hfresh as (_ & _ & _ & Hm & _).
      unfold totalMass. cbn [map length]. rewrite sum_cons, sum_nil, Hm.
      cbn [INR]. ring. }
  rewrite Hsp.
  destruct Hh2 as [[-> ->] | (-> & [r ->] & _)].
  - rewrite totalMass_markRaining, Hlen1. cbn [length INR]. ring.
  - rewrite totalMass_lower by (rewrite Hlen1; exact Hc).
    rewrite totalMass_markRaining, length_alter, Hlen1. cbn [length INR]. ring.
Qed.

Lemma cloudLoop_mass (cs l : list addr) (dt : R) (st st' : CloudLoop) :
  (forall c, c ∈ l -> (c < length (store (loop_world st)))%nat) ->
  forOf (tickCloud cs dt) st l = Ok st' ->
  totalMass (store (loop_world st'))
  + 0.1 * INR (length (rain (loop_world st')))
  + 5 * INR (length (store (loop_world st)))
  = totalMass (store (loop_world st))
    + 0.1 * INR (length (rain (loop_world st)))
    + 5 * INR (length (store (loop_world st'))).
Proof.
  revert st. induction l as [| c l IH]; intros st Hl Hrun.
  - injection Hrun as <-. ring.
  - cbn [forOf] in Hrun.
    destruct (tickCloud cs dt st c) as [st1 |] eqn:Hstep; [| discriminate].
    cbn [bind] in Hrun.
    pose proof (tickCloud_mass cs dt st st1 c (Hl c (list_elem_of_here _ _)) Hstep)
      as H1.
    destruct (tickCloud_counts cs dt st st1 c Hstep) as ((Hle & _) & _).
    assert (H2 := IH st1
             ltac:(intros x Hx; specialize (Hl x (list_elem_of_further _ _ _ Hx)); lia)
             Hrun).
    lra.
Qed.

(** X23.  [tickClouds] conserves water: the total mass of the objects of the
    store plus 0.1 per rain particle changes by exactly 5 per object created,
    the mass of a new cloud; each emitted particle costs its cloud 0.1.
    Neither the store nor the rain shrinks. *)
Theorem water_is_conserved (cs : list addr) (w w' : WorldState) (dt : R)
    (g g' : Rng) :
  Forall (cloudReady (store w)) cs ->
  tickClouds cs w dt g = Ok (w', g') ->
  totalMass (store w') + 0.1 * INR (length (rain w'))
  = totalMass (store w) + 0.1 * INR (length (rain w))
    + 5 * INR (length (store w') - length (store w))
  /\ (length (store w) <= length (store w'))%nat
  /\ (length (rain w) <= length (rain w'))%nat.
Proof.
  intros Hready Hrun. unfold tickClouds in Hrun.
  destruct (getCloudGroups (store w) cs) as [groups |]; [| discriminate].
  cbn [bind] in Hrun.
  destruct (clusterClouds (store w) groups) as [h1 |] eqn:Hc; [| discriminate].
  cbn [bind] in Hrun.
  destruct (forOf _ _ cs) as [st' |] eqn:Hloop; [| discriminate].
  cbn [bind] in Hrun. injection Hrun as <- <-.
  destruct (clusterClouds_inv _ _ _ Hc) as (Hlen1 & Hcl & _).
  assert (Hm1 : totalMass h1 = totalMass (store w)).
  { unfold totalMass. f_equal. apply map_lookup_total_ext; [exact Hlen1 |].
    intros a. now destruct (Hcl a) as (_ & _ & _ & _ & Hm & _). }
  assert (Hvalid : forall c, c ∈ cs -> (c < length h1)%nat).
  { intros c Hc'. rewrite Forall_forall in Hready.
    destruct (Hready c Hc') as [Hlt _]. lia. }
  pose proof (cloudLoop_mass cs cs dt (mkCloudLoop (set_store h1 w) [] g) st'
                Hvalid Hloop) as Hmass.
  cbn [loop_world store set_store rain] in Hmass.
  rewrite Hlen1, Hm1 in Hmass.
  destruct (cloudLoop_counts _ _ _ _ _ Hloop) as ((Hle & _ & _ & _ & Hr & _) & _).
  cbn [loop_world store set_store rain] in Hle, Hr. rewrite Hlen1 in Hle.
  split; [| split; [exact Hle | exact Hr]].
  rewrite minus_INR by exact Hle. lra.
Qed.

Lemma tickClouds_total (w : WorldState) (dt : R) (g : Rng) :
  wellFormed w ->
  exists w' g', tickClouds (clouds w) w dt g = Ok (w', g').
Proof.
  intros (Hplanet & (radius & Hshape) & Hclouds).
  pose proof (getCloudGroups_Ok (store w) (clouds w) Hclouds) as Hgroups.
  destruct (clusterClouds_total (store w)
              (map (cloudGroup (store w) (clouds w)) cloudRanges))
    as (h1 & Hcluster).
  { intros group c Hgroup Hc.
    apply list_elem_of_In, in_map_iff in Hgroup as (range & <- & _).
    apply elem_of_cloudGroup in Hc.
    rewrite Forall_forall in Hclouds. now apply Hclouds. }
  pose proof (clusterClouds_inv _ _ _ Hcluster) as (Hlen1 & Hf1 & _).
  assert (Hclouds1 : Forall (cloudReady h1) (clouds w)).
  { eapply Forall_impl; [exact Hclouds |].
    intros c. now apply cloudReady_clustered. }
  assert (Hshape1 : shape (h1 !!! planet w) = Circle radius).
  { destruct (Hf1 (planet w)) as (_ & _ & Hs1 & _). congruence. }
  destruct (cloudLoop_total (set_store h1 w) g (clouds w) (clouds w) dt radius)
    as (st' & Hloop & _);
    [cbn; lia | exact Hshape1 | exact Hclouds1 |].
  exists (loop_world st'), (loop_rng st').
  unfold tickClouds. rewrite Hgroups. cbn [bind]. rewrite Hcluster. cbn [bind].
  now rewrite Hloop.
Qed.

(** X23 for the clouds of [heavyCloud], the random stream that always returns
    0, and an elapsed time of 1. *)
Lemma water_is_conserved_witness :
  exists w' g',
    tickClouds (clouds heavyCloud) heavyCloud 1 (constantRng 0) = Ok (w', g')
    /\ totalMass (store w') + 0.1 * INR (length (rain w'))
       = totalMass (store heavyCloud) + 0.1 * INR (length (rain heavyCloud))
         + 5 * INR (length (store w') - length (store heavyCloud))
    /\ (length (store heavyCloud) <= length (store w'))%nat
    /\ (length (rain heavyCloud) <= length (rain w'))%nat.
Proof.
  destruct (tickClouds_total heavyCloud 1 (constantRng 0) wellFormed_heavyCloud)
    as (w' & g' & Hrun).
  exists w', g'. split; [exact Hrun |].
  destruct wellFormed_heavyCloud as (_ & _ & Hready).
  exact (water_is_conserved (clouds heavyCloud) heavyCloud w' 1
           (constantRng 0) g' Hready Hrun).
Defined.

(** ** Rain emission *)

Lemma rain_probability_bounds (dt M : R) :
  0 <= dt ->
  Rmin (0.02 * dt) 0.2
  <= Rmin (0.1 * dt * Rmax (Rmin (0.01 * M ^ 2) 1.0) 0.2) 0.2
  <= Rmin (0.1 * dt) 0.2.
Proof.
  intros Hdt.
  assert (Hadj : 0.2 <= Rmax (Rmin (0.01 * M ^ 2) 1.0) 0.2 <= 1).
  { split; [apply Rmax_r |]. apply Rmax_lub; [| lra].
    pose proof (Rmin_r (0.01 * M ^ 2) 1.0). lra. }
  set (adj := Rmax (Rmin (0.01 * M ^ 2) 1.0) 0.2) in *.
  split; apply Rmin_glb.
  - eapply Rle_trans; [apply Rmin_l |]. nra.
  - apply Rmin_r.
  - eapply Rle_trans; [apply Rmin_l |]. nra.
  - apply Rmin_r.
Qed.

(** X24.  What lines 369 to 414 of the loop body of [tickClouds] do to the
    rain, for an elapsed time [dt >= 0] and random draws from 0 up to 1.  A
    cloud that is not raining after the marking step emits nothing.  A
    raining cloud compares one draw with a probability that lies between
    [min (0.02 dt) 0.2] and [min (0.1 dt) 0.2]: below the first it emits
    exactly one particle, from the second on it emits none.  The particle
    starts within 0.5 horizontally and 0.15 vertically of the cloud, with
    the chord velocity of the cloud's orbit, and costs the cloud 0.1 of
    mass; two more draws are used for the jitter. *)
Theorem rain_emission (dt : R) (st st1 : CloudLoop) (c : addr) :
  0 <= dt ->
  (forall n, 0 <= draws (loop_rng st) n < 1) ->
  (c < length (store (loop_world st)))%nat ->
  rainOrRetain dt st c = Ok st1 ->
  let h1 := markRaining (collectiveMass (store (loop_world st)) c)
              (store (loop_world st)) c in
  let draw := draws (loop_rng st) (cursor (loop_rng st)) in
  (state (h1 !!! c) = floating \/ Rmin (0.1 * dt) 0.2 <= draw ->
   rain (loop_world st1) = rain (loop_world st)
   /\ store (loop_world st1) = h1)
  /\ (state (h1 !!! c) = raining -> draw < Rmin (0.02 * dt) 0.2 ->
      exists drop ob radius,
        rain (loop_world st1) = rain (loop_world st) ++ [drop]
        /\ Rabs ((rain_location drop).1 - (location (h1 !!! c)).1) <= 0.5
        /\ Rabs ((rain_location drop).2 - (location (h1 !!! c)).2) <= 0.15
        /\ orbit (h1 !!! c) = Some ob /\ orbit_shape ob = Circle radius
        /\ rain_velocity drop
           = circleHelpers.convertRotationalVelocityToEuclideanVelocity
               radius (orbit_rotation ob) (orbit_rotationalVelocity ob)
        /\ store (loop_world st1)
           = alter (fun o => set_mass (mass o - 0.1) o) c h1
        /\ mass (store (loop_world st1) !!! c) = mass (h1 !!! c) - 0.1
        /\ cursor (loop_rng st1) = (cursor (loop_rng st) + 3)%nat).
Proof.
  intros Hdt Hdraws Hc Hrun h1 draw.
  destruct (markRaining_wetted (collectiveMass (store (loop_world st)) c)
              (store (loop_world st)) c) as [Hlen1 _].
  fold h1 in Hlen1.
  pose proof (rain_probability_bounds dt
                (collectiveMass (store (loop_world st)) c) Hdt) as Hp.
  unfold rainOrRetain in Hrun. fold h1 in Hrun. cbn [store set_store] in Hrun.
  destruct (state (h1 !!! c)) eqn:Hstate.
  - unfold cloudOrbit in Hrun.
    destruct (orbit (h1 !!! c)) as [ob |] eqn:Hob; [| discriminate].
    cbn [bind] in Hrun.
    destruct (orbit_shape ob) as [radius |] eqn:Hshape; [| discriminate].
    unfold random in Hrun. fold draw in Hrun. unfold Rltb at 1 in Hrun.
    destruct (Rlt_dec _ _) as [Hlt | Hge].
    + unfold emitRain, addCloudJitter, random in Hrun.
      cbn [store set_store rain set_rain draws cursor] in Hrun.
      rewrite list_lookup_total_alter_eq in Hrun by (rewrite Hlen1; exact Hc).
      cbn [location set_mass] in Hrun.
      destruct (location (h1 !!! c)) as [x y] eqn:Hloc.
      injection Hrun as <-.
      unfold assignClouds.
      cbn [loop_world loop_rng rain store set_clouds set_rain set_store cursor].
      split.
      * intros [Hf | Hno]; [discriminate | lra].
      * intros _ _. eexists _, ob, radius.
        split; [reflexivity |]. cbn [rain_location rain_velocity fst snd].
        pose proof (Hdraws (S (cursor (loop_rng st)))) as H1.
        pose proof (Hdraws (S (S (cursor (loop_rng st))))) as H2.
        split; [apply Rabs_le; lra |]. split; [apply Rabs_le; lra |].
        split; [reflexivity |]. split; [exact Hshape |].
        split; [reflexivity |]. split; [reflexivity |].
        split; [| lia].
        rewrite list_lookup_total_alter_eq by (rewrite Hlen1; exact Hc).
        reflexivity.
    + injection Hrun as <-. unfold assignClouds.
      cbn [loop_world loop_rng rain store set_clouds set_rain set_store].
      split; [intros _; now split |].
      intros _ Hlow. lra.
  - injection Hrun as <-. unfold assignClouds.
    cbn [loop_world loop_rng rain store set_clouds set_rain set_store].
    split; [intros _; now split | discriminate].
Qed.

(** X24 for the heavy cloud of [heavyCloud], the random stream that always
    returns 0, and an elapsed time of 1. *)
Lemma rain_emission_witness :
  let st := mkCloudLoop heavyCloud [] (constantRng 0) in
  let c := 2%nat in
  let h1 := markRaining (collectiveMass (store (loop_world st)) c)
              (store (loop_world st)) c in
  let draw := draws (loop_rng st) (cursor (loop_rng st)) in
  exists st1,
    rainOrRetain 1 st c = Ok st1
    /\ (state (h1 !!! c) = floating \/ Rmin (0.1 * 1) 0.2 <= draw ->
        rain (loop_world st1) = rain (loop_world st)
        /\ store (loop_world st1) = h1)
    /\ (state (h1 !!! c) = raining -> draw < Rmin (0.02 * 1) 0.2 ->
        exists drop ob radius,
          rain (loop_world st1) = rain (loop_world st) ++ [drop]
          /\ Rabs ((rain_location drop).1 - (location (h1 !!! c)).1) <= 0.5
          /\ Rabs ((rain_location drop).2 - (location (h1 !!! c)).2) <= 0.15
          /\ orbit (h1 !!! c) = Some ob /\ orbit_shape ob = Circle radius
          /\ rain_velocity drop
             = circleHelpers.convertRotationalVelocityToEuclideanVelocity
                 radius (orbit_rotation ob) (orbit_rotationalVelocity ob)
          /\ store (loop_world st1)
             = alter (fun o => set_mass (mass o - 0.1) o) c h1
          /\ mass (store (loop_world st1) !!! c) = mass (h1 !!! c) - 0.1
          /\ cursor (loop_rng st1) = (cursor (loop_rng st) + 3)%nat).
Proof.
  intros st c h1 draw.
  assert (Hready : cloudReady (store (loop_world st)) c).
  { destruct wellFormed_heavyCloud as (_ & _ & Hready).
    rewrite Forall_forall in Hready. apply Hready. cbn. left. }
  destruct (rainOrRetain_total 1 st c Hready) as (st1 & Hrun).
  exists st1. split; [exact Hrun |].
  apply (rain_emission 1 st st1 c); [lra | | cbn; lia | exact Hrun].
  intros n. cbn. lra.
Defined.

(** ** World construction *)

Lemma orbital_velocity_bounds (direction coefficient : R) :
  direction = 1 \/ direction = -1 -> 800 <= coefficient < 1500 ->
  2 * PI / 1500 < Rabs (direction * (2 * PI) / coefficient) <= 2 * PI / 800.
Proof.
  intros Hd Hc. pose proof PI_RGT_0 as Hpi.
  assert (Hinv1 : / coefficient <= / 800) by (apply Rinv_le_contravar; lra).
  assert (Hinv2 : / 1500 < / coefficient) by (apply Rinv_lt_contravar; nra).
  assert (Hpos : 0 < / coefficient) by (apply Rinv_0_lt_compat; lra).
  destruct Hd as [-> | ->].
  - rewrite Rabs_right by (unfold Rdiv; nra). unfold Rdiv. nra.
  - rewrite Rabs_left by (unfold Rdiv; nra). unfold Rdiv. nra.
Qed.

Lemma createRandomCloud_spawned (h : heap) (planet : addr) (g : Rng)
    (planetShape : R) :
  shape (h !!! planet) = Circle planetShape ->
  (forall n, 0 <= draws g n < 1) ->
  exists cloud g',
    createRandomCloud h planet g = Ok (cloud, g')
    /\ draws g' = draws g /\ cursor g' = (cursor g + 5)%nat
    /\ spawnedAround h planet planetShape cloud.
Proof.
  intros Hs Hdraws. pose proof PI_RGT_0 as Hpi.
  unfold createRandomCloud. rewrite Hs. unfold random.
  cbn [draws cursor].
  pose proof (Hdraws (cursor g)) as H1.
  pose proof (Hdraws (S (cursor g))) as H2.
  pose proof (Hdraws (S (S (cursor g)))) as H3.
  pose proof (Hdraws (S (S (S (cursor g))))) as H4.
  pose proof (Hdraws (S (S (S (S (cursor g)))))) as H5.
  eexists _, _. split; [reflexivity |].
  cbn [draws cursor]. split; [reflexivity |]. split; [lia |].
  unfold spawnedAround.
  cbn [orbit location shape mass state friends rotation rotationalVelocity].
  eexists _, _, _, _.
  split; [reflexivity |].
  cbn [orbit_target orbit_shape orbit_rotation orbit_rotationalVelocity].
  split; [reflexivity |]. split; [reflexivity |].
  split; [lra |]. split; [nra |]. split; [reflexivity |].
  assert (Hdir : (if Rgtb (rotationalVelocity (h !!! planet)) 0 then 1 else -1) = 1
                 /\ 0 < rotationalVelocity (h !!! planet)
                 \/ (if Rgtb (rotationalVelocity (h !!! planet)) 0 then 1 else -1)
                    = -1
                    /\ rotationalVelocity (h !!! planet) <= 0).
  { unfold Rgtb, Rltb.
    destruct (Rlt_dec 0 (rotationalVelocity (h !!! planet))); [left | right];
      split; (reflexivity || lra). }
  set (direction :=
         if Rgtb (rotationalVelocity (h !!! planet)) 0 then 1 else -1) in *.
  set (coefficient := draws g (S (S (cursor g))) * 700 + 800).
  assert (Hc : 800 <= coefficient < 1500) by (unfold coefficient; lra).
  split; [apply orbital_velocity_bounds; [tauto | exact Hc] |].
  split.
  { assert (Hpos : 0 < / coefficient) by (apply Rinv_0_lt_compat; lra).
    unfold Rdiv. destruct Hdir as [[-> Hv] | [-> Hv]]; split; intros H; nra. }
  split; [reflexivity |]. repeat split; lra.
Qed.

(** X25.  [createRandomCloud] throws for a planet whose shape is not a
    number.  Otherwise, with every random draw in the interval from 0 to 1,
    it makes exactly five draws and returns a floating cloud of mass 5
    without friends, on a circular orbit about the planet whose radius lies
    between [2 r + 1] and [2 r + 2] for the planet's radius [r], placed at
    the point of that orbit at a rotation in [0, 2 PI) (relative to the
    origin), with axes in [0.6, 0.8) and [0.4, 0.6), and an orbital angular
    velocity between [2 PI / 1500] and [2 PI / 800] in absolute value that is
    positive exactly when the planet's own angular velocity is. *)
Theorem createRandomCloud_within_bounds (h : heap) (planet : addr) (g : Rng) :
  (forall axes, shape (h !!! planet) = Ellipse axes ->
     createRandomCloud h planet g
     = Throw "Clouds can only be created around circular CelestialObjects")
  /\ (forall planetShape,
        shape (h !!! planet) = Circle planetShape ->
        (forall n, 0 <= draws g n < 1) ->
        exists cloud g' ob orbitalRadius a b,
          createRandomCloud h planet g = Ok (cloud, g')
          /\ draws g' = draws g /\ cursor g' = (cursor g + 5)%nat
          /\ orbit cloud = Some ob /\ orbit_target ob = planet
          /\ orbit_shape ob = Circle orbitalRadius
          /\ planetShape * 2 + 1 <= orbitalRadius < planetShape * 2 + 2
          /\ 0 <= orbit_rotation ob < PI * 2
          /\ location cloud
             = circleHelpers.calcRotationalPoint orbitalRadius (orbit_rotation ob)
          /\ 2 * PI / 1500 < Rabs (orbit_rotationalVelocity ob) <= 2 * PI / 800
          /\ (0 < orbit_rotationalVelocity ob
              <-> 0 < rotationalVelocity (h !!! planet))
          /\ shape cloud = Ellipse (a, b)
          /\ 0.6 <= a < 0.8 /\ 0.4 <= b < 0.6
          /\ mass cloud = 5 /\ state cloud = floating /\ friends cloud = []
          /\ rotation cloud = 0 /\ rotationalVelocity cloud = 0).
Proof.
  split.
  - intros axes Hs. unfold createRandomCloud. now rewrite Hs.
  - intros planetShape Hs Hdraws.
    destruct (createRandomCloud_spawned h planet g planetShape Hs Hdraws)
      as (cloud & g' & Hrun & Hd & Hcur & ob & orbitalRadius & a & b & Hrest).
    exists cloud, g', ob, orbitalRadius, a, b.
    split; [exact Hrun |]. split; [exact Hd |]. split; [exact Hcur |].
    exact Hrest.
Qed.

Lemma createRandomClouds_spawned (n : nat) (h : heap) (planet : addr) (g : Rng)
    (planetShape : R) :
  shape (h !!! planet) = Circle planetShape ->
  (forall n, 0 <= draws g n < 1) ->
  exists cs g',
    createRandomClouds n h planet g = Ok (cs, g')
    /\ length cs = n
    /\ draws g' = draws g /\ cursor g' = (cursor g + 5 * n)%nat
    /\ Forall (spawnedAround h planet planetShape) cs.
Proof.
  intros Hs. revert g. induction n as [| n IH]; intros g Hdraws.
  - exists [], g. repeat split; [lia | constructor].
  - destruct (createRandomCloud_spawned h planet g planetShape Hs Hdraws)
      as (o & g1 & Ho & Hd1 & Hc1 & Hspawned).
    destruct (IH g1) as (cs & g' & Hcs & Hlen & Hd & Hc & Hall).
    { intros k. rewrite Hd1. apply Hdraws. }
    exists (o :: cs), g'. cbn [createRandomClouds]. rewrite Ho. cbn [bind].
    rewrite Hcs. cbn [bind]. split; [reflexivity |].
    split; [cbn; lia |]. split; [congruence |]. split; [lia |].
    now constructor.
Qed.

Lemma initial_store_lookup (cs : heap) (c : addr) :
  c ∈ seq 1 (length cs) ->
  (c < length ([initialPlanet] ++ cs ++ [initialSun 0]))%nat
  /\ ([initialPlanet] ++ cs ++ [initialSun 0]) !!! c ∈ cs.
Proof.
  intros Hc. apply elem_of_seq in Hc as [Hc1 Hc2].
  destruct c as [| i]; [lia |].
  split; [rewrite !length_app; cbn; lia |].
  change (([initialPlanet] ++ cs ++ [initialSun 0]) !!! S i)
    with ((cs ++ [initialSun 0]) !!! i).
  rewrite lookup_total_app_l by lia.
  apply list_elem_of_lookup_total_2. lia.
Qed.

Lemma NoDup_cons_seq (a b start len : nat) :
  a <> b -> (a < start \/ start + len <= a)%nat ->
  (b < start \/ start + len <= b)%nat ->
  NoDup (a :: b :: seq start len).
Proof.
  intros Hab Ha Hb.
  apply NoDup_cons. split.
  - rewrite elem_of_cons, elem_of_seq. lia.
  - apply NoDup_cons. split; [rewrite elem_of_seq; lia | apply NoDup_seq].
Qed.

(** X26.  With every random draw in the interval from 0 to 1,
    [createInitialWorldState] completes, makes exactly 100 draws and builds a world
    of 22 distinct objects, the planet, twenty clouds and the sun, without
    rain, with [tick] and [ground] at 0 and [lastTick] at the current time;
    the sun starts at [(175, 0)], and every cloud is as [createRandomCloud]
    draws it around the planet of radius 3, at a distance from 7 to 8 of the
    planet's centre. *)
Theorem initial_world_layout (now : Z) (g : Rng) :
  (forall n, 0 <= draws g n < 1) ->
  exists w g',
    createInitialWorldState now g = Ok (w, g')
    /\ draws g' = draws g /\ cursor g' = (cursor g + 100)%nat
    /\ lastTick w = now /\ tick w = 0%Z /\ ground w = 0 /\ rain w = []
    /\ length (store w) = 22%nat
    /\ planet w = 0%nat /\ clouds w = seq 1 20 /\ sun w = 21%nat
    /\ NoDup (things w)
    /\ store w !!! planet w = initialPlanet
    /\ store w !!! sun w = initialSun (planet w)
    /\ location (store w !!! sun w) = (175, 0)
    /\ Forall (fun c =>
                 spawnedAround (store w) (planet w) 3 (store w !!! c)
                 /\ 7 <= vectorMath.magnitude (location (store w !!! c)) < 8)
              (clouds w).
Proof.
  intros Hdraws.
  destruct (createRandomClouds_spawned 20 [initialPlanet] 0%nat g 3 eq_refl Hdraws)
    as (cs & g' & Hcs & Hlen & Hd & Hc & Hall).
  eexists _, g'. unfold createInitialWorldState. rewrite Hcs. cbn [bind].
  split; [reflexivity |].
  unfold things. cbn [lastTick tick ground rain store planet clouds sun].
  split; [exact Hd |]. split; [lia |].
  split; [reflexivity |]. split; [reflexivity |]. split; [reflexivity |].
  split; [reflexivity |].
  split; [rewrite !length_app, Hlen; reflexivity |].
  split; [reflexivity |]. split; [now rewrite Hlen |].
  split; [now rewrite Hlen |].
  split; [rewrite Hlen; apply NoDup_cons_seq; lia |].
  split; [reflexivity |].
  assert (Hsun : ([initialPlanet] ++ cs ++ [initialSun 0]) !!! S (length cs)
                 = initialSun 0).
  { change (([initialPlanet] ++ cs ++ [initialSun 0]) !!! S (length cs))
      with ((cs ++ [initialSun 0]) !!! length cs).
    now apply list_lookup_total_middle. }
  split; [exact Hsun |].
  split.
  { rewrite Hsun. cbn. rewrite cos_0, sin_0. f_equal; ring. }
  apply Forall_forall. intros c Hc'.
  destruct (initial_store_lookup cs c Hc') as [_ Hin].
  rewrite Forall_forall in Hall. specialize (Hall _ Hin).
  assert (Hsp : spawnedAround ([initialPlanet] ++ cs ++ [initialSun 0]) 0 3
                  (([initialPlanet] ++ cs ++ [initialSun 0]) !!! c)).
  { exact Hall. }
  split; [exact Hsp |].
  destruct Hsp as (ob & r & a & b & _ & _ & _ & Hr & _ & Hloc & _).
  rewrite Hloc.
  unfold circleHelpers.calcRotationalPoint, vectorMath.magnitude. cbn [fst snd].
  replace ((r * cos (orbit_rotation ob)) ^ 2 + (r * sin (orbit_rotation ob)) ^ 2)
    with (r²).
  - rewrite sqrt_Rsqr by lra. lra.
  - pose proof (sin2_cos2 (orbit_rotation ob)) as H. unfold Rsqr in *.
    transitivity (r * r * (sin (orbit_rotation ob) * sin (orbit_rotation ob)
                           + cos (orbit_rotation ob) * cos (orbit_rotation ob)));
      [rewrite H; ring | ring].
Qed.


(** ** Whole ticks *)

Lemma tickWorld_fields (w w' : WorldState) (now : Z) (g g' : Rng) :
  tickWorld w now g = Ok (w', g') ->
  lastTick w' = now /\ tick w' = tick w /\ planet w' = planet w
  /\ sun w' = sun w /\ ground w' = ground w.
Proof.
  intros Hrun.
  apply tickWorld_Ok in Hrun as (groups & h1 & st' & _ & _ & Hloop & -> & _).
  destruct (cloudLoop_sameWorld _ _ _ _ _ Hloop) as (Hp & Hs & Hl & Ht & Hg).
  cbn [loop_world planet sun lastTick tick ground set_store set_lastTick] in *.
  unfold tickRain. cbn [lastTick tick planet sun ground set_rain].
  repeat split; assumption.
Qed.

Lemma tickWorld_root (w w' : WorldState) (now : Z) (g g' : Rng) (t : addr) :
  tickWorld w now g = Ok (w', g') ->
  (t < length (store w))%nat -> orbit (store w !!! t) = None ->
  orbit (store w' !!! t) = None
  /\ location (store w' !!! t) = location (store w !!! t).
Proof.
  intros Hrun Ht Ho.
  apply tickWorld_Ok in Hrun as (groups & h1 & st' & _ & Hc & Hloop & -> & _).
  destruct (tickCelestialObjects_root (elapsedWorldTime w now) (things w)
              (store w) t Ho) as [Ho0 Hl0].
  destruct (clusterClouds_inv _ _ _ Hc) as (Hlen1 & Hcl & _).
  rewrite length_tickCelestialObjects in Hlen1.
  destruct (Hcl t) as (Hl1 & _ & _ & _ & _ & _ & Hpath & _).
  destruct (cloudLoop_rained _ _ _ _ _ Hloop) as [_ Hr].
  cbn [loop_world store set_store set_lastTick] in Hr.
  destruct (Hr t ltac:(lia)) as (Hl2 & _ & _ & _ & Ho2 & _).
  rewrite tickRain_store. split.
  - rewrite Ho2. unfold orbitPath in Hpath. rewrite Ho0 in Hpath.
    destruct (orbit (h1 !!! t)); [discriminate | reflexivity].
  - congruence.
Qed.

Lemma rng_advances_tickCloud (cs : list addr) (dt : R) (st st' : CloudLoop)
    (c : addr) :
  tickCloud cs dt st c = Ok st' ->
  draws (loop_rng st') = draws (loop_rng st).
Proof.
  intros Hrun.
  now apply tickCloud_Ok in Hrun
    as (h2 & emitted & retain & spawned & _ & _ & _ & _ & _ & Hd & _).
Qed.

(** X30.  What a tick does to the bookkeeping of the world: [lastTick]
    becomes the current time, so that the next elapsed world time is a tenth
    of the milliseconds since this tick; [tick] and [water.ground] are never
    written, the planet and the sun stay the same objects, and the sequence
    of random numbers is only read. *)
Theorem tick_bookkeeping (w w' : WorldState) (now : Z) (g g' : Rng) :
  tickWorld w now g = Ok (w', g') ->
  lastTick w' = now /\ tick w' = tick w /\ ground w' = ground w
  /\ planet w' = planet w /\ sun w' = sun w
  /\ draws g' = draws g
  /\ forall later, elapsedWorldTime w' later = IZR (later - now) / 10.
Proof.
  intros Hrun.
  destruct (tickWorld_fields w w' now g g' Hrun) as (Hl & Ht & Hp & Hs & Hg).
  split; [exact Hl |]. split; [exact Ht |]. split; [exact Hg |].
  split; [exact Hp |]. split; [exact Hs |]. split.
  - apply tickWorld_Ok in Hrun as (groups & h1 & st' & _ & _ & Hloop & _ & ->).
    apply (forOf_invariant (fun s => draws (loop_rng s) = draws g)) in Hloop;
      [exact Hloop | | reflexivity].
    intros s c s' _ Hs' Hstep.
    now rewrite (rng_advances_tickCloud _ _ _ _ _ Hstep).
  - intros later. unfold elapsedWorldTime, timePerMs. rewrite Hl. field.
Qed.

(** X30 for a tick of [calmWorld] at time 10. *)
Lemma tick_bookkeeping_witness :
  exists w' g',
    tickWorld calmWorld 10 (constantRng 0.5) = Ok (w', g')
    /\ lastTick w' = 10%Z /\ tick w' = tick calmWorld
    /\ ground w' = ground calmWorld
    /\ planet w' = planet calmWorld /\ sun w' = sun calmWorld
    /\ draws g' = draws (constantRng 0.5)
    /\ forall later, elapsedWorldTime w' later = IZR (later - 10) / 10.
Proof.
  destruct (tickWorld_total calmWorld 10 (constantRng 0.5)
              (wellFormed_oneCloud _)) as (w' & g' & Hrun & _).
  exists w', g'. split; [exact Hrun |].
  exact (tick_bookkeeping calmWorld w' 10 (constantRng 0.5) g' Hrun).
Defined.

(** X26 for the random stream that always returns 0.5. *)
Lemma initial_world_layout_witness :
  exists w g',
    createInitialWorldState 0 (constantRng 0.5) = Ok (w, g')
    /\ draws g' = draws (constantRng 0.5)
    /\ cursor g' = (cursor (constantRng 0.5) + 100)%nat
    /\ lastTick w = 0%Z /\ tick w = 0%Z /\ ground w = 0 /\ rain w = []
    /\ length (store w) = 22%nat
    /\ planet w = 0%nat /\ clouds w = seq 1 20 /\ sun w = 21%nat
    /\ NoDup (things w)
    /\ store w !!! planet w = initialPlanet
    /\ store w !!! sun w = initialSun (planet w)
    /\ location (store w !!! sun w) = (175, 0)
    /\ Forall (fun c =>
                 spawnedAround (store w) (planet w) 3 (store w !!! c)
                 /\ 7 <= vectorMath.magnitude (location (store w !!! c)) < 8)
              (clouds w).
Proof.
  apply (initial_world_layout 0 (constantRng 0.5)).
  intros n. cbn. lra.
Defined.

Lemma tickWorlds_root (nows : list Z) (w w' : WorldState) (g g' : Rng) (t : addr) :
  tickWorlds w nows g = Ok (w', g') ->
  (t < length (store w))%nat -> orbit (store w !!! t) = None ->
  (t < length (store w'))%nat
  /\ orbit (store w' !!! t) = None
  /\ location (store w' !!! t) = location (store w !!! t)
  /\ shape (store w' !!! t) = shape (store w !!! t).
Proof.
  revert w g. induction nows as [| now nows IH]; intros w g Hrun Ht Ho.
  - cbn in Hrun. injection Hrun as <- _. auto.
  - cbn [tickWorlds] in Hrun.
    destruct (tickWorld w now g) as [[w1 g1] |] eqn:Hstep; [| discriminate].
    cbn [bind fst snd] in Hrun.
    destruct (tickWorld_root w w1 now g g1 t Hstep Ht Ho) as [Ho1 Hl1].
    destruct (tickWorld_ticked w w1 now g g1 Hstep) as [Hlen Hticked].
    destruct (Hticked t Ht) as (Hs1 & _).
    destruct (IH w1 g1 Hrun ltac:(lia) Ho1) as (Ht' & Ho' & Hl' & Hs').
    repeat split; congruence.
Qed.

(** X28.  An object without an orbit is never moved: through any number of
    ticks it keeps its location and its shape and stays without an orbit.
    This is why the planet stays at the centre. *)
Theorem orbitless_objects_never_move (w w' : WorldState) (nows : list Z)
    (g g' : Rng) (t : addr) :
  tickWorlds w nows g = Ok (w', g') ->
  (t < length (store w))%nat -> orbit (store w !!! t) = None ->
  orbit (store w' !!! t) = None
  /\ location (store w' !!! t) = location (store w !!! t)
  /\ shape (store w' !!! t) = shape (store w !!! t).
Proof.
  intros Hrun Ht Ho.
  now destruct (tickWorlds_root nows w w' g g' t Hrun Ht Ho) as (_ & H).
Qed.

(** X28 for the planet of [farFriends] and three ticks. *)
Lemma orbitless_objects_never_move_witness :
  exists w' g',
    tickWorlds farFriends [10; 20; 35]%Z (constantRng 0.5) = Ok (w', g')
    /\ orbit (store w' !!! 0%nat) = None
    /\ location (store w' !!! 0%nat) = location (store farFriends !!! 0%nat)
    /\ shape (store w' !!! 0%nat) = shape (store farFriends !!! 0%nat).
Proof.
  destruct (tickWorlds_total [10; 20; 35]%Z farFriends (constantRng 0.5)
              wellFormed_farFriends) as (w' & g' & Hrun & _).
  exists w', g'. split; [exact Hrun |].
  apply (orbitless_objects_never_move farFriends w' _ _ g' 0%nat Hrun).
  - cbn. lia.
  - reflexivity.
Defined.

Lemma tickWorlds_fields (nows : list Z) (w w' : WorldState) (g g' : Rng) :
  tickWorlds w nows g = Ok (w', g') ->
  tick w' = tick w /\ planet w' = planet w /\ sun w' = sun w
  /\ ground w' = ground w.
Proof.
  revert w g. induction nows as [| now nows IH]; intros w g Hrun.
  - cbn in Hrun. injection Hrun as <- _. auto.
  - cbn [tickWorlds] in Hrun.
    destruct (tickWorld w now g) as [[w1 g1] |] eqn:Hstep; [| discriminate].
    cbn [bind fst snd] in Hrun.
    destruct (tickWorld_fields w w1 now g g1 Hstep) as (_ & Ht & Hp & Hs & Hg).
    destruct (IH w1 g1 Hrun) as (Ht' & Hp' & Hs' & Hg').
    repeat split; congruence.
Qed.

Lemma tickWorlds_friendly (nows : list Z) (w w' : WorldState) (g g' : Rng) :
  wellFormed w -> friendly (store w) ->
  tickWorlds w nows g = Ok (w', g') ->
  wellFormed w' /\ friendly (store w').
Proof.
  revert w g. induction nows as [| now nows IH]; intros w g Hwf Hfr Hrun.
  - cbn in Hrun. now injection Hrun as <- _.
  - cbn [tickWorlds] in Hrun.
    destruct (tickWorld w now g) as [[w1 g1] |] eqn:Hstep; [| discriminate].
    cbn [bind fst snd] in Hrun.
    destruct (tickWorld_friendly w w1 now g g1 Hwf Hfr Hstep) as [Hwf1 Hfr1].
    exact (IH w1 g1 Hwf1 Hfr1 Hrun).
Qed.

Lemma createInitialWorldState_store (now : Z) (g : Rng) :
  exists cs g',
    createInitialWorldState now g
    = Ok ({| lastTick := now; tick := 0; planet := 0%nat; sun := S (length cs);
             clouds := seq 1 (length cs); rain := []; ground := 0;
             store := [initialPlanet] ++ cs ++ [initialSun 0] |}, g')
    /\ length cs = 20%nat /\ Forall (placedAround 0%nat) cs.
Proof.
  destruct (createRandomClouds_placed 20 [initialPlanet] 0%nat g 3 eq_refl)
    as (cs & g' & Hcs & Hlen & Hall).
  exists cs, g'. unfold createInitialWorldState. rewrite Hcs. cbn [bind].
  now repeat split.
Qed.

Lemma friendless_friendly (h : heap) :
  Forall (fun o => friends o = []) h -> friendly h.
Proof.
  intros Hall a b Hb. exfalso.
  destruct (decide (a < length h)%nat) as [Ha | Ha].
  - rewrite Forall_forall in Hall.
    rewrite (Hall (h !!! a)) in Hb by (apply list_elem_of_lookup_total_2; lia).
    now apply elem_of_nil in Hb.
  - rewrite friends_beyond in Hb by lia. now apply elem_of_nil in Hb.
Qed.

(** X27.  The simulation never throws: for every starting time, every
    sequence of tick times and every sequence of random numbers,
    [createInitialWorldState] and all the ticks after it complete.  The
    world they reach is well formed, its friendships are symmetric, its
    planet is still the circle of radius 3 at the origin, and [tick] and
    [ground] are still 0. *)
Theorem simulation_never_throws (now : Z) (nows : list Z) (g : Rng) :
  exists w g0 w' g',
    createInitialWorldState now g = Ok (w, g0)
    /\ tickWorlds w nows g0 = Ok (w', g')
    /\ wellFormed w'
    /\ friendly (store w')
    /\ planet w' = planet w /\ sun w' = sun w
    /\ tick w' = 0%Z /\ ground w' = 0
    /\ (22 <= length (store w'))%nat
    /\ location (store w' !!! planet w') = (0, 0)
    /\ shape (store w' !!! planet w') = Circle 3
    /\ orbit (store w' !!! planet w') = None.
Proof.
  destruct (createInitialWorldState_store now g) as (cs & g0 & Hinit & Hlen & Hall).
  destruct (createInitialWorldState_Ok now g) as (w0 & g0' & Hinit' & Hwf & _).
  rewrite Hinit in Hinit'. injection Hinit' as <- <-.
  set (w := {| lastTick := now; tick := 0; planet := 0%nat; sun := S (length cs);
               clouds := seq 1 (length cs); rain := []; ground := 0;
               store := [initialPlanet] ++ cs ++ [initialSun 0] |}) in *.
  assert (Hfr : friendly (store w)).
  { apply friendless_friendly. cbn [store w].
    apply Forall_app. split; [repeat constructor |].
    apply Forall_app. split; [| repeat constructor].
    eapply Forall_impl; [exact Hall |].
    now intros o ((_ & _ & _ & _ & Hf) & _). }
  destruct (tickWorlds_total nows w g0 Hwf) as (w' & g' & Hrun & _).
  destruct (tickWorlds_friendly nows w w' g0 g' Hwf Hfr Hrun) as [Hwf' Hfr'].
  destruct (tickWorlds_fields nows w w' g0 g' Hrun) as (Ht & Hp & Hs & Hg).
  destruct (tickWorlds_ticked nows w w' g0 g' Hrun) as [Hlen' _].
  assert (Hlen0 : length (store w) = 22%nat).
  { cbn [store w]. rewrite !length_app, Hlen. reflexivity. }
  destruct (tickWorlds_root nows w w' g0 g' 0%nat Hrun)
    as (_ & Ho & Hl & Hsh); [lia | reflexivity |].
  exists w, g0, w', g'.
  split; [exact Hinit |]. split; [exact Hrun |]. split; [exact Hwf' |].
  split; [exact Hfr' |]. split; [exact Hp |]. split; [exact Hs |].
  split; [exact Ht |]. split; [exact Hg |]. split; [lia |].
  rewrite Hp. change (planet w) with 0%nat.
  split; [exact Hl |]. split; [exact Hsh | exact Ho].
Qed.

Lemma state_beyond (h : heap) (a : addr) :
  (length h <= a)%nat -> state (h !!! a) = floating.
Proof.
  intros Ha. rewrite list_lookup_total_alt, lookup_ge_None_2 by exact Ha.
  reflexivity.
Qed.

Lemma rainOrRetain_drops (dt : R) (st st1 : CloudLoop) (c : addr) :
  rainOrRetain dt st c = Ok st1 ->
  remainingClouds st ⊆ remainingClouds st1
  /\ (c ∈ remainingClouds st1
      \/ (state (store (loop_world st1) !!! c) = raining
          /\ mass (store (loop_world st1) !!! c) <= 0)).
Proof.
  unfold rainOrRetain.
  set (h1 := markRaining (collectiveMass (store (loop_world st)) c)
               (store (loop_world st)) c).
  cbn [store set_store].
  destruct (state (h1 !!! c)) eqn:Hstate.
  - unfold cloudOrbit.
    destruct (orbit (h1 !!! c)) as [ob |]; [| discriminate]. cbn [bind].
    destruct (orbit_shape ob) as [radius |]; [| discriminate].
    destruct (random (loop_rng st)) as [r g1].
    assert (Hcases : forall (w1 : WorldState) (g2 : Rng),
              state (store w1 !!! c) = raining ->
              let st1 := assignClouds (Rgtb (mass (store w1 !!! c)) 0) c w1
                           (remainingClouds st) g2 in
              remainingClouds st ⊆ remainingClouds st1
              /\ (c ∈ remainingClouds st1
                  \/ (state (store (loop_world st1) !!! c) = raining
                      /\ mass (store (loop_world st1) !!! c) <= 0))).
    { intros w1 g2 Hs. cbv zeta. unfold assignClouds, Rgtb, Rltb.
      cbn [remainingClouds loop_world store set_clouds].
      destruct (Rlt_dec 0 (mass (store w1 !!! c))) as [Hpos | Hneg].
      - split; [intros x Hx; apply elem_of_app; now left |].
        left. apply elem_of_app. right. apply list_elem_of_here.
      - split; [reflexivity |]. right. split; [exact Hs | lra]. }
    destruct (Rltb r _).
    + destruct (emitRain c radius ob _ g1) as [w1 g2] eqn:Hemit.
      intros [= <-]. apply Hcases.
      unfold emitRain in Hemit. destruct (addCloudJitter _ g1) as [j g3].
      injection Hemit as <- _. cbn [store set_rain set_store].
      rewrite list_lookup_total_alter. destruct (decide _); [| exact Hstate].
      cbn [state set_mass]. exact Hstate.
    + intros [= <-]. apply Hcases. exact Hstate.
  - intros [= <-]. unfold assignClouds. cbn [remainingClouds].
    split; [intros x Hx; apply elem_of_app; now left |].
    left. apply elem_of_app. right. apply list_elem_of_here.
Qed.

Lemma spawnCloud_keeps (cs : list addr) (st st' : CloudLoop) (c : addr) :
  spawnCloud cs st = Ok st' ->
  remainingClouds st ⊆ remainingClouds st'
  /\ (state (store (loop_world st) !!! c) = raining ->
      store (loop_world st') !!! c = store (loop_world st) !!! c).
Proof.
  intros Hrun.
  apply spawnCloud_Ok in Hrun as (spawned & g' & -> & _ & Hspawned).
  destruct Hspawned as [-> | (newCloud & -> & _)].
  - cbn [loop_world remainingClouds]. now split.
  - cbn [loop_world remainingClouds store set_clouds set_store]. split.
    + intros x Hx. apply elem_of_app. now left.
    + intros Hs. apply lookup_total_app_l.
      destruct (decide (c < length (store (loop_world st)))%nat) as [Hc | Hc];
        [exact Hc |].
      rewrite state_beyond in Hs by lia. discriminate.
Qed.

Lemma tickCloud_drops (cs : list addr) (dt : R) (st st' : CloudLoop) (c : addr) :
  tickCloud cs dt st c = Ok st' ->
  remainingClouds st ⊆ remainingClouds st'
  /\ (c ∈ remainingClouds st'
      \/ (state (store (loop_world st') !!! c) = raining
          /\ mass (store (loop_world st') !!! c) <= 0)).
Proof.
  unfold tickCloud.
  destruct (rainOrRetain dt st c) as [st1 |] eqn:Hst1; [| discriminate].
  cbn [bind]. intros Hspawn.
  destruct (rainOrRetain_drops dt st st1 c Hst1) as [Hsub1 Hc1].
  destruct (spawnCloud_keeps cs st1 st' c Hspawn) as [Hsub2 Hsame].
  split; [etransitivity; eassumption |].
  destruct Hc1 as [Hin | [Hs Hm]]; [left; now apply Hsub2 |].
  right. rewrite (Hsame Hs). now split.
Qed.

Lemma cloudLoop_remaining (cs l : list addr) (dt : R) (st st' : CloudLoop) :
  forOf (tickCloud cs dt) st l = Ok st' ->
  remainingClouds st ⊆ remainingClouds st'.
Proof.
  apply (forOf_invariant (fun s => remainingClouds st ⊆ remainingClouds s)).
  - intros s c s' _ Hs Hstep.
    destruct (tickCloud_drops cs dt s s' c Hstep) as [Hsub _].
    etransitivity; eassumption.
  - reflexivity.
Qed.

(** X29.  A tick removes a cloud from [water.clouds] only when it has rained
    out: a cloud of the list that is missing from the list after the tick is
    raining and has a mass of 0 or less. *)
Theorem clouds_leave_only_when_rained_out (w w' : WorldState) (now : Z)
    (g g' : Rng) (c : addr) :
  tickWorld w now g = Ok (w', g') ->
  c ∈ clouds w ->
  c ∈ clouds w'
  \/ (state (store w' !!! c) = raining /\ mass (store w' !!! c) <= 0).
Proof.
  intros Hrun Hc.
  apply tickWorld_Ok in Hrun as (groups & h1 & st' & _ & _ & Hloop & -> & _).
  rewrite tickRain_store.
  change (clouds (tickRain (loop_world st') (elapsedWorldTime w now)))
    with (clouds (loop_world st')).
  assert (Hclouds : clouds (loop_world st') = remainingClouds st').
  { destruct (cloudLoop_counts _ _ _ _ _ Hloop) as [_ Hcl]. apply Hcl.
    intros E. rewrite E in Hc. now apply elem_of_nil in Hc. }
  rewrite Hclouds.
  destruct (forOf_at _ _ c _ _ Hc Hloop) as (l1 & l2 & s1 & s2 & _ & _ & Hstep & Hrest).
  destruct (tickCloud_drops _ _ _ _ _ Hstep) as [_ [Hin | [Hs Hm]]].
  - left. now apply (cloudLoop_remaining _ _ _ _ _ Hrest).
  - right.
    assert (Hlt : (c < length (store (loop_world s2)))%nat).
    { destruct (decide (c < length (store (loop_world s2)))%nat) as [H | H];
        [exact H |].
      rewrite state_beyond in Hs by lia. discriminate. }
    destruct (cloudLoop_rained _ _ _ _ _ Hrest) as [_ Hr].
    destruct (Hr c Hlt) as (_ & _ & _ & _ & _ & _ & Hmass & Hstate).
    split; [now apply Hstate | lra].
Qed.

(** X29 for the cloud of [calmWorld]. *)
Lemma clouds_leave_only_when_rained_out_witness :
  exists w' g',
    tickWorld calmWorld 10 (constantRng 0.5) = Ok (w', g')
    /\ (2%nat ∈ clouds w'
        \/ (state (store w' !!! 2%nat) = raining
            /\ mass (store w' !!! 2%nat) <= 0)).
Proof.
  destruct (tickWorld_total calmWorld 10 (constantRng 0.5)
              (wellFormed_oneCloud _)) as (w' & g' & Hrun & _).
  exists w', g'. split; [exact Hrun |].
  apply (clouds_leave_only_when_rained_out calmWorld w' 10 (constantRng 0.5) g'
           2%nat Hrun).
  change (clouds calmWorld) with [2%nat]. apply list_elem_of_here.
Defined.
